(** * Bowyer-Watson Delaunay triangulation (src/main.cpp)

    A shallow embedding of the triangulation engine of [main.cpp]:
    the geometry primitives ([Point], [Edge], [Triangle]), the
    circumcircle predicate [inCircumcircle], the engine
    [delaunayTriangulation] and the writer [exportToVTK].

    The C++ code computes on [double].  The embedding is written once over
    an interface [Scalar] of the arithmetic the code uses, and is then run
    on two instances:
    - [binary64]: Rocq's primitive IEEE 754 binary64 numbers, one rounding
      (to nearest, ties to even) per operation, as a compiler gives them
      when it neither fuses multiplications with additions nor keeps
      intermediate results in a wider format.  This is the arithmetic of
      the program; NaN, infinities and signed zeros are part of it.
    - [exactQ]: the rationals, i.e. the same program text computed without
      rounding or overflow.  It is only used to say what the code does
      when the arithmetic is exact. *)

From Stdlib Require Import String Ascii.
From Stdlib Require Import Floats ZArith QArith List Bool Lia Lqa.
From Stdlib Require Import Permutation.
Import ListNotations.

Close Scope Q_scope.
Close Scope Z_scope.

(* Decimal literals denote the nearest binary64 number. *)
Set Warnings "-inexact-float".

(** ** The arithmetic used by the program *)

Class Scalar (F : Type) : Type := {
  fadd : F -> F -> F;
  fsub : F -> F -> F;
  fmul : F -> F -> F;
  fdiv : F -> F -> F;
  flt : F -> F -> bool;          (* operator<  on double *)
  feq : F -> F -> bool;          (* operator== on double *)
  fle : F -> F -> bool;          (* operator<= ; not used by the engine *)
  lit_0 : F;                     (* 0.0 ; not used by the engine *)
  lit_2 : F;                     (* the literal 2.0 *)
  lit_20 : F;                    (* the literal 20, converted to double *)
  lit_eps : F                    (* the literal 1e-9 *)
}.

#[global] Instance binary64 : Scalar float := {|
  fadd := PrimFloat.add;
  fsub := PrimFloat.sub;
  fmul := PrimFloat.mul;
  fdiv := PrimFloat.div;
  flt := PrimFloat.ltb;
  feq := PrimFloat.eqb;
  fle := PrimFloat.leb;
  lit_0 := 0%float;
  lit_2 := 2%float;
  lit_20 := 20%float;
  lit_eps := 1e-9%float          (* read as the nearest double, as C++ does *)
|}.

Definition Qltb (u v : Q) : bool := negb (Qle_bool v u).

#[global] Instance exactQ : Scalar Q := {|
  fadd := Qplus;
  fsub := Qminus;
  fmul := Qmult;
  fdiv := Qdiv;
  flt := Qltb;
  feq := Qeq_bool;
  fle := Qle_bool;
  lit_0 := 0%Q;
  lit_2 := 2%Q;
  lit_20 := 20%Q;
  lit_eps := (1 # 1000000000)%Q
|}.

Declare Scope scalar_scope.
Delimit Scope scalar_scope with sc.
Infix "+" := fadd : scalar_scope.
Infix "-" := fsub : scalar_scope.
Infix "*" := fmul : scalar_scope.
Infix "/" := fdiv : scalar_scope.
Infix "<?" := flt (at level 70, no associativity) : scalar_scope.
Infix "<=?" := fle (at level 70, no associativity) : scalar_scope.
Infix "==?" := feq (at level 70, no associativity) : scalar_scope.

(** ** Geometry primitives *)

Record Point (F : Type) : Type := mkPoint { x : F; y : F }.

Record Edge (F : Type) : Type := mkEdge { p1 : Point F; p2 : Point F }.

Record Triangle (F : Type) : Type :=
  mkTriangle { a : Point F; b : Point F; c : Point F }.

Arguments mkPoint {F} x y.
Arguments x {F} p.
Arguments y {F} p.
Arguments mkEdge {F} p1 p2.
Arguments p1 {F} e.
Arguments p2 {F} e.
Arguments mkTriangle {F} a b c.
Arguments a {F} t.
Arguments b {F} t.
Arguments c {F} t.

(** The variables of [delaunayTriangulation]: the vector [points] the
    caller passed by reference, the local vector [triangles] and the four
    bounds. *)
Record frame (F : Type) : Type := mkFrame {
  points : list (Point F);
  triangles : list (Triangle F);
  minX : F; minY : F; maxX : F; maxY : F
}.

Arguments mkFrame {F} points triangles minX minY maxX maxY.
Arguments points {F} f.
Arguments triangles {F} f.
Arguments minX {F} f.
Arguments minY {F} f.
Arguments maxX {F} f.
Arguments maxY {F} f.

(** What a call can end in: a returned value, or an access the C++
    standard leaves undefined. *)
Inductive undefined : Type :=
| OutOfBoundsRead (index size : nat).

Inductive outcome (A : Type) : Type :=
| Returned (v : A)
| Undefined (u : undefined).

Arguments Returned {A} v.
Arguments Undefined {A} u.

Section Engine.

Context {F : Type} {SF : Scalar F}.
Local Open Scope scalar_scope.

(** [Point::operator==] *)
Definition Point_eqb (p q : Point F) : bool :=
  (x p ==? x q) && (y p ==? y q).

(** [Point::operator<] *)
Definition Point_ltb (p q : Point F) : bool :=
  if x p <? x q then true
  else if x q <? x p then false
  else y p <? y q.

(** [Edge::operator==] *)
Definition Edge_eqb (e o : Edge F) : bool :=
  (Point_eqb (p1 e) (p1 o) && Point_eqb (p2 e) (p2 o))
  || (Point_eqb (p1 e) (p2 o) && Point_eqb (p2 e) (p1 o)).

(** [std::min(u, v)] is [(v < u) ? v : u]; [std::max(u, v)] is
    [(u < v) ? v : u]. *)
Definition std_min (u v : F) : F := if v <? u then v else u.
Definition std_max (u v : F) : F := if u <? v then v else u.

(** ** The circumcircle predicate *)

Definition inCircumcircle (p : Point F) (t : Triangle F) : bool :=
  let ax := x (a t) - x p in
  let ay := y (a t) - y p in
  let bx := x (b t) - x p in
  let by_ := y (b t) - y p in
  let cx := x (c t) - x p in
  let cy := y (c t) - y p in
  let det := (ax * ax + ay * ay) * (bx * cy - cx * by_) -
             (bx * bx + by_ * by_) * (ax * cy - cx * ay) +
             (cx * cx + cy * cy) * (ax * by_ - bx * ay) in
  lit_eps <? det.

(** ** The engine *)

Definition set_triangles (ts : list (Triangle F)) (s : frame F) : frame F :=
  mkFrame (points s) ts (minX s) (minY s) (maxX s) (maxY s).

Definition set_bounds (lx ly hx hy : F) (s : frame F) : frame F :=
  mkFrame (points s) (triangles s) lx ly hx hy.

(** [for (const auto& p : points) body]: the end of the range is taken
    once, and each round reads element [i] of the vector as it is then. *)
Definition range_for_points (body : Point F -> frame F -> frame F)
    (s : frame F) : frame F :=
  fold_left
    (fun s i => match nth_error (points s) i with
                | Some p => body p s
                | None => s
                end)
    (seq 0 (length (points s))) s.

(** Lines 66-71: one round of the bounding-box loop. *)
Definition boundsBody (p : Point F) (s : frame F) : frame F :=
  set_bounds (std_min (minX s) (x p)) (std_min (minY s) (y p))
             (std_max (maxX s) (x p)) (std_max (maxY s) (y p)) s.

(** Lines 72-82: the super triangle from the bounds. *)
Definition deltaMax_of (s : frame F) : F :=
  std_max (maxX s - minX s) (maxY s - minY s).
Definition midX_of (s : frame F) : F := (minX s + maxX s) / lit_2.
Definition midY_of (s : frame F) : F := (minY s + maxY s) / lit_2.

Definition superTriangle_of (s : frame F) : Triangle F :=
  let deltaMax := deltaMax_of s in
  let midX := midX_of s in
  let midY := midY_of s in
  mkTriangle
    (mkPoint (midX - lit_20 * deltaMax) (midY - deltaMax))
    (mkPoint (midX + lit_20 * deltaMax) (midY - deltaMax))
    (mkPoint midX (midY + lit_20 * deltaMax)).

(** Lines 90-97: the bad triangles of [point] and the edges of all of
    them, in the order of the scan. *)
Definition edgesOf (t : Triangle F) : list (Edge F) :=
  [mkEdge (a t) (b t); mkEdge (b t) (c t); mkEdge (c t) (a t)].

Definition findBad (point : Point F) (ts : list (Triangle F))
    : list (Triangle F) * list (Edge F) :=
  fold_left
    (fun acc t =>
       if inCircumcircle point t
       then (fst acc ++ [t], snd acc ++ edgesOf t)
       else acc)
    ts ([], []).

(** Lines 100-108: the predicate of the first [remove_if], and the erase. *)
Definition sameSlots (t bad : Triangle F) : bool :=
  Point_eqb (a t) (a bad) && Point_eqb (b t) (b bad)
  && Point_eqb (c t) (c bad).

Definition isBad (badTriangles : list (Triangle F)) (t : Triangle F)
    : bool :=
  existsb (sameSlots t) badTriangles.

Definition removeBad (badTriangles ts : list (Triangle F))
    : list (Triangle F) :=
  filter (fun t => negb (isBad badTriangles t)) ts.

(** Lines 111-123: the edges of [polygon] that no other position of
    [polygon] holds, compared with [Edge::operator==]. *)
Definition indexed {A : Type} (l : list A) : list (nat * A) :=
  combine (seq 0 (length l)) l.

Definition isUnique (polygon : list (Edge F)) (i : nat) (e : Edge F)
    : bool :=
  negb (existsb (fun je => negb (Nat.eqb i (fst je)) && Edge_eqb e (snd je))
                (indexed polygon)).

Definition uniqueEdges (polygon : list (Edge F)) : list (Edge F) :=
  map snd (filter (fun ie => isUnique polygon (fst ie) (snd ie))
                  (indexed polygon)).

(** Lines 126-128: the fan around [point]. *)
Definition fan (point : Point F) (es : list (Edge F))
    : list (Triangle F) :=
  map (fun e => mkTriangle (p1 e) (p2 e) point) es.

(** Lines 86-128: the body of the insertion loop, on the triangle list. *)
Definition insertPoint (point : Point F) (ts : list (Triangle F))
    : list (Triangle F) :=
  let found := findBad point ts in
  let badTriangles := fst found in
  let polygon := snd found in
  removeBad badTriangles ts ++ fan point (uniqueEdges polygon).

Definition insertBody (point : Point F) (s : frame F) : frame F :=
  set_triangles (insertPoint point (triangles s)) s.

(** Lines 132-137: the predicate of the final [remove_if]. *)
Definition touchesSuper (super t : Triangle F) : bool :=
  Point_eqb (a t) (a super) || Point_eqb (b t) (a super)
  || Point_eqb (c t) (a super)
  || Point_eqb (a t) (b super) || Point_eqb (b t) (b super)
  || Point_eqb (c t) (b super)
  || Point_eqb (a t) (c super) || Point_eqb (b t) (c super)
  || Point_eqb (c t) (c super).

Definition prune (super : Triangle F) (ts : list (Triangle F))
    : list (Triangle F) :=
  filter (fun t => negb (touchesSuper super t)) ts.

(** The frame after the bounding-box loop, when [points[0]] exists. *)
Definition bounded_frame (pts : list (Point F)) : outcome (frame F) :=
  match nth_error pts 0 with
  | None => Undefined (OutOfBoundsRead 0 (length pts))
  | Some p0 =>
      Returned
        (range_for_points boundsBody
           (mkFrame pts [] (x p0) (y p0) (x p0) (y p0)))
  end.

(** The whole call.  It returns the triangle list and, as the vector is
    passed by non-const reference, what [points] holds at the end. *)
Definition delaunayTriangulation_run (pts : list (Point F))
    : outcome (list (Triangle F) * list (Point F)) :=
  match bounded_frame pts with
  | Undefined u => Undefined u
  | Returned s1 =>
      let superTriangle := superTriangle_of s1 in
      let s2 := set_triangles (triangles s1 ++ [superTriangle]) s1 in
      let s3 := range_for_points insertBody s2 in
      let s4 := set_triangles (prune superTriangle (triangles s3)) s3 in
      Returned (triangles s4, points s4)
  end.

Definition delaunayTriangulation (pts : list (Point F))
    : outcome (list (Triangle F)) :=
  match delaunayTriangulation_run pts with
  | Undefined u => Undefined u
  | Returned r => Returned (fst r)
  end.

(** The insertion loop on the triangle list alone. *)
Definition insertAll (pts : list (Point F)) (ts : list (Triangle F))
    : list (Triangle F) :=
  fold_left (fun ts point => insertPoint point ts) pts ts.

Definition superTriangle (pts : list (Point F)) : outcome (Triangle F) :=
  match bounded_frame pts with
  | Undefined u => Undefined u
  | Returned s1 => Returned (superTriangle_of s1)
  end.

End Engine.

(** ** Vocabulary of the properties *)

Section Vocabulary.

Context {F : Type} {SF : Scalar F}.
Local Open Scope scalar_scope.

(** The value of [det] in [inCircumcircle]. *)
Definition circumDet (p : Point F) (t : Triangle F) : F :=
  let ax := x (a t) - x p in
  let ay := y (a t) - y p in
  let bx := x (b t) - x p in
  let by_ := y (b t) - y p in
  let cx := x (c t) - x p in
  let cy := y (c t) - y p in
  (ax * ax + ay * ay) * (bx * cy - cx * by_) -
  (bx * bx + by_ * by_) * (ax * cy - cx * ay) +
  (cx * cx + cy * cy) * (ax * by_ - bx * ay).

(** The determinant in the words of the specification:
    [|A|^2 (B x C) - |B|^2 (A x C) + |C|^2 (A x B)] on the coordinates
    translated by [- P], with the squared norm and the 2D cross product. *)
Definition translate (p v : Point F) : Point F :=
  mkPoint (x v - x p) (y v - y p).
Definition norm2 (u : Point F) : F := x u * x u + y u * y u.
Definition cross2 (u v : Point F) : F := x u * y v - y u * x v.

Definition det_spec (p : Point F) (t : Triangle F) : F :=
  let A := translate p (a t) in
  let B := translate p (b t) in
  let C := translate p (c t) in
  norm2 A * cross2 B C - norm2 B * cross2 A C + norm2 C * cross2 A B.

(** The triangles the scan of one insertion flags as bad. *)
Definition flagged (point : Point F) (ts : list (Triangle F))
    : list (Triangle F) :=
  filter (inCircumcircle point) ts.

(** How many entries of the working edge list equal [e]. *)
Definition countEq (e : Edge F) (polygon : list (Edge F)) : nat :=
  length (filter (Edge_eqb e) polygon).

Definition vertices (t : Triangle F) : list (Point F) := [a t; b t; c t].

(** [p] is in the closed triangle [t], for [t] counter-clockwise: it is
    on the left of, or on, each of the three directed sides. *)
Definition orient2d (u v p : Point F) : F :=
  (x v - x u) * (y p - y u) - (x p - x u) * (y v - y u).

Definition inTriangle (p : Point F) (t : Triangle F) : bool :=
  (lit_0 <=? orient2d (a t) (b t) p)
  && (lit_0 <=? orient2d (b t) (c t) p)
  && (lit_0 <=? orient2d (c t) (a t) p).

End Vocabulary.

(** Equal, or two zeros of any signs: what [==] on [double] sees of two
    numbers that are not NaN. *)
Definition sf_same (u v : spec_float) : Prop :=
  match u, v with
  | S754_zero _, S754_zero _ => True
  | _, _ => u = v
  end.

(** The invariant of the insertion loop on [double]: a triangle of the
    list is the super triangle itself, or its vertices are equal to
    themselves and are input points or corners of the super triangle. *)
Definition sound_triangle (pts : list (Point float)) (super t : Triangle float)
    : Prop :=
  t = super
  \/ forall v, In v (vertices t) ->
        Point_eqb v v = true /\ (In v pts \/ In v (vertices super)).

(** A [double] that is not NaN, and one that is neither NaN nor infinite. *)
Definition notNaN (f : float) : Prop := Prim2SF f <> S754_nan.

Definition finitePoint (p : Point float) : Prop :=
  is_finite (x p) = true /\ is_finite (y p) = true.

(** The input of Scenario A, the triangle it yields and its super
    triangle. *)
Definition scenarioA : list (Point float) :=
  [mkPoint 0 0; mkPoint 1 0; mkPoint 0 1]%float.

Definition triangleA : Triangle float :=
  (mkTriangle (mkPoint 0 0) (mkPoint 1 0) (mkPoint 0 1))%float.

Definition superA : Triangle float :=
  (mkTriangle (mkPoint (-19.5) (-0.5)) (mkPoint 20.5 (-0.5))
              (mkPoint 0.5 20.5))%float.

(** ** The order of [double]

    A key for each [double] that is not NaN, such that [<] and [==] on
    doubles are the lexicographic order and the equality of the keys.  The
    two zeros have the same key. *)
Definition sf_key (u : spec_float) : Z * Z * Z :=
  match u with
  | S754_nan => (0, 0, 0)%Z
  | S754_zero _ => (0, 0, 0)%Z
  | S754_infinity true => (-2, 0, 0)%Z
  | S754_infinity false => (2, 0, 0)%Z
  | S754_finite false m e => (1, e, Zpos m)%Z
  | S754_finite true m e => (-1, - e, Zneg m)%Z
  end.

Definition lex_lt (k k' : Z * Z * Z) : Prop :=
  let '(s, e, m) := k in
  let '(s', e', m') := k' in
  (s < s' \/ (s = s' /\ (e < e' \/ (e = e' /\ m < m'))))%Z.

Definition lex_eq (k k' : Z * Z * Z) : Prop :=
  let '(s, e, m) := k in
  let '(s', e', m') := k' in
  (s = s' /\ e = e' /\ m = m')%Z.

Definition fkey (f : float) : Z * Z * Z := sf_key (Prim2SF f).

(** Zero of either sign, or NaN: never above a positive threshold. *)
Definition sf_zn (u : spec_float) : Prop :=
  match u with
  | S754_zero _ | S754_nan => True
  | _ => False
  end.

(** On [double]: [sf_same] and [sf_zn] of the values. *)
Definition same (u v : float) : Prop := sf_same (Prim2SF u) (Prim2SF v).
Definition zn (u : float) : Prop := sf_zn (Prim2SF u).

(** A point none of whose coordinates is NaN. *)
Definition pointNotNaN (p : Point float) : Prop :=
  notNaN (x p) /\ notNaN (y p).

(** Neither point is before the other by [Point::operator<]. *)
Definition Point_equiv {F : Type} {SF : Scalar F} (p q : Point F) : bool :=
  negb (Point_ltb p q) && negb (Point_ltb q p).

(** No two vertices of the triangle are [==]. *)
Definition distinct3 (t : Triangle float) : Prop :=
  Point_eqb (a t) (b t) = false /\ Point_eqb (b t) (c t) = false
  /\ Point_eqb (c t) (a t) = false.

(** ** [exportToVTK] *)

(** What [exportToVTK] can run into that the C++ standard leaves
    undefined: an element access outside a vector, and [pointIndex++] at
    [INT_MAX]. *)
Inductive export_undefined : Type :=
| ElementOutOfBounds (index : Z) (size : nat)
| SignedOverflow.

Inductive attempt (A : Type) : Type :=
| Done (v : A)
| Stuck (u : export_undefined).

Arguments Done {A} v.
Arguments Stuck {A} u.

(** [int] has 32 bits on the platforms the program is built for. *)
Definition INT_MAX : Z := 2147483647.

(** What is inserted into a stream: a string literal, a [size_t], an
    [int], a [double], [std::endl].  The characters that the insertion of
    a number produces are not modelled. *)
Inductive token (F : Type) : Type :=
| Text (s : string)
| Count (n : nat)
| Index (i : Z)
| Real (d : F)
| Endl.

Arguments Text {F} s.
Arguments Count {F} n.
Arguments Index {F} i.
Arguments Real {F} d.
Arguments Endl {F}.

(** The three streams [exportToVTK] writes to; [vtkFile] is [None] when
    the file could not be opened. *)
Record streams (F : Type) : Type := mkStreams {
  vtkFile : option (list (token F));
  cout : list (token F);
  cerr : list (token F)
}.

Arguments mkStreams {F} vtkFile cout cerr.
Arguments vtkFile {F} s.
Arguments cout {F} s.
Arguments cerr {F} s.

Definition nl : string := String (ascii_of_nat 10) EmptyString.

Section VtkExport.

Context {F : Type} {SF : Scalar F}.

(** [std::map<Point, int>] ordered by [Point::operator<]: the entries in
    the order of the keys.  Two keys are the same key when neither is
    before the other.  This is what the standard gives for keys on which
    [operator<] is a strict weak ordering, those without NaN. *)
Definition pointMapT : Type := list (Point F * Z).

Fixpoint map_find (m : pointMapT) (k : Point F) : option Z :=
  match m with
  | [] => None
  | (k', v) :: m' => if Point_equiv k k' then Some v else map_find m' k
  end.

Fixpoint map_insert (m : pointMapT) (k : Point F) (v : Z) : pointMapT :=
  match m with
  | [] => [(k, v)]
  | (k', v') :: m' =>
      if Point_ltb k k' then (k, v) :: m
      else (k', v') :: map_insert m' k v
  end.

Fixpoint map_replace (m : pointMapT) (k : Point F) (v : Z) : pointMapT :=
  match m with
  | [] => []
  | (k', v') :: m' =>
      if Point_equiv k k' then (k', v) :: m'
      else (k', v') :: map_replace m' k v
  end.

(** [pointMap[k] = v] *)
Definition map_assign (m : pointMapT) (k : Point F) (v : Z) : pointMapT :=
  match map_find m k with
  | Some _ => map_replace m k v
  | None => map_insert m k v
  end.

(** [pointMap[k]] read: the value, and the map, which gets the entry
    [(k, 0)] when the key is not there. *)
Definition map_index (m : pointMapT) (k : Point F) : Z * pointMapT :=
  match map_find m k with
  | Some v => (v, m)
  | None => (0%Z, map_insert m k 0%Z)
  end.

(** Lines 159-161: one vertex of the first loop. *)
Definition addPoint (k : Point F) (st : pointMapT * Z)
    : attempt (pointMapT * Z) :=
  let (pointMap, pointIndex) := st in
  match map_find pointMap k with
  | Some _ => Done st
  | None =>
      if (pointIndex <? INT_MAX)%Z
      then Done (map_assign pointMap k pointIndex, (pointIndex + 1)%Z)
      else Stuck SignedOverflow
  end.

Definition andThen {A B : Type} (r : attempt A) (f : A -> attempt B)
    : attempt B :=
  match r with
  | Done v => f v
  | Stuck u => Stuck u
  end.

(** Lines 158-162. *)
Definition collectBody (tri : Triangle F) (st : pointMapT * Z)
    : attempt (pointMapT * Z) :=
  andThen (addPoint (a tri) st) (fun st =>
  andThen (addPoint (b tri) st) (fun st =>
  addPoint (c tri) st)).

Definition collectPoints (ts : list (Triangle F))
    : attempt (pointMapT * Z) :=
  fold_left (fun r tri => andThen r (collectBody tri)) ts (Done ([], 0%Z)).

(** [uniquePoints[i] = p] *)
Fixpoint replace_nth (l : list (Point F)) (i : nat) (p : Point F)
    : list (Point F) :=
  match l, i with
  | [], _ => []
  | _ :: l', O => p :: l'
  | q :: l', S i' => q :: replace_nth l' i' p
  end.

Definition vector_set (l : list (Point F)) (i : Z) (p : Point F)
    : attempt (list (Point F)) :=
  if ((0 <=? i) && (i <? Z.of_nat (length l)))%Z
  then Done (replace_nth l (Z.to_nat i) p)
  else Stuck (ElementOutOfBounds i (length l)).

(** Lines 166-169: the vector of [pointMap.size()] points [(0, 0)], then
    one write for each entry of the map, in the order of the keys. *)
Definition fillUniquePoints (pointMap : pointMapT)
    : attempt (list (Point F)) :=
  fold_left
    (fun r pair => andThen r (fun u => vector_set u (snd pair) (fst pair)))
    pointMap
    (Done (repeat (mkPoint lit_0 lit_0) (length pointMap))).

(** Lines 170-172. *)
Definition pointLine (p : Point F) : list (token F) :=
  [Real (x p); Text " "; Real (y p); Text (" 0.0" ++ nl)%string].

(** Lines 176-178: one cell; the three reads of the map, left to right. *)
Definition cellLine (tri : Triangle F) (m : pointMapT)
    : list (token F) * pointMapT :=
  let (ia, m1) := map_index m (a tri) in
  let (ib, m2) := map_index m1 (b tri) in
  let (ic, m3) := map_index m2 (c tri) in
  ([Text "3 "; Index ia; Text " "; Index ib; Text " "; Index ic; Text nl],
   m3).

Definition writeCells (ts : list (Triangle F)) (m : pointMapT)
    : list (token F) * pointMapT :=
  fold_left
    (fun acc tri =>
       let (line, m') := cellLine tri (snd acc) in (fst acc ++ line, m'))
    ts ([], m).

Definition vtkHeader : list (token F) :=
  [Text ("# vtk DataFile Version 3.0" ++ nl)%string;
   Text ("Delaunay Triangulation" ++ nl)%string;
   Text ("ASCII" ++ nl)%string;
   Text ("DATASET UNSTRUCTURED_GRID" ++ nl)%string].

(** The whole of [exportToVTK]; [opens] tells whether the file could be
    opened.  Writes to an open file are taken to succeed.  The product
    [triangles.size() * 4] is one of [size_t]; it does not wrap, a vector
    of triangles of 48 bytes having fewer than [2^62] elements. *)
Definition exportToVTK (opens : bool) (ts : list (Triangle F))
    (filename : string) : attempt (streams F) :=
  if negb opens
  then Done (mkStreams None []
               [Text "Error: Could not open file "; Text filename; Endl])
  else
    andThen (collectPoints ts) (fun collected =>
    let pointMap := fst collected in
    andThen (fillUniquePoints pointMap) (fun uniquePoints =>
    let cells := writeCells ts pointMap in
    Done (mkStreams
            (Some (vtkHeader
                   ++ [Text "POINTS "; Count (length pointMap);
                       Text (" float" ++ nl)%string]
                   ++ flat_map pointLine uniquePoints
                   ++ [Text "CELLS "; Count (length ts); Text " ";
                       Count (length ts * 4); Text nl]
                   ++ fst cells
                   ++ [Text "CELL_TYPES "; Count (length ts); Text nl]
                   ++ flat_map (fun _ => [Text ("5" ++ nl)%string]) ts))
            [Text "Exported to "; Text filename; Endl]
            []))).

End VtkExport.

(** ** What the export computes *)

Section ExportVocabulary.

Context {F : Type} {SF : Scalar F}.

(** The points of a list in the order of their first occurrence, a point
    [==] to an earlier one being left out. *)
Definition addFirst (d : list (Point F)) (v : Point F) : list (Point F) :=
  if existsb (Point_eqb v) d then d else d ++ [v].

Definition firstPoints (vs : list (Point F)) : list (Point F) :=
  fold_left addFirst vs [].

(** The position of the first point of [d] that is [==] to [v]. *)
Fixpoint indexOf (d : list (Point F)) (v : Point F) : option nat :=
  match d with
  | [] => None
  | q :: d' =>
      if Point_eqb v q then Some O else option_map S (indexOf d' v)
  end.

Definition indexZ (d : list (Point F)) (v : Point F) : Z :=
  match indexOf d v with
  | Some i => Z.of_nat i
  | None => 0%Z
  end.

(** The entries of the map for the table [d]: point [i] with value [i]. *)
Definition entries (d : list (Point F)) : list (Point F * Z) :=
  map (fun iq => (snd iq, Z.of_nat (fst iq))) (indexed d).

Definition cellTokens (d : list (Point F)) (tri : Triangle F)
    : list (token F) :=
  [Text "3 "; Index (indexZ d (a tri)); Text " ";
   Index (indexZ d (b tri)); Text " "; Index (indexZ d (c tri)); Text nl].

(** The file for the point table [d] and the triangles [ts]. *)
Definition vtkTokens (d : list (Point F)) (ts : list (Triangle F))
    : list (token F) :=
  vtkHeader
  ++ [Text "POINTS "; Count (length d); Text (" float" ++ nl)%string]
  ++ flat_map pointLine d
  ++ [Text "CELLS "; Count (length ts); Text " "; Count (length ts * 4);
      Text nl]
  ++ flat_map (cellTokens d) ts
  ++ [Text "CELL_TYPES "; Count (length ts); Text nl]
  ++ flat_map (fun _ => [Text ("5" ++ nl)%string]) ts.

End ExportVocabulary.

(** A table of points without NaN, no two of them [==]. *)
Definition goodTable (d : list (Point float)) : Prop :=
  (forall q, In q d -> pointNotNaN q)
  /\ forall i j q q',
       nth_error d i = Some q -> nth_error d j = Some q' ->
       Point_eqb q q' = true -> i = j.

(** Two triangles on the unit square, for the examples of the export. *)
Definition squareCells : list (Triangle float) :=
  [mkTriangle (mkPoint 0 0) (mkPoint 1 0) (mkPoint 0 1);
   mkTriangle (mkPoint 1 0) (mkPoint 1 1) (mkPoint 0 1)]%float.

Definition squarePoints : list (Point float) :=
  [mkPoint 0 0; mkPoint 1 0; mkPoint 0 1; mkPoint 1 1]%float.

(** ** Rounding on [double]

    Definitions for the statements on what rounding keeps: bounds by a
    power of two, and integer values. *)

(** The sticky information of a shift record: some bit was shifted out. *)
Definition inexact (mrs : shr_record) : bool := shr_r mrs || shr_s mrs.

(** A [double] of magnitude at most [2^K]: a zero, or [m * 2^e] with
    [m <= 2^(K - e)]. *)
Definition Bnd (K : Z) (f : spec_float) : Prop :=
  match f with
  | S754_zero _ => True
  | S754_finite _ m e => (e <= K /\ Zpos m <= 2 ^ (K - e))%Z
  | _ => False
  end.

(** The upper end of the interval that a mantissa and a location stand
    for. *)
Definition upper (m : Z) (l : location) : Z :=
  match l with
  | loc_Exact => m
  | loc_Inexact _ => (m + 1)%Z
  end.

(** The [double] 2.0. *)
Definition SFtwo : spec_float := S754_finite false 4503599627370496 (-51).

(** A [double] of magnitude at most [2^K]. *)
Definition bnd (K : Z) (f : float) : Prop := Bnd K (Prim2SF f).

(** A point whose coordinates have magnitude at most [2^K]. *)
Definition pointBnd (K : Z) (p : Point float) : Prop :=
  bnd K (x p) /\ bnd K (y p).

(** [m * 2^e] is the integer [n]. *)
Definition valZ (m e n : Z) : Prop :=
  ((0 <= e /\ n = m * 2 ^ e) \/ (e < 0 /\ m = n * 2 ^ (- e)))%Z.

(** The [double] is the integer [n]. *)
Definition SFint (f : spec_float) (n : Z) : Prop :=
  match f with
  | S754_zero _ => n = 0%Z
  | S754_finite s m e => valZ (cond_Zopp s (Zpos m)) e n
  | _ => False
  end.

(** The [double] is the integer [n], of magnitude at most [2^K]. *)
Definition isInt (K : Z) (f : float) (n : Z) : Prop :=
  SFint (Prim2SF f) n /\ (Z.abs n <= 2 ^ K)%Z.

(** The determinant of [inCircumcircle] on integers. *)
Definition detZ (px py ax ay bx by_ cx cy : Z) : Z :=
  (let ax := ax - px in
   let ay := ay - py in
   let bx := bx - px in
   let by_ := by_ - py in
   let cx := cx - px in
   let cy := cy - py in
   (ax * ax + ay * ay) * (bx * cy - cx * by_) -
   (bx * bx + by_ * by_) * (ax * cy - cx * ay) +
   (cx * cx + cy * cy) * (ax * by_ - bx * ay))%Z.

Section CircleVocabulary.
Context {F : Type} {SF : Scalar F}.
Local Open Scope scalar_scope.

(** The square of the distance of two points. *)
Definition dist2 (u v : Point F) : F :=
  (x u - x v) * (x u - x v) + (y u - y v) * (y u - y v).

End CircleVocabulary.

(** Points with integer coordinates of magnitude at most [2^11], as
    [double]s and as rationals. *)
Definition gridPoint (p : Point float) (z : Point Z) : Prop :=
  isInt 11 (x p) (x z) /\ isInt 11 (y p) (y z).

Definition gridTriangle (t : Triangle float) (z : Triangle Z) : Prop :=
  gridPoint (a t) (a z) /\ gridPoint (b t) (b z) /\ gridPoint (c t) (c z).

(** The [double] of an integer, as the conversion of the processor
    gives it, and the points and triangles of integers as [double]s. *)
Definition doubleOfZ (n : Z) : float :=
  if (n <? 0)%Z then PrimFloat.opp (of_uint63 (Uint63.of_Z (- n)))
  else of_uint63 (Uint63.of_Z n).

Definition pointOfZ (z : Point Z) : Point float :=
  mkPoint (doubleOfZ (x z)) (doubleOfZ (y z)).

Definition triangleOfZ (z : Triangle Z) : Triangle float :=
  mkTriangle (pointOfZ (a z)) (pointOfZ (b z)) (pointOfZ (c z)).

(** Integer points of magnitude at most [2^11]. *)
Definition smallPoint (z : Point Z) : Prop :=
  (Z.abs (x z) <= 2 ^ 11 /\ Z.abs (y z) <= 2 ^ 11)%Z.

Definition smallTriangle (z : Triangle Z) : Prop :=
  smallPoint (a z) /\ smallPoint (b z) /\ smallPoint (c z).

Definition pointQ (z : Point Z) : Point Q :=
  mkPoint (inject_Z (x z)) (inject_Z (y z)).

Definition triangleQ (z : Triangle Z) : Triangle Q :=
  mkTriangle (pointQ (a z)) (pointQ (b z)) (pointQ (c z)).

Definition detOf (p : Point Z) (t : Triangle Z) : Z :=
  detZ (x p) (y p) (x (a t)) (y (a t)) (x (b t)) (y (b t))
       (x (c t)) (y (c t)).

(** A triangle on the unit circle and the centre of the circle. *)
Definition unitTriangle : Triangle float :=
  (mkTriangle (mkPoint 1 0) (mkPoint 0 1) (mkPoint (-1) 0))%float.

Definition unitTriangleZ : Triangle Z :=
  (mkTriangle (mkPoint 1 0) (mkPoint 0 1) (mkPoint (-1) 0))%Z.

(** * Properties *)

(** ** The loops over [points] *)

Section Loops.

Context {F : Type} {SF : Scalar F}.

Lemma points_set_triangles (ts : list (Triangle F)) (s : frame F) :
  points (set_triangles ts s) = points s.
Proof. reflexivity. Qed.

Lemma points_boundsBody (p : Point F) (s : frame F) :
  points (boundsBody p s) = points s.
Proof. reflexivity. Qed.

Lemma points_insertBody (p : Point F) (s : frame F) :
  points (insertBody p s) = points s.
Proof. reflexivity. Qed.

Section Range.

Variable body : Point F -> frame F -> frame F.
Hypothesis body_frame : forall p s, points (body p s) = points s.

Lemma points_fold_body (l : list (Point F)) (s : frame F) :
  points (fold_left (fun s p => body p s) l s) = points s.
Proof.
  revert s; induction l as [|p l IH]; intros s; simpl; [reflexivity|].
  rewrite IH. apply body_frame.
Qed.

Lemma range_for_suffix (l pre : list (Point F)) (s : frame F) :
  points s = pre ++ l ->
  fold_left
    (fun s i => match nth_error (points s) i with
                | Some p => body p s
                | None => s
                end)
    (seq (length pre) (length l)) s
  = fold_left (fun s p => body p s) l s.
Proof.
  revert pre s; induction l as [|p l IH]; intros pre s Hs; simpl.
  - reflexivity.
  - rewrite Hs, nth_error_app2 by lia.
    rewrite Nat.sub_diag; simpl.
    replace (S (length pre)) with (length (pre ++ [p]))
      by (rewrite length_app; simpl; lia).
    apply IH. rewrite body_frame, Hs, <- app_assoc. reflexivity.
Qed.

Lemma range_for_points_fold (s : frame F) :
  range_for_points body s = fold_left (fun s p => body p s) (points s) s.
Proof.
  unfold range_for_points. apply (range_for_suffix (points s) [] s).
  reflexivity.
Qed.

Lemma points_range_for (s : frame F) :
  points (range_for_points body s) = points s.
Proof. rewrite range_for_points_fold. apply points_fold_body. Qed.

End Range.

Lemma triangles_fold_insertBody (l : list (Point F)) (s : frame F) :
  triangles (fold_left (fun s p => insertBody p s) l s)
  = insertAll l (triangles s).
Proof.
  revert s; induction l as [|p l IH]; intros s; simpl; [reflexivity|].
  rewrite IH. reflexivity.
Qed.

Lemma triangles_fold_boundsBody (l : list (Point F)) (s : frame F) :
  triangles (fold_left (fun s p => boundsBody p s) l s) = triangles s.
Proof.
  revert s; induction l as [|p l IH]; intros s; simpl; [reflexivity|].
  rewrite IH. reflexivity.
Qed.

(** The bounding-box loop leaves [points] and [triangles] alone. *)
Lemma bounded_frame_inv (pts : list (Point F)) (s1 : frame F) :
  bounded_frame pts = Returned s1 ->
  points s1 = pts /\ triangles s1 = [] /\ pts <> [].
Proof.
  unfold bounded_frame. destruct pts as [|p0 pts]; simpl; [discriminate|].
  intros H; injection H as <-.
  rewrite points_range_for by apply points_boundsBody.
  rewrite range_for_points_fold by apply points_boundsBody.
  rewrite triangles_fold_boundsBody. simpl. repeat split. discriminate.
Qed.

Lemma bounded_frame_nonempty (pts : list (Point F)) :
  pts <> [] -> exists s1, bounded_frame pts = Returned s1.
Proof.
  destruct pts as [|p0 pts]; [congruence|]. intros _.
  unfold bounded_frame; simpl. eexists; reflexivity.
Qed.

(** The call, read on the triangle list: seed, insert every point in
    input order, prune. *)
Lemma delaunayTriangulation_run_eq (pts : list (Point F)) (s1 : frame F) :
  bounded_frame pts = Returned s1 ->
  delaunayTriangulation_run pts
  = Returned (prune (superTriangle_of s1)
                    (insertAll pts [superTriangle_of s1]), pts).
Proof.
  intros Hb. destruct (bounded_frame_inv pts s1 Hb) as (Hp & Ht & _).
  unfold delaunayTriangulation_run. rewrite Hb. cbv zeta.
  rewrite Ht; simpl app.
  set (s2 := set_triangles _ s1).
  rewrite range_for_points_fold by apply points_insertBody.
  simpl. rewrite points_fold_body by apply points_insertBody.
  rewrite triangles_fold_insertBody. subst s2; simpl. rewrite Hp.
  reflexivity.
Qed.

Lemma delaunayTriangulation_eq (pts : list (Point F)) (s1 : frame F) :
  bounded_frame pts = Returned s1 ->
  delaunayTriangulation pts
  = Returned (prune (superTriangle_of s1)
                    (insertAll pts [superTriangle_of s1])).
Proof.
  intros Hb. unfold delaunayTriangulation.
  rewrite (delaunayTriangulation_run_eq pts s1 Hb). reflexivity.
Qed.

End Loops.

(** ** One insertion, as operations on lists *)

Section Insertion.

Context {F : Type} {SF : Scalar F}.

Lemma findBad_acc (point : Point F) (ts bad0 : list (Triangle F))
    (poly0 : list (Edge F)) :
  fold_left
    (fun acc t =>
       if inCircumcircle point t
       then (fst acc ++ [t], snd acc ++ edgesOf t)
       else acc)
    ts (bad0, poly0)
  = (bad0 ++ flagged point ts,
     poly0 ++ flat_map edgesOf (flagged point ts)).
Proof.
  revert bad0 poly0; induction ts as [|t ts IH]; intros bad0 poly0.
  - simpl. now rewrite !app_nil_r.
  - unfold flagged in *. cbn [fold_left filter].
    destruct (inCircumcircle point t); cbn [fst snd].
    + rewrite IH. cbn [flat_map]. now rewrite <- !app_assoc.
    + apply IH.
Qed.

Lemma findBad_eq (point : Point F) (ts : list (Triangle F)) :
  findBad point ts
  = (flagged point ts, flat_map edgesOf (flagged point ts)).
Proof. unfold findBad. now rewrite findBad_acc. Qed.

Lemma In_flagged (point : Point F) (ts : list (Triangle F))
    (t : Triangle F) :
  In t (fst (findBad point ts))
  <-> In t ts /\ inCircumcircle point t = true.
Proof. rewrite findBad_eq. apply filter_In. Qed.

Lemma sameSlots_true (t bad : Triangle F) :
  sameSlots t bad = true
  <-> Point_eqb (a t) (a bad) = true /\ Point_eqb (b t) (b bad) = true
      /\ Point_eqb (c t) (c bad) = true.
Proof. unfold sameSlots. rewrite !andb_true_iff. tauto. Qed.

Lemma isBad_true (badTriangles : list (Triangle F)) (t : Triangle F) :
  isBad badTriangles t = true
  <-> exists bad, In bad badTriangles /\ sameSlots t bad = true.
Proof. apply existsb_exists. Qed.

Lemma In_removeBad (badTriangles ts : list (Triangle F))
    (t : Triangle F) :
  In t (removeBad badTriangles ts)
  <-> In t ts /\ isBad badTriangles t = false.
Proof.
  unfold removeBad. rewrite filter_In, negb_true_iff. reflexivity.
Qed.

Lemma removeBad_nil (ts : list (Triangle F)) : removeBad [] ts = ts.
Proof.
  unfold removeBad; simpl. induction ts as [|t ts IH]; simpl; congruence.
Qed.

Lemma flagged_nil (point : Point F) (ts : list (Triangle F)) :
  (forall t, In t ts -> inCircumcircle point t = false) ->
  flagged point ts = [].
Proof.
  unfold flagged. induction ts as [|t ts IH]; intros H; simpl.
  - reflexivity.
  - rewrite (H t) by now left. apply IH. intros u Hu. apply H. now right.
Qed.

Lemma insertPoint_eq (point : Point F) (ts : list (Triangle F)) :
  insertPoint point ts
  = removeBad (flagged point ts) ts
    ++ fan point (uniqueEdges (flat_map edgesOf (flagged point ts))).
Proof. unfold insertPoint. now rewrite findBad_eq. Qed.

End Insertion.

(** ** The unique edges of the polygonal hole *)

Section UniqueEdges.

Context {F : Type} {SF : Scalar F}.

Lemma existsb_false_iff {A : Type} (f : A -> bool) (l : list A) :
  existsb f l = false <-> forall u, In u l -> f u = false.
Proof.
  induction l as [|v l IH]; simpl.
  - split; [intros _ u []|reflexivity].
  - rewrite orb_false_iff, IH. split.
    + intros [Hv Hl] u [<-|Hu]; auto.
    + intros H; split; [apply H; now left|intros u Hu; apply H; now right].
Qed.

Lemma filter_length_0 {A : Type} (f : A -> bool) (l : list A) :
  length (filter f l) = 0 <-> existsb f l = false.
Proof.
  induction l as [|v l IH]; simpl; [tauto|].
  destruct (f v); simpl; [split; discriminate|exact IH].
Qed.

Lemma In_combine_seq {A : Type} (l : list A) (s i : nat) (u : A) :
  In (i, u) (combine (seq s (length l)) l)
  <-> s <= i /\ nth_error l (i - s) = Some u.
Proof.
  revert s; induction l as [|v l IH]; intros s; simpl.
  - split; [intros []|]. intros [_ H]. destruct (i - s); discriminate.
  - rewrite IH. split.
    + intros [H|[Hle H]].
      * injection H as <- <-. rewrite Nat.sub_diag. split; [lia|reflexivity].
      * split; [lia|]. replace (i - s) with (S (i - S s)) by lia. exact H.
    + intros [Hle H]. destruct (i - s) as [|k] eqn:Hk.
      * left. injection H as <-. f_equal. lia.
      * right. split; [lia|]. replace (i - S s) with k by lia. exact H.
Qed.

Lemma In_indexed {A : Type} (l : list A) (i : nat) (u : A) :
  In (i, u) (indexed l) <-> nth_error l i = Some u.
Proof.
  unfold indexed. rewrite In_combine_seq, Nat.sub_0_r.
  split; [tauto|split; [lia|assumption]].
Qed.

(** A position is kept exactly when no other position of the whole list,
    before or after it, holds an equal edge. *)
Lemma isUnique_true (polygon : list (Edge F)) (i : nat) (e : Edge F) :
  isUnique polygon i e = true
  <-> forall j o, j <> i -> nth_error polygon j = Some o ->
                  Edge_eqb e o = false.
Proof.
  unfold isUnique. rewrite negb_true_iff, existsb_false_iff. split.
  - intros H j o Hj Ho. specialize (H (j, o)). simpl in H.
    rewrite In_indexed in H. specialize (H Ho).
    apply andb_false_iff in H. destruct H as [H|H]; [|exact H].
    apply negb_false_iff, Nat.eqb_eq in H. congruence.
  - intros H [j o] Hin. simpl. apply In_indexed in Hin.
    destruct (Nat.eqb_spec i j) as [->|Hne]; [reflexivity|].
    simpl. apply (H j o); congruence.
Qed.

Lemma In_uniqueEdges (polygon : list (Edge F)) (e : Edge F) :
  In e (uniqueEdges polygon)
  <-> exists i, nth_error polygon i = Some e
                /\ isUnique polygon i e = true.
Proof.
  unfold uniqueEdges. rewrite in_map_iff. split.
  - intros ([i o] & Ho & Hin). simpl in Ho; subst o.
    apply filter_In in Hin. destruct Hin as [Hin Hu]. simpl in Hu.
    exists i. now rewrite <- In_indexed.
  - intros (i & Hi & Hu). exists (i, e). split; [reflexivity|].
    apply filter_In. split; [now apply In_indexed|exact Hu].
Qed.

Lemma uniqueEdges_incl (polygon : list (Edge F)) (e : Edge F) :
  In e (uniqueEdges polygon) -> In e polygon.
Proof.
  rewrite In_uniqueEdges. intros (i & Hi & _).
  eapply nth_error_In; eassumption.
Qed.

Lemma isUnique_split (l1 l2 : list (Edge F)) (e : Edge F) :
  isUnique (l1 ++ e :: l2) (length l1) e = true
  <-> existsb (Edge_eqb e) l1 = false /\ existsb (Edge_eqb e) l2 = false.
Proof.
  rewrite isUnique_true, !existsb_false_iff. split.
  - intros H; split; intros o Ho.
    + destruct (In_nth_error _ _ Ho) as (j & Hj).
      assert (j < length l1) by (apply nth_error_Some; congruence).
      apply (H j); [lia|]. now rewrite nth_error_app1.
    + destruct (In_nth_error _ _ Ho) as (j & Hj).
      apply (H (length l1 + S j)); [lia|].
      rewrite nth_error_app2 by lia.
      replace (length l1 + S j - length l1) with (S j) by lia. exact Hj.
  - intros [H1 H2] j o Hj Ho.
    destruct (Nat.lt_ge_cases j (length l1)) as [Hlt|Hge].
    + rewrite nth_error_app1 in Ho by exact Hlt.
      apply H1. eapply nth_error_In; eassumption.
    + rewrite nth_error_app2 in Ho by exact Hge.
      destruct (j - length l1) as [|k] eqn:Hk; [lia|]. simpl in Ho.
      apply H2. eapply nth_error_In; eassumption.
Qed.

Lemma countEq_split (l1 l2 : list (Edge F)) (e : Edge F) :
  Edge_eqb e e = true ->
  countEq e (l1 ++ e :: l2)
  = length (filter (Edge_eqb e) l1) + 1 + length (filter (Edge_eqb e) l2).
Proof.
  intros He. unfold countEq. rewrite filter_app, length_app. simpl.
  rewrite He. simpl. lia.
Qed.

(** For an edge that is equal to itself: it is among the unique edges
    exactly when one entry of the list, and no more, equals it. *)
Lemma uniqueEdges_countEq (polygon : list (Edge F)) (e : Edge F) :
  Edge_eqb e e = true ->
  In e polygon ->
  (In e (uniqueEdges polygon) <-> countEq e polygon = 1).
Proof.
  intros He Hin. rewrite In_uniqueEdges. split.
  - intros (i & Hi & Hu).
    destruct (nth_error_split _ _ Hi) as (l1 & l2 & -> & <-).
    apply isUnique_split in Hu. destruct Hu as [H1 H2].
    rewrite countEq_split by exact He.
    apply filter_length_0 in H1, H2. lia.
  - intros Hc. destruct (in_split _ _ Hin) as (l1 & l2 & ->).
    rewrite countEq_split in Hc by exact He.
    exists (length l1). split.
    + rewrite nth_error_app2 by lia. now rewrite Nat.sub_diag.
    + apply isUnique_split. rewrite <- !filter_length_0. lia.
Qed.

(** [Edge::operator==] ignores the direction of either edge. *)
Lemma Edge_eqb_true (e o : Edge F) :
  Edge_eqb e o = true
  <-> (Point_eqb (p1 e) (p1 o) = true /\ Point_eqb (p2 e) (p2 o) = true)
      \/ (Point_eqb (p1 e) (p2 o) = true /\ Point_eqb (p2 e) (p1 o) = true).
Proof.
  unfold Edge_eqb. rewrite orb_true_iff, !andb_true_iff. reflexivity.
Qed.

Lemma Edge_eqb_reverse_r (e o : Edge F) :
  Edge_eqb e (mkEdge (p2 o) (p1 o)) = Edge_eqb e o.
Proof. unfold Edge_eqb; simpl. apply orb_comm. Qed.

Lemma Edge_eqb_reverse_l (e o : Edge F) :
  Edge_eqb (mkEdge (p2 e) (p1 e)) o = Edge_eqb e o.
Proof.
  unfold Edge_eqb; simpl.
  rewrite orb_comm.
  rewrite (andb_comm (Point_eqb (p2 e) (p1 o))).
  rewrite (andb_comm (Point_eqb (p2 e) (p2 o))). reflexivity.
Qed.

End UniqueEdges.

(** ** Facts on the specification of binary floating-point arithmetic

    [SpecFloat] gives the arithmetic of the primitive numbers as functions
    on [spec_float].  The facts needed below are: where NaN comes from,
    and how the operations behave under a change of sign. *)

Section SpecFloatFacts.

Variables prec emax : Z.
Local Open Scope Z_scope.

Lemma sf_same_refl (u : spec_float) : sf_same u u.
Proof. destruct u; simpl; auto. Qed.

Lemma sf_same_trans (u v w : spec_float) :
  sf_same u v -> sf_same v w -> sf_same u w.
Proof.
  destruct u, v, w; simpl; intros H1 H2; auto; congruence.
Qed.

Lemma sf_same_opp (u v : spec_float) :
  sf_same u v -> sf_same (SFopp u) (SFopp v).
Proof.
  destruct u, v; simpl; intros H; auto; try discriminate; congruence.
Qed.

Lemma iter_pos_inv {A : Type} (f : A -> A) (P : A -> Prop) :
  (forall u, P u -> P (f u)) ->
  forall n u, P u -> P (SpecFloat.iter_pos f n u).
Proof.
  intros Hf. induction n as [n IH|n IH|]; intros u Hu; simpl; auto.
Qed.

Lemma shr_1_nonneg (mrs : shr_record) :
  0 <= shr_m mrs -> 0 <= shr_m (shr_1 mrs).
Proof.
  destruct mrs as [m r s]; simpl.
  destruct m as [|[q|q|]|[q|q|]]; simpl; lia.
Qed.

Lemma shr_nonneg (mrs : shr_record) (e n : Z) :
  0 <= shr_m mrs -> 0 <= shr_m (fst (shr mrs e n)).
Proof.
  intros H. unfold shr. destruct n; simpl; auto.
  apply iter_pos_inv; auto using shr_1_nonneg.
Qed.

Lemma shr_fexp_nonneg (m e : Z) (l : location) :
  0 <= m -> 0 <= shr_m (fst (shr_fexp prec emax m e l)).
Proof.
  intros H. unfold shr_fexp. apply shr_nonneg.
  destruct l as [|[]]; simpl; exact H.
Qed.

Lemma round_nearest_even_nonneg (m : Z) (l : location) :
  0 <= m -> 0 <= round_nearest_even m l.
Proof.
  intros H. unfold round_nearest_even.
  destruct l as [|[]]; try destruct (Z.even m); lia.
Qed.

Lemma binary_round_aux_not_nan (s : bool) (m e : Z) (l : location) :
  0 <= m -> binary_round_aux prec emax s m e l <> S754_nan.
Proof.
  intros H. unfold binary_round_aux.
  pose proof (shr_fexp_nonneg m e l H) as H1.
  destruct (shr_fexp prec emax m e l) as [mrs' e']. simpl in H1.
  pose proof (shr_fexp_nonneg
                (round_nearest_even (shr_m mrs') (loc_of_shr_record mrs'))
                e' loc_Exact
                (round_nearest_even_nonneg _ _ H1)) as H2.
  destruct (shr_fexp prec emax _ e' loc_Exact) as [mrs'' e'']. simpl in H2.
  destruct (shr_m mrs'') as [|q|q]; try discriminate; [|lia].
  destruct (e'' <=? emax - prec); discriminate.
Qed.

Lemma binary_round_not_nan (s : bool) (m : positive) (e : Z) :
  binary_round prec emax s m e <> S754_nan.
Proof.
  unfold binary_round. destruct (shl_align _ _ _) as [mz ez].
  apply binary_round_aux_not_nan. lia.
Qed.

Lemma binary_normalize_not_nan (m e : Z) (sz : bool) :
  binary_normalize prec emax m e sz <> S754_nan.
Proof.
  unfold binary_normalize.
  destruct m; try discriminate; apply binary_round_not_nan.
Qed.

(** Where the NaN of a sum, a difference, a product or a quotient comes
    from. *)
Lemma SFadd_nan (u v : spec_float) :
  SFadd prec emax u v = S754_nan ->
  u = S754_nan \/ v = S754_nan
  \/ exists s, u = S754_infinity s /\ v = S754_infinity (negb s).
Proof.
  destruct u as [su|su| |su mu eu], v as [sv|sv| |sv mv ev];
    simpl; auto; try discriminate;
    try (destruct su, sv; simpl; try discriminate; intros _; right; right;
         eexists; split; reflexivity).
  intros H. now apply binary_normalize_not_nan in H.
Qed.

Lemma SFsub_nan (u v : spec_float) :
  SFsub prec emax u v = S754_nan ->
  u = S754_nan \/ v = S754_nan
  \/ exists s, u = S754_infinity s /\ v = S754_infinity s.
Proof.
  destruct u as [su|su| |su mu eu], v as [sv|sv| |sv mv ev];
    simpl; auto; try discriminate;
    try (destruct su, sv; simpl; try discriminate; intros _; right; right;
         eexists; split; reflexivity).
  intros H. now apply binary_normalize_not_nan in H.
Qed.

Lemma SFmul_finite_l (s : bool) (m : positive) (e : Z) (v : spec_float) :
  match SFmul prec emax (S754_finite s m e) v with
  | S754_nan => v = S754_nan
  | S754_infinity r =>
      (exists sv, v = S754_infinity sv /\ r = xorb s sv)
      \/ exists sv mv ev, v = S754_finite sv mv ev
  | _ => v <> S754_nan /\ forall sv, v <> S754_infinity sv
  end.
Proof.
  destruct v as [sv|sv| |sv mv ev]; simpl; auto.
  - split; intros; discriminate.
  - left. eexists; split; reflexivity.
  - pose proof (binary_round_aux_not_nan (xorb s sv)
                  (Zpos (m * mv)) (e + ev) loc_Exact) as H.
    destruct (binary_round_aux _ _ _ _ _ _).
    + split; intros; discriminate.
    + right. do 3 eexists; reflexivity.
    + exfalso. apply H; [lia|reflexivity].
    + split; intros; discriminate.
Qed.

Lemma SFdiv_core_nonneg (m1 : positive) (e1 : Z) (m2 : positive) (e2 : Z) :
  0 <= fst (fst (SFdiv_core_binary prec emax (Zpos m1) e1 (Zpos m2) e2)).
Proof.
  unfold SFdiv_core_binary.
  set (s := (e1 - e2 - Z.min _ _)).
  set (m' := match s with Z0 => Zpos m1 | Zpos _ => Z.shiftl (Zpos m1) s
                     | Zneg _ => Z0 end).
  assert (Hm : 0 <= m').
  { subst m'. destruct s; try lia. apply Z.shiftl_nonneg. lia. }
  pose proof (Z_div_mod m' (Zpos m2) eq_refl) as H.
  destruct (Z.div_eucl m' (Zpos m2)) as [q r]. simpl.
  destruct H as [H1 H2]. nia.
Qed.

Lemma SFdiv_finite_r (u : spec_float) (s : bool) (m : positive) (e : Z) :
  SFdiv prec emax u (S754_finite s m e) = S754_nan -> u = S754_nan.
Proof.
  destruct u as [su|su| |su mu eu]; simpl; auto; try discriminate.
  pose proof (SFdiv_core_nonneg mu eu m e) as H.
  destruct (SFdiv_core_binary _ _ _ _ _ _) as [[mz ez] lz]. simpl in H.
  intros Hn. now apply binary_round_aux_not_nan in Hn.
Qed.

(** *** Change of sign *)

Lemma binary_round_aux_opp (s : bool) (m e : Z) (l : location) :
  binary_round_aux prec emax (negb s) m e l
  = SFopp (binary_round_aux prec emax s m e l).
Proof.
  unfold binary_round_aux.
  destruct (shr_fexp prec emax m e l) as [mrs' e'].
  destruct (shr_fexp prec emax _ e' loc_Exact) as [mrs'' e''].
  destruct (shr_m mrs''); try reflexivity.
  destruct (e'' <=? emax - prec); reflexivity.
Qed.

Lemma binary_round_opp (s : bool) (m : positive) (e : Z) :
  binary_round prec emax (negb s) m e
  = SFopp (binary_round prec emax s m e).
Proof.
  unfold binary_round. destruct (shl_align _ _ _) as [mz ez].
  apply binary_round_aux_opp.
Qed.

Lemma binary_normalize_opp (m e : Z) :
  sf_same (binary_normalize prec emax (- m) e false)
          (SFopp (binary_normalize prec emax m e false)).
Proof.
  destruct m as [|q|q]; simpl.
  - exact I.
  - rewrite <- binary_round_opp. apply sf_same_refl.
  - change false with (negb true) at 1. rewrite binary_round_opp.
    apply sf_same_refl.
Qed.

Lemma cond_Zopp_negb (s : bool) (m : Z) :
  cond_Zopp (negb s) m = - cond_Zopp s m.
Proof. destruct s; simpl; lia. Qed.

Lemma SFsub_antisym (u v : spec_float) :
  sf_same (SFsub prec emax v u) (SFopp (SFsub prec emax u v)).
Proof.
  destruct u as [su|su| |su mu eu], v as [sv|sv| |sv mv ev];
    try (simpl; auto; destruct su, sv; simpl; auto; fail).
  cbn [SFsub]. rewrite (Z.min_comm ev eu).
    set (p := cond_Zopp su _). set (q := cond_Zopp sv _).
    replace (q - p) with (- (p - q)) by lia.
    apply binary_normalize_opp.
Qed.

Lemma xorb_negb_r (s r : bool) : xorb s (negb r) = negb (xorb s r).
Proof. destruct s, r; reflexivity. Qed.

Lemma SFmul_opp_r (w z : spec_float) :
  SFmul prec emax w (SFopp z) = SFopp (SFmul prec emax w z).
Proof.
  destruct w as [sw|sw| |sw mw ew], z as [sz|sz| |sz mz ez];
    simpl; try reflexivity; try (now rewrite xorb_negb_r).
  rewrite xorb_negb_r. apply binary_round_aux_opp.
Qed.

Lemma SFmul_same_r (w z z' : spec_float) :
  sf_same z z' -> sf_same (SFmul prec emax w z) (SFmul prec emax w z').
Proof.
  intros H. destruct z, z'; simpl in H; try discriminate;
    try (inversion H; subst; apply sf_same_refl).
  destruct w; simpl; auto.
Qed.

Lemma SFmul_comm (u v : spec_float) :
  SFmul prec emax u v = SFmul prec emax v u.
Proof.
  destruct u as [su|su| |su mu eu], v as [sv|sv| |sv mv ev];
    simpl; try reflexivity; try (now rewrite xorb_comm).
  now rewrite xorb_comm, Pos.mul_comm, Z.add_comm.
Qed.

Lemma SFadd_opp (u v : spec_float) :
  sf_same (SFadd prec emax (SFopp u) (SFopp v))
          (SFopp (SFadd prec emax u v)).
Proof.
  destruct u as [su|su| |su mu eu], v as [sv|sv| |sv mv ev];
    try (simpl; auto; destruct su, sv; simpl; auto; fail).
  cbn [SFadd SFopp]. rewrite !cond_Zopp_negb.
  set (p := cond_Zopp su _). set (q := cond_Zopp sv _).
  replace (- p + - q) with (- (p + q)) by lia.
  apply binary_normalize_opp.
Qed.

Lemma SFadd_same (u u' v v' : spec_float) :
  sf_same u u' -> sf_same v v' ->
  sf_same (SFadd prec emax u v) (SFadd prec emax u' v').
Proof.
  intros Hu Hv.
  destruct u, u'; simpl in Hu; try discriminate;
    try (inversion Hu; subst; clear Hu);
    destruct v, v'; simpl in Hv; try discriminate;
    try (inversion Hv; subst; clear Hv);
    try apply sf_same_refl; simpl; auto;
    repeat match goal with s : bool |- _ => destruct s end; simpl; auto.
Qed.

(** *** Comparisons *)

Lemma SFcompare_refl (u : spec_float) :
  u <> S754_nan -> SFcompare u u = Some Eq.
Proof.
  destruct u as [s|s| |s m e]; simpl; intros H; try congruence.
  - destruct s; reflexivity.
  - rewrite Z.compare_refl, Pos.compare_cont_refl. destruct s; reflexivity.
Qed.

Lemma SFeqb_same (u v : spec_float) :
  u <> S754_nan -> sf_same u v -> SFeqb u v = true.
Proof.
  intros Hu H. unfold SFeqb.
  destruct u, v; simpl in H; try discriminate; try reflexivity;
    try congruence; rewrite <- H, SFcompare_refl; congruence.
Qed.

Lemma SFltb_not_nan (u v : spec_float) :
  SFltb u v = true -> u <> S754_nan /\ v <> S754_nan.
Proof.
  unfold SFltb. destruct u, v; simpl; try discriminate;
    split; discriminate.
Qed.

(** A number above a positive one is not below it once negated. *)
Lemma SFltb_pos_opp (m : positive) (e : Z) (d d' : spec_float) :
  SFltb (S754_finite false m e) d = true ->
  sf_same d' (SFopp d) ->
  SFltb (S754_finite false m e) d' = false.
Proof.
  unfold SFltb.
  destruct d as [s|s| |s md ed]; simpl; try discriminate.
  - destruct s; try discriminate. intros _.
    destruct d'; simpl; try discriminate. intros H; injection H as ->.
    reflexivity.
  - destruct s; try discriminate. intros _.
    destruct d'; simpl; try discriminate. intros H; injection H as -> -> ->.
    reflexivity.
Qed.

(** *** The corners of the super triangle

    With the centre [(mx, my)] and [d] not NaN, and [w = 20 * d], the
    three corners [(mx - w, my - d)], [(mx + w, my - d)] and
    [(mx, my + w)] cannot all hold a NaN. *)
Lemma sf_corner (mx my d : spec_float) (m20 : positive) (e20 : Z) :
  mx <> S754_nan -> my <> S754_nan -> d <> S754_nan ->
  let w := SFmul prec emax (S754_finite false m20 e20) d in
  (SFsub prec emax mx w <> S754_nan /\ SFsub prec emax my d <> S754_nan)
  \/ (SFadd prec emax mx w <> S754_nan /\ SFsub prec emax my d <> S754_nan)
  \/ SFadd prec emax my w <> S754_nan.
Proof.
  intros Hmx Hmy Hd w.
  pose proof (SFmul_finite_l false m20 e20 d) as Hw. fold w in Hw.
  assert (Hinf : forall sd, d = S754_infinity sd -> w = S754_infinity sd).
  { intros sd ->. reflexivity. }
  clearbody w.
  assert (Hwn : w <> S754_nan) by (intros ->; contradiction).
  destruct (SFadd prec emax my w) eqn:Ha;
    try (right; right; discriminate).
  apply SFadd_nan in Ha.
  destruct Ha as [Ha|[Ha|(s & Hmys & Hws)]]; try contradiction.
  assert (Hyd : SFsub prec emax my d <> S754_nan).
  { intros Hs. apply SFsub_nan in Hs.
    destruct Hs as [Hs|[Hs|(s' & Hmys' & Hds)]]; try contradiction.
    apply Hinf in Hds. rewrite Hmys in Hmys'. injection Hmys' as <-.
    rewrite Hws in Hds. destruct s; discriminate. }
  destruct (SFsub prec emax mx w) eqn:Hs;
    try (left; split; [discriminate|exact Hyd]).
  apply SFsub_nan in Hs.
  destruct Hs as [Hs|[Hs|(r & Hmxr & Hwr)]]; try contradiction.
  right; left; split; [|exact Hyd]. rewrite Hmxr, Hwr.
  destruct r; discriminate.
Qed.

End SpecFloatFacts.

(** ** The arithmetic of [double] *)

Ltac b64 :=
  cbn [fadd fsub fmul fdiv flt feq fle lit_0 lit_2 lit_20 lit_eps binary64]
    in *.

Section Binary64.

Local Open Scope float_scope.

Lemma notNaN_add (u v : float) : notNaN (u + v) -> notNaN u /\ notNaN v.
Proof.
  unfold notNaN. rewrite FloatAxioms.add_spec. intros H; split; intros E; apply H;
    rewrite E; [|destruct (Prim2SF u)]; reflexivity.
Qed.

Lemma notNaN_sub (u v : float) : notNaN (u - v) -> notNaN u /\ notNaN v.
Proof.
  unfold notNaN. rewrite FloatAxioms.sub_spec. intros H; split; intros E; apply H;
    rewrite E; [|destruct (Prim2SF u)]; reflexivity.
Qed.

Lemma notNaN_mul (u v : float) : notNaN (u * v) -> notNaN u /\ notNaN v.
Proof.
  unfold notNaN. rewrite FloatAxioms.mul_spec. intros H; split; intros E; apply H;
    rewrite E; [|destruct (Prim2SF u)]; reflexivity.
Qed.

Lemma notNaN_eqb (f : float) : notNaN f <-> (f =? f) = true.
Proof.
  unfold notNaN. rewrite FloatAxioms.eqb_spec. split.
  - intros H. apply SFeqb_same; [exact H|apply sf_same_refl].
  - intros H E. rewrite E in H. discriminate.
Qed.

Lemma ltb_notNaN (u v : float) :
  (u <? v) = true -> notNaN u /\ notNaN v.
Proof. rewrite FloatAxioms.ltb_spec. apply SFltb_not_nan. Qed.

Lemma is_finite_sf (f : float) :
  is_finite f = true ->
  match Prim2SF f with
  | S754_zero _ | S754_finite _ _ _ => True
  | _ => False
  end.
Proof.
  unfold is_finite, is_nan, is_infinity.
  rewrite !FloatAxioms.eqb_spec, FloatAxioms.abs_spec.
  destruct (Prim2SF f) as [s|s| |s m e]; simpl; auto.
  - change (Prim2SF infinity) with (S754_infinity false). simpl.
    rewrite orb_true_r. discriminate.
  - discriminate.
Qed.

Lemma is_finite_notNaN (f : float) : is_finite f = true -> notNaN f.
Proof.
  intros H E. apply is_finite_sf in H. rewrite E in H. exact H.
Qed.

Lemma Point_eqb_self (p : Point float) :
  Point_eqb p p = true <-> notNaN (x p) /\ notNaN (y p).
Proof.
  unfold Point_eqb. b64. rewrite andb_true_iff, !notNaN_eqb. reflexivity.
Qed.

(** A triangle with a NaN coordinate is never flagged: the determinant
    is NaN and [det > 1e-9] is false. *)
Lemma inCircumcircle_notNaN (p : Point float) (t : Triangle float) :
  inCircumcircle p t = true ->
  forall v, In v (vertices t) -> Point_eqb v v = true.
Proof.
  unfold inCircumcircle. b64. intros H. apply ltb_notNaN in H as [_ H].
  apply notNaN_add in H as [H12 H3].
  apply notNaN_sub in H12 as [H1 H2].
  apply notNaN_mul in H1 as [Ha _], H2 as [Hb _], H3 as [Hc _].
  apply notNaN_add in Ha as [Hax Hay], Hb as [Hbx Hby], Hc as [Hcx Hcy].
  apply notNaN_mul in Hax as [Hax _], Hay as [Hay _], Hbx as [Hbx _],
    Hby as [Hby _], Hcx as [Hcx _], Hcy as [Hcy _].
  apply notNaN_sub in Hax as [Hax _], Hay as [Hay _], Hbx as [Hbx _],
    Hby as [Hby _], Hcx as [Hcx _], Hcy as [Hcy _].
  intros v [<-|[<-|[<-|[]]]]; apply Point_eqb_self; split; assumption.
Qed.

Lemma Edge_eqb_self (e : Edge float) :
  Point_eqb (p1 e) (p1 e) = true -> Point_eqb (p2 e) (p2 e) = true ->
  Edge_eqb e e = true.
Proof. unfold Edge_eqb. intros -> ->. reflexivity. Qed.

Lemma float_mul_comm (u v : float) : u * v = v * u.
Proof.
  apply Prim2SF_inj. rewrite !FloatAxioms.mul_spec. apply SFmul_comm.
Qed.

End Binary64.

(** ** The bounding box *)

Section Bounds.

Context {F : Type} {SF : Scalar F}.

Lemma std_min_cases (u v : F) : std_min u v = u \/ std_min u v = v.
Proof. unfold std_min. destruct (flt v u); auto. Qed.

Lemma std_max_cases (u v : F) : std_max u v = u \/ std_max u v = v.
Proof. unfold std_max. destruct (flt u v); auto. Qed.

(** Each bound is a coordinate of some point: a property of all the
    coordinates is a property of the four bounds. *)
Lemma fold_boundsBody_closed (P : F -> Prop) (l : list (Point F))
    (s : frame F) :
  (forall p, In p l -> P (x p) /\ P (y p)) ->
  P (minX s) /\ P (minY s) /\ P (maxX s) /\ P (maxY s) ->
  let s' := fold_left (fun s p => boundsBody p s) l s in
  P (minX s') /\ P (minY s') /\ P (maxX s') /\ P (maxY s').
Proof.
  revert s; induction l as [|p l IH]; intros s Hl Hs; simpl; [exact Hs|].
  apply IH; [intros q Hq; apply Hl; now right|].
  destruct (Hl p (or_introl eq_refl)) as [Hx Hy].
  destruct Hs as (H1 & H2 & H3 & H4). simpl.
  repeat split.
  - destruct (std_min_cases (minX s) (x p)) as [->| ->]; assumption.
  - destruct (std_min_cases (minY s) (y p)) as [->| ->]; assumption.
  - destruct (std_max_cases (maxX s) (x p)) as [->| ->]; assumption.
  - destruct (std_max_cases (maxY s) (y p)) as [->| ->]; assumption.
Qed.

Lemma bounded_frame_fold (p0 : Point F) (pts : list (Point F)) :
  bounded_frame (p0 :: pts)
  = Returned (fold_left (fun s p => boundsBody p s) (p0 :: pts)
                (mkFrame (p0 :: pts) [] (x p0) (y p0) (x p0) (y p0))).
Proof.
  unfold bounded_frame. cbn [nth_error]. f_equal.
  now rewrite range_for_points_fold by apply points_boundsBody.
Qed.

Lemma bounded_frame_closed (P : F -> Prop) (pts : list (Point F))
    (s1 : frame F) :
  (forall p, In p pts -> P (x p) /\ P (y p)) ->
  bounded_frame pts = Returned s1 ->
  P (minX s1) /\ P (minY s1) /\ P (maxX s1) /\ P (maxY s1).
Proof.
  intros Hp Hb. destruct pts as [|p0 pts]; [discriminate|].
  rewrite bounded_frame_fold in Hb. injection Hb as <-.
  apply (fold_boundsBody_closed P (p0 :: pts)); [exact Hp|].
  destruct (Hp p0 (or_introl eq_refl)). simpl. tauto.
Qed.

End Bounds.

(** ** The super triangle in [double] *)

Section SuperTriangle64.

Local Open Scope float_scope.

Lemma finite_add_notNaN (u v : float) :
  is_finite u = true -> is_finite v = true -> notNaN (u + v).
Proof.
  intros Hu Hv E. apply is_finite_sf in Hu, Hv.
  rewrite FloatAxioms.add_spec in E. apply SFadd_nan in E.
  destruct E as [E|[E|(s & E & _)]]; rewrite E in *; contradiction.
Qed.

Lemma finite_sub_notNaN (u v : float) :
  is_finite u = true -> is_finite v = true -> notNaN (u - v).
Proof.
  intros Hu Hv E. apply is_finite_sf in Hu, Hv.
  rewrite FloatAxioms.sub_spec in E. apply SFsub_nan in E.
  destruct E as [E|[E|(s & E & _)]]; rewrite E in *; contradiction.
Qed.

Lemma half_notNaN (u : float) : notNaN u -> notNaN (u / 2).
Proof.
  intros Hu E. apply Hu. rewrite FloatAxioms.div_spec in E.
  change (Prim2SF 2) with (S754_finite false 4503599627370496 (-51)) in E.
  now apply SFdiv_finite_r in E.
Qed.

(** For finite bounds, one corner of the super triangle at least has no
    NaN coordinate, whatever overflows. *)
Lemma superTriangle_corner_self (s : frame float) :
  is_finite (minX s) = true -> is_finite (minY s) = true ->
  is_finite (maxX s) = true -> is_finite (maxY s) = true ->
  let T := superTriangle_of s in
  Point_eqb (a T) (a T) = true \/ Point_eqb (b T) (b T) = true
  \/ Point_eqb (c T) (c T) = true.
Proof.
  intros H1 H2 H3 H4 T.
  assert (HmX : notNaN (midX_of s))
    by (apply half_notNaN, finite_add_notNaN; assumption).
  assert (HmY : notNaN (midY_of s))
    by (apply half_notNaN, finite_add_notNaN; assumption).
  assert (HD : notNaN (deltaMax_of s)).
  { unfold deltaMax_of.
    destruct (std_max_cases (fsub (maxX s) (minX s))
                            (fsub (maxY s) (minY s))) as [-> | ->];
      apply finite_sub_notNaN; assumption. }
  pose proof (sf_corner FloatOps.prec emax _ _ _ 5629499534213120 (-48)
                HmX HmY HD) as Hc.
  cbv zeta in Hc.
  change (S754_finite false 5629499534213120 (-48)) with (Prim2SF 20) in Hc.
  rewrite <- FloatAxioms.mul_spec in Hc.
  rewrite <- !FloatAxioms.sub_spec, <- !FloatAxioms.add_spec in Hc.
  subst T. unfold superTriangle_of. cbn [a b c].
  rewrite !Point_eqb_self. cbn [x y]. b64.
  destruct Hc as [Hc|[Hc|Hc]]; [left|right; left|right; right];
    try exact Hc. split; assumption.
Qed.

End SuperTriangle64.

(** ** Final pruning *)

Section Pruning.

Context {F : Type} {SF : Scalar F}.

Lemma touchesSuper_false (super t : Triangle F) :
  touchesSuper super t = false
  <-> forall v k, In v (vertices t) -> In k (vertices super) ->
                  Point_eqb v k = false.
Proof.
  unfold touchesSuper, vertices. rewrite !orb_false_iff. split.
  - intros H v k [<-|[<-|[<-|[]]]] [<-|[<-|[<-|[]]]]; tauto.
  - intros H. repeat split; apply H; simpl; tauto.
Qed.

Lemma In_prune (super : Triangle F) (ts : list (Triangle F))
    (t : Triangle F) :
  In t (prune super ts) <-> In t ts /\ touchesSuper super t = false.
Proof. unfold prune. now rewrite filter_In, negb_true_iff. Qed.

Lemma delaunayTriangulation_inv (pts : list (Point F))
    (out : list (Triangle F)) :
  delaunayTriangulation pts = Returned out ->
  exists s1, bounded_frame pts = Returned s1
             /\ superTriangle pts = Returned (superTriangle_of s1)
             /\ out = prune (superTriangle_of s1)
                           (insertAll pts [superTriangle_of s1]).
Proof.
  intros H. destruct (bounded_frame pts) as [s1|u] eqn:Hb.
  - exists s1. rewrite (delaunayTriangulation_eq pts s1 Hb) in H.
    injection H as <-. unfold superTriangle. rewrite Hb. auto.
  - unfold delaunayTriangulation, delaunayTriangulation_run in H.
    rewrite Hb in H. discriminate.
Qed.

(** On a non-empty vector the call returns. *)
Lemma delaunayTriangulation_returns (pts : list (Point F)) :
  pts <> [] -> exists out, delaunayTriangulation pts = Returned out.
Proof.
  intros Hne. destruct (bounded_frame_nonempty pts Hne) as (s1 & Hb).
  eexists. apply (delaunayTriangulation_eq pts s1 Hb).
Qed.

(** Whatever the input, no vertex of a returned triangle is [==] to a
    corner of the super triangle. *)
Lemma output_avoids_super (pts : list (Point F))
    (out : list (Triangle F)) (super t : Triangle F) (v k : Point F) :
  delaunayTriangulation pts = Returned out ->
  superTriangle pts = Returned super ->
  In t out -> In v (vertices t) -> In k (vertices super) ->
  Point_eqb v k = false.
Proof.
  intros H Hs Ht Hv Hk.
  destruct (delaunayTriangulation_inv pts out H) as (s1 & _ & Hs' & ->).
  rewrite Hs in Hs'. injection Hs' as ->.
  apply In_prune in Ht. destruct Ht as [_ Ht].
  rewrite touchesSuper_false in Ht. now apply Ht.
Qed.

End Pruning.

(** ** The vertices of the triangles of the list, on [double] *)

Section Soundness64.

Variable pts : list (Point float).
Variable super : Triangle float.

Lemma sound_vertex (t : Triangle float) (v : Point float) :
  sound_triangle pts super t -> In v (vertices t) ->
  In v pts \/ In v (vertices super).
Proof.
  intros [->|H] Hv; [now right|]. now apply H.
Qed.

Lemma edgesOf_vertices (t : Triangle float) (e : Edge float) :
  In e (edgesOf t) -> In (p1 e) (vertices t) /\ In (p2 e) (vertices t).
Proof.
  unfold edgesOf, vertices.
  intros [<-|[<-|[<-|[]]]]; simpl; tauto.
Qed.

Lemma insertPoint_sound (point : Point float) (ts : list (Triangle float)) :
  finitePoint point -> In point pts ->
  (forall t, In t ts -> sound_triangle pts super t) ->
  forall t, In t (insertPoint point ts) -> sound_triangle pts super t.
Proof.
  intros [Hfx Hfy] Hin Hts t Ht.
  rewrite insertPoint_eq in Ht. apply in_app_or in Ht.
  destruct Ht as [Ht|Ht].
  - apply In_removeBad in Ht. now apply Hts.
  - unfold fan in Ht. apply in_map_iff in Ht.
    destruct Ht as (e & <- & He). apply uniqueEdges_incl in He.
    apply in_flat_map in He. destruct He as (bad & Hbad & He).
    apply filter_In in Hbad. destruct Hbad as [Hbad Hdet].
    apply edgesOf_vertices in He. destruct He as [He1 He2].
    pose proof (inCircumcircle_notNaN point bad Hdet) as Hself.
    pose proof (Hts bad Hbad) as Hs.
    right. intros v [<-|[<-|[<-|[]]]].
    + split; [now apply Hself|now apply (sound_vertex bad)].
    + split; [now apply Hself|now apply (sound_vertex bad)].
    + split; [|now left].
      apply Point_eqb_self; split; now apply is_finite_notNaN.
Qed.

Lemma insertAll_sound (l : list (Point float)) (ts : list (Triangle float)) :
  (forall p, In p l -> finitePoint p /\ In p pts) ->
  (forall t, In t ts -> sound_triangle pts super t) ->
  forall t, In t (insertAll l ts) -> sound_triangle pts super t.
Proof.
  revert ts; induction l as [|p l IH]; intros ts Hl Hts; simpl;
    [exact Hts|].
  apply IH; [intros q Hq; apply Hl; now right|].
  destruct (Hl p (or_introl eq_refl)) as [Hf Hp].
  now apply insertPoint_sound.
Qed.

End Soundness64.

(** ** The determinant under a swap of vertices *)

Section Determinant.

Lemma inCircumcircle_det {F : Type} {SF : Scalar F}
    (p : Point F) (t : Triangle F) :
  inCircumcircle p t = flt lit_eps (circumDet p t).
Proof. reflexivity. Qed.

Local Open Scope float_scope.

(** Swapping the first two vertices: every rounding of the computation
    is mirrored, so the computed [double] is the negated one (two zeros
    may differ in sign). *)
Lemma circumDet_swap_ab_sf (p A B C : Point float) :
  sf_same (Prim2SF (circumDet p (mkTriangle B A C)))
          (SFopp (Prim2SF (circumDet p (mkTriangle A B C)))).
Proof.
  unfold circumDet. cbn [a b c]. b64.
  rewrite !FloatAxioms.add_spec, !FloatAxioms.sub_spec.
  unfold SF64add, SF64sub.
  eapply sf_same_trans; [|apply SFadd_opp].
  apply SFadd_same; [apply SFsub_antisym|].
  rewrite !FloatAxioms.mul_spec, !FloatAxioms.sub_spec.
  unfold SF64mul, SF64sub.
  rewrite <- SFmul_opp_r. apply SFmul_same_r, SFsub_antisym.
Qed.

Lemma circumDet_swap_ab (p A B C : Point float) :
  (circumDet p (mkTriangle B A C) =? - circumDet p (mkTriangle A B C))
    = true
  \/ (is_nan (circumDet p (mkTriangle A B C)) = true
      /\ is_nan (circumDet p (mkTriangle B A C)) = true).
Proof.
  pose proof (circumDet_swap_ab_sf p A B C) as H.
  unfold is_nan. rewrite !FloatAxioms.eqb_spec, FloatAxioms.opp_spec.
  set (d := Prim2SF (circumDet p (mkTriangle A B C))) in *.
  set (d' := Prim2SF (circumDet p (mkTriangle B A C))) in *.
  clearbody d d'.
  destruct d' as [s|s| |s m e].
  - left. apply SFeqb_same; [discriminate|exact H].
  - left. apply SFeqb_same; [discriminate|exact H].
  - right. destruct d; try discriminate. split; reflexivity.
  - left. apply SFeqb_same; [discriminate|exact H].
Qed.

Lemma inCircumcircle_swap_ab (p A B C : Point float) :
  inCircumcircle p (mkTriangle A B C)
  && inCircumcircle p (mkTriangle B A C) = false.
Proof.
  rewrite !inCircumcircle_det. b64. rewrite !FloatAxioms.ltb_spec.
  change (Prim2SF 1e-9) with (S754_finite false 4835703278458517 (-82)).
  destruct (SFltb _ (Prim2SF (circumDet p (mkTriangle A B C)))) eqn:E;
    [|reflexivity].
  simpl. eapply SFltb_pos_opp; [exact E|apply circumDet_swap_ab_sf].
Qed.

End Determinant.

(** ** The same program in exact arithmetic *)

Section Exact.

Local Open Scope Q_scope.

(** In exact arithmetic a swap of any two vertices negates the
    determinant. *)
Lemma circumDet_swap_exact (p A B C : Point Q) :
  circumDet p (mkTriangle B A C) == - circumDet p (mkTriangle A B C)
  /\ circumDet p (mkTriangle A C B) == - circumDet p (mkTriangle A B C)
  /\ circumDet p (mkTriangle C B A) == - circumDet p (mkTriangle A B C).
Proof.
  unfold circumDet; cbn [a b c fadd fsub fmul exactQ].
  repeat split; ring.
Qed.

End Exact.

(** ** The order of [double] *)

Section KeyOrder.
Local Open Scope Z_scope.

Lemma SFltb_key (u v : spec_float) :
  u <> S754_nan -> v <> S754_nan ->
  (SFltb u v = true <-> lex_lt (sf_key u) (sf_key v)).
Proof.
  intros Hu Hv. unfold SFltb.
  destruct u as [su|su| |su mu eu], v as [sv|sv| |sv mv ev];
    try congruence; simpl;
    try (destruct su); try (destruct sv); simpl;
    try (split; [discriminate|lia]); try (split; [lia|discriminate]);
    try (split; [reflexivity|lia]); try (split; [lia|reflexivity]);
    try (split; [intros _; lia|reflexivity]).
  - change (Pos.compare_cont Eq mu mv) with (Pos.compare mu mv).
    destruct (Z.compare_spec eu ev), (Pos.compare_spec mu mv); simpl;
      split; try discriminate; try reflexivity; try lia.
  - change (Pos.compare_cont Eq mu mv) with (Pos.compare mu mv).
    destruct (Z.compare_spec eu ev), (Pos.compare_spec mu mv); simpl;
      split; try discriminate; try reflexivity; try lia.
Qed.

Lemma SFeqb_key (u v : spec_float) :
  u <> S754_nan -> v <> S754_nan ->
  (SFeqb u v = true <-> lex_eq (sf_key u) (sf_key v)).
Proof.
  intros Hu Hv. unfold SFeqb.
  destruct u as [su|su| |su mu eu], v as [sv|sv| |sv mv ev];
    try congruence; simpl;
    try (destruct su); try (destruct sv); simpl;
    try (split; [discriminate|lia]); try (split; [lia|reflexivity]);
    try (split; [intros _; lia|reflexivity]).
  - change (Pos.compare_cont Eq mu mv) with (Pos.compare mu mv).
    destruct (Z.compare_spec eu ev), (Pos.compare_spec mu mv); simpl;
      split; try discriminate; try reflexivity; try lia.
  - change (Pos.compare_cont Eq mu mv) with (Pos.compare mu mv).
    destruct (Z.compare_spec eu ev), (Pos.compare_spec mu mv); simpl;
      split; try discriminate; try reflexivity; try lia.
Qed.

End KeyOrder.

Section FloatOrder.
Local Open Scope float_scope.

Lemma ltb_key (u v : float) :
  notNaN u -> notNaN v -> ((u <? v) = true <-> lex_lt (fkey u) (fkey v)).
Proof. intros. rewrite FloatAxioms.ltb_spec. now apply SFltb_key. Qed.

Lemma ltb_key_false (u v : float) :
  notNaN u -> notNaN v -> ((u <? v) = false <-> ~ lex_lt (fkey u) (fkey v)).
Proof.
  intros Hu Hv. rewrite <- (ltb_key u v Hu Hv).
  destruct (u <? v); split; congruence.
Qed.

Lemma eqb_key (u v : float) :
  notNaN u -> notNaN v -> ((u =? v) = true <-> lex_eq (fkey u) (fkey v)).
Proof. intros. rewrite FloatAxioms.eqb_spec. now apply SFeqb_key. Qed.

Lemma eqb_key_false (u v : float) :
  notNaN u -> notNaN v -> ((u =? v) = false <-> ~ lex_eq (fkey u) (fkey v)).
Proof.
  intros Hu Hv. rewrite <- (eqb_key u v Hu Hv).
  destruct (u =? v); split; congruence.
Qed.

Lemma eqb_notNaN (u v : float) : (u =? v) = true -> notNaN u /\ notNaN v.
Proof.
  rewrite FloatAxioms.eqb_spec. unfold notNaN, SFeqb.
  destruct (Prim2SF u), (Prim2SF v); simpl; try discriminate;
    split; discriminate.
Qed.

End FloatOrder.

Ltac destruct_keys :=
  repeat match goal with
  | H : context [fkey ?u] |- _ =>
      let k := fresh "k" in
      let E := fresh "E" in
      remember (fkey u) as k eqn:E; clear E; destruct k as [[? ?] ?]
  | |- context [fkey ?u] =>
      let k := fresh "k" in
      let E := fresh "E" in
      remember (fkey u) as k eqn:E; clear E; destruct k as [[? ?] ?]
  end.

Ltac to_keys :=
  repeat match goal with
  | H : PrimFloat.ltb ?u ?v = true |- _ =>
      apply ltb_key in H; [|assumption|assumption]
  | H : PrimFloat.ltb ?u ?v = false |- _ =>
      apply ltb_key_false in H; [|assumption|assumption]
  | H : PrimFloat.eqb ?u ?v = true |- _ =>
      apply eqb_key in H; [|assumption|assumption]
  | H : PrimFloat.eqb ?u ?v = false |- _ =>
      apply eqb_key_false in H; [|assumption|assumption]
  | |- PrimFloat.ltb ?u ?v = true => apply ltb_key; [assumption|assumption|]
  | |- PrimFloat.ltb ?u ?v = false =>
      apply ltb_key_false; [assumption|assumption|]
  | |- PrimFloat.eqb ?u ?v = true => apply eqb_key; [assumption|assumption|]
  | |- PrimFloat.eqb ?u ?v = false =>
      apply eqb_key_false; [assumption|assumption|]
  end.

Ltac key_lia :=
  to_keys; destruct_keys; unfold lex_lt, lex_eq in *; lia.

Section FloatOrderLaws.
Local Open Scope float_scope.

Lemma ltb_irrefl (u : float) : (u <? u) = false.
Proof.
  destruct (u <? u) eqn:E; [|reflexivity].
  destruct (ltb_notNaN u u E). key_lia.
Qed.

Lemma ltb_asym (u v : float) : (u <? v) = true -> (v <? u) = false.
Proof. intros E. destruct (ltb_notNaN u v E). key_lia. Qed.

Lemma eqb_sym (u v : float) : (u =? v) = (v =? u).
Proof.
  destruct (u =? v) eqn:E1, (v =? u) eqn:E2; try reflexivity.
  - destruct (eqb_notNaN u v E1). key_lia.
  - destruct (eqb_notNaN v u E2). key_lia.
Qed.

Lemma eqb_trans (u v w : float) :
  (u =? v) = true -> (v =? w) = true -> (u =? w) = true.
Proof.
  intros E1 E2. destruct (eqb_notNaN u v E1), (eqb_notNaN v w E2). key_lia.
Qed.

Lemma ltb_total (u v : float) :
  notNaN u -> notNaN v ->
  (u <? v) = true \/ (u =? v) = true \/ (v <? u) = true.
Proof.
  intros Hu Hv.
  destruct (u <? v) eqn:E1; [now left|].
  destruct (v <? u) eqn:E2; [now right; right|].
  right; left. key_lia.
Qed.

End FloatOrderLaws.

(** ** [Point::operator==] and [Point::operator<] on [double] *)

Section PointOrder.
Local Open Scope float_scope.

Lemma Point_eqb_sym (p q : Point float) : Point_eqb p q = Point_eqb q p.
Proof.
  unfold Point_eqb. b64. now rewrite (eqb_sym (x p)), (eqb_sym (y p)).
Qed.

Lemma Point_eqb_trans (p q r : Point float) :
  Point_eqb p q = true -> Point_eqb q r = true -> Point_eqb p r = true.
Proof.
  unfold Point_eqb. b64. rewrite !andb_true_iff.
  intros [H1 H2] [H3 H4]. split; eapply eqb_trans; eassumption.
Qed.

Lemma Point_ltb_irrefl (p : Point float) : Point_ltb p p = false.
Proof. unfold Point_ltb. b64. now rewrite !ltb_irrefl. Qed.

Lemma Point_ltb_asym (p q : Point float) :
  Point_ltb p q = true -> Point_ltb q p = false.
Proof.
  unfold Point_ltb. b64.
  destruct (x p <? x q) eqn:E1.
  - intros _. now rewrite (ltb_asym _ _ E1).
  - destruct (x q <? x p) eqn:E2; [discriminate|].
    intros H. now rewrite (ltb_asym _ _ H).
Qed.

Lemma Point_ltb_trans (p q r : Point float) :
  pointNotNaN p -> pointNotNaN q -> pointNotNaN r ->
  Point_ltb p q = true -> Point_ltb q r = true -> Point_ltb p r = true.
Proof.
  unfold Point_ltb, pointNotNaN. b64.
  intros [Hpx Hpy] [Hqx Hqy] [Hrx Hry].
  destruct (x p <? x q) eqn:E1, (x q <? x p) eqn:E2,
           (x q <? x r) eqn:E3, (x r <? x q) eqn:E4,
           (x p <? x r) eqn:E5, (x r <? x p) eqn:E6;
    intros H1 H2; try discriminate; try reflexivity; key_lia.
Qed.

(** Neither point before the other: what [std::map] takes for equal keys. *)
Lemma Point_equiv_eqb (p q : Point float) :
  pointNotNaN p -> pointNotNaN q -> Point_equiv p q = Point_eqb p q.
Proof.
  unfold Point_equiv, Point_ltb, Point_eqb, pointNotNaN. b64.
  intros [Hpx Hpy] [Hqx Hqy].
  destruct (x p <? x q) eqn:E1, (x q <? x p) eqn:E2,
           (y p <? y q) eqn:E3, (y q <? y p) eqn:E4,
           (x p =? x q) eqn:E5, (y p =? y q) eqn:E6;
    try reflexivity; exfalso; key_lia.
Qed.

Lemma Point_ltb_total (p q : Point float) :
  pointNotNaN p -> pointNotNaN q ->
  Point_ltb p q = true \/ Point_eqb p q = true \/ Point_ltb q p = true.
Proof.
  intros Hp Hq. rewrite <- (Point_equiv_eqb p q Hp Hq). unfold Point_equiv.
  destruct (Point_ltb p q), (Point_ltb q p); simpl; auto.
Qed.

End PointOrder.

(** ** Equal up to the sign of zero *)

Section SpecFloatSame.

Variables prec emax : Z.
Local Open Scope Z_scope.

Lemma SFeqb_true_same (u v : spec_float) :
  SFeqb u v = true -> sf_same u v /\ u <> S754_nan.
Proof.
  unfold SFeqb. intros H.
  destruct u as [su|su| |su mu eu], v as [sv|sv| |sv mv ev]; simpl in H;
    try discriminate; (split; [|discriminate]); simpl; try exact I;
    repeat match goal with s : bool |- _ => destruct s end;
    try discriminate; try reflexivity;
    change (Pos.compare_cont Eq mu mv) with (Pos.compare mu mv) in H;
    destruct (Z.compare_spec eu ev), (Pos.compare_spec mu mv);
    simpl in H; try discriminate; subst; reflexivity.
Qed.

Lemma sf_same_sym (u v : spec_float) : sf_same u v -> sf_same v u.
Proof. destruct u, v; simpl; auto; congruence. Qed.

Lemma SFsub_same (u u' v v' : spec_float) :
  sf_same u u' -> sf_same v v' ->
  sf_same (SFsub prec emax u v) (SFsub prec emax u' v').
Proof.
  intros Hu Hv.
  destruct u, u'; simpl in Hu; try discriminate;
    try (inversion Hu; subst; clear Hu);
    destruct v, v'; simpl in Hv; try discriminate;
    try (inversion Hv; subst; clear Hv);
    try apply sf_same_refl; simpl; auto;
    repeat match goal with s : bool |- _ => destruct s end; simpl; auto.
Qed.

Lemma SFmul_same (u u' v v' : spec_float) :
  sf_same u u' -> sf_same v v' ->
  sf_same (SFmul prec emax u v) (SFmul prec emax u' v').
Proof.
  intros Hu Hv. eapply sf_same_trans; [apply SFmul_same_r, Hv|].
  rewrite (SFmul_comm prec emax u v'), (SFmul_comm prec emax u' v').
  apply SFmul_same_r, Hu.
Qed.

Lemma SFltb_same_r (u d d' : spec_float) :
  sf_same d d' -> SFltb u d = SFltb u d'.
Proof.
  destruct d, d'; simpl; intros H; try discriminate;
    try (inversion H; subst; reflexivity); try reflexivity.
Qed.

(** *** Zero or NaN *)

Lemma shl_align_same (m : positive) (e : Z) : shl_align m e e = (m, e).
Proof. unfold shl_align. now rewrite Z.sub_diag. Qed.

Lemma SFsub_same_zn (u v : spec_float) :
  sf_same u v -> sf_zn (SFsub prec emax u v).
Proof.
  destruct u as [su|su| |su mu eu], v as [sv|sv| |sv mv ev]; simpl;
    intros H; try discriminate; try exact I.
  - destruct su, sv; exact I.
  - inversion H; subst. destruct sv; exact I.
  - inversion H; subst. rewrite Z.min_id, shl_align_same. simpl.
    now rewrite Z.sub_diag.
Qed.

Lemma SFadd_opp_zn (u v : spec_float) :
  sf_same v (SFopp u) -> sf_zn (SFadd prec emax u v).
Proof.
  destruct u as [su|su| |su mu eu], v as [sv|sv| |sv mv ev]; simpl;
    intros H; try discriminate; try exact I.
  - destruct su, sv; exact I.
  - inversion H; subst. destruct su; exact I.
  - inversion H; subst. rewrite Z.min_id, shl_align_same. simpl.
    rewrite cond_Zopp_negb, Z.add_opp_diag_r. exact I.
Qed.

Lemma SFmul_zn_l (u v : spec_float) :
  sf_zn u -> sf_zn (SFmul prec emax u v).
Proof. destruct u, v; simpl; tauto. Qed.

Lemma SFmul_zn_r (u v : spec_float) :
  sf_zn v -> sf_zn (SFmul prec emax u v).
Proof. destruct u, v; simpl; tauto. Qed.

Lemma SFadd_zn (u v : spec_float) :
  sf_zn u -> sf_zn v -> sf_zn (SFadd prec emax u v).
Proof.
  destruct u as [[]| | |], v as [[]| | |]; simpl; tauto.
Qed.

Lemma SFsub_zn (u v : spec_float) :
  sf_zn u -> sf_zn v -> sf_zn (SFsub prec emax u v).
Proof.
  destruct u as [[]| | |], v as [[]| | |]; simpl; tauto.
Qed.

Lemma SFsub_zero_l (sz : bool) (t : spec_float) :
  sf_same (SFopp (SFsub prec emax (S754_zero sz) t)) t.
Proof.
  destruct t as [st|st| |st mt et]; simpl.
  - destruct sz, st; exact I.
  - now rewrite negb_involutive.
  - reflexivity.
  - now rewrite negb_involutive.
Qed.

Lemma SFsub_zero_r (sz : bool) (t : spec_float) :
  sf_same (SFsub prec emax t (S754_zero sz)) t.
Proof.
  destruct t as [st|st| |st mt et]; simpl; try reflexivity.
  destruct st, sz; exact I.
Qed.

(** [(z - t) + t'] and [(t - z) + t'] for [z] zero or NaN. *)
Lemma SFadd_sub_zn_l (z t t' : spec_float) :
  sf_zn z -> sf_same t' t ->
  sf_zn (SFadd prec emax (SFsub prec emax z t) t').
Proof.
  intros Hz Ht. destruct z as [sz| | |]; try contradiction; [|exact I].
  apply SFadd_opp_zn. eapply sf_same_trans; [exact Ht|].
  apply sf_same_sym, SFsub_zero_l.
Qed.

Lemma SFadd_sub_zn_r (z t t' : spec_float) :
  sf_zn z -> sf_same t' (SFopp t) ->
  sf_zn (SFadd prec emax (SFsub prec emax t z) t').
Proof.
  intros Hz Ht. destruct z as [sz| | |]; try contradiction.
  - apply SFadd_opp_zn. eapply sf_same_trans; [exact Ht|].
    apply sf_same_opp, sf_same_sym, SFsub_zero_r.
  - destruct t; exact I.
Qed.

Lemma SFltb_zn (m : positive) (e : Z) (d : spec_float) :
  sf_zn d -> SFltb (S754_finite false m e) d = false.
Proof. destruct d; simpl; try contradiction; reflexivity. Qed.

End SpecFloatSame.

Section FloatSame.
Local Open Scope float_scope.

Lemma same_refl (u : float) : same u u.
Proof. apply sf_same_refl. Qed.

Lemma same_sym (u v : float) : same u v -> same v u.
Proof. apply sf_same_sym. Qed.

Lemma eqb_same (u v : float) : (u =? v) = true -> same u v.
Proof.
  rewrite FloatAxioms.eqb_spec. intros H.
  now apply SFeqb_true_same in H.
Qed.

Lemma same_add (u u' v v' : float) :
  same u u' -> same v v' -> same (u + v) (u' + v').
Proof.
  unfold same. rewrite !FloatAxioms.add_spec. apply SFadd_same.
Qed.

Lemma same_sub (u u' v v' : float) :
  same u u' -> same v v' -> same (u - v) (u' - v').
Proof.
  unfold same. rewrite !FloatAxioms.sub_spec. apply SFsub_same.
Qed.

Lemma same_mul (u u' v v' : float) :
  same u u' -> same v v' -> same (u * v) (u' * v').
Proof.
  unfold same. rewrite !FloatAxioms.mul_spec. apply SFmul_same.
Qed.

Lemma ltb_same_r (u d d' : float) : same d d' -> (u <? d) = (u <? d').
Proof.
  unfold same. rewrite !FloatAxioms.ltb_spec. apply SFltb_same_r.
Qed.

Lemma zn_sub_same (u v : float) : same u v -> zn (u - v).
Proof.
  unfold same, zn. rewrite FloatAxioms.sub_spec. apply SFsub_same_zn.
Qed.

Lemma zn_mul_l (u v : float) : zn u -> zn (u * v).
Proof. unfold zn. rewrite FloatAxioms.mul_spec. apply SFmul_zn_l. Qed.

Lemma zn_mul_r (u v : float) : zn v -> zn (u * v).
Proof. unfold zn. rewrite FloatAxioms.mul_spec. apply SFmul_zn_r. Qed.

Lemma zn_add (u v : float) : zn u -> zn v -> zn (u + v).
Proof. unfold zn. rewrite FloatAxioms.add_spec. apply SFadd_zn. Qed.

Lemma zn_sub (u v : float) : zn u -> zn v -> zn (u - v).
Proof. unfold zn. rewrite FloatAxioms.sub_spec. apply SFsub_zn. Qed.

Lemma zn_add_sub_l (z t t' : float) :
  zn z -> same t' t -> zn (z - t + t').
Proof.
  unfold zn, same. rewrite FloatAxioms.add_spec, FloatAxioms.sub_spec.
  apply SFadd_sub_zn_l.
Qed.

Lemma zn_add_sub_r (z t t' : float) :
  zn z -> sf_same (Prim2SF t') (SFopp (Prim2SF t)) -> zn (t - z + t').
Proof.
  unfold zn. rewrite FloatAxioms.add_spec, FloatAxioms.sub_spec.
  apply SFadd_sub_zn_r.
Qed.

Lemma sub_antisym (u v : float) :
  sf_same (Prim2SF (v - u)) (SFopp (Prim2SF (u - v))).
Proof. rewrite !FloatAxioms.sub_spec. apply SFsub_antisym. Qed.

Lemma ltb_eps_zn (d : float) : zn d -> (1e-9 <? d) = false.
Proof.
  unfold zn. rewrite FloatAxioms.ltb_spec.
  change (Prim2SF 1e-9) with (S754_finite false 4835703278458517 (-82)).
  apply SFltb_zn.
Qed.

End FloatSame.

Ltac zn_solve :=
  first [ assumption
        | apply zn_mul_l; zn_solve
        | apply zn_mul_r; zn_solve
        | apply zn_add; zn_solve
        | apply zn_sub; zn_solve ].

Ltac same_solve :=
  first [ assumption
        | apply same_refl
        | apply same_sym; assumption
        | apply same_add; same_solve
        | apply same_sub; same_solve
        | apply same_mul; same_solve ].

(** ** [inCircumcircle] on [==] points *)

Section Predicate64.
Local Open Scope float_scope.

Lemma Point_eqb_same (p q : Point float) :
  Point_eqb p q = true -> same (x p) (x q) /\ same (y p) (y q).
Proof.
  unfold Point_eqb. b64. rewrite andb_true_iff.
  intros [H1 H2]. split; now apply eqb_same.
Qed.

(** [inCircumcircle] does not tell [==] points apart. *)
Lemma inCircumcircle_eqb_compat (p p' : Point float) (t t' : Triangle float) :
  Point_eqb p p' = true -> sameSlots t t' = true ->
  inCircumcircle p t = inCircumcircle p' t'.
Proof.
  intros Hp Ht. apply sameSlots_true in Ht. destruct Ht as (Ha & Hb & Hc).
  apply Point_eqb_same in Hp, Ha, Hb, Hc.
  destruct Hp, Ha, Hb, Hc.
  unfold inCircumcircle. b64. apply ltb_same_r. same_solve.
Qed.

(** The point is [==] to a vertex: the determinant is zero or NaN. *)
Lemma inCircumcircle_at_vertex (p v : Point float) (t : Triangle float) :
  In v (vertices t) -> Point_eqb v p = true -> inCircumcircle p t = false.
Proof.
  intros Hin Hv. apply Point_eqb_same in Hv. destruct Hv as [Hx Hy].
  apply zn_sub_same in Hx, Hy.
  unfold inCircumcircle. b64. apply ltb_eps_zn.
  destruct Hin as [<-|[<-|[<-|[]]]]; zn_solve.
Qed.

(** Two vertices are [==]: the determinant is zero or NaN. *)
Lemma inCircumcircle_degenerate (p : Point float) (t : Triangle float) :
  Point_eqb (a t) (b t) = true \/ Point_eqb (b t) (c t) = true
  \/ Point_eqb (c t) (a t) = true ->
  inCircumcircle p t = false.
Proof.
  intros H. unfold inCircumcircle. b64. apply ltb_eps_zn.
  destruct H as [H|[H|H]]; apply Point_eqb_same in H; destruct H as [Hx Hy].
  - apply zn_add.
    + apply zn_sub_same. same_solve.
    + apply zn_mul_r, zn_sub_same. same_solve.
  - apply zn_add_sub_l.
    + apply zn_mul_r, zn_sub_same. same_solve.
    + same_solve.
  - apply zn_add_sub_r.
    + apply zn_mul_r, zn_sub_same. same_solve.
    + rewrite !FloatAxioms.mul_spec. unfold SF64mul.
      rewrite <- SFmul_opp_r. apply SFmul_same.
      * change (same
                  ((x (c t) - x p) * (x (c t) - x p)
                   + (y (c t) - y p) * (y (c t) - y p))
                  ((x (a t) - x p) * (x (a t) - x p)
                   + (y (a t) - y p) * (y (a t) - y p))).
        same_solve.
      * eapply sf_same_trans; [|apply sub_antisym].
        change (same ((x (a t) - x p) * (y (b t) - y p)
                      - (x (b t) - x p) * (y (a t) - y p))
                     ((x (c t) - x p) * (y (b t) - y p)
                      - (x (b t) - x p) * (y (c t) - y p))).
        same_solve.
Qed.

End Predicate64.

(** ** What one insertion removes *)

Section Insertion64.
Local Open Scope float_scope.

Lemma inCircumcircle_point_notNaN (p : Point float) (t : Triangle float) :
  inCircumcircle p t = true -> Point_eqb p p = true.
Proof.
  unfold inCircumcircle. b64. intros H. apply ltb_notNaN in H as [_ H].
  apply notNaN_add in H as [H _]. apply notNaN_sub in H as [H _].
  apply notNaN_mul in H as [H _]. apply notNaN_add in H as [Hx Hy].
  apply notNaN_mul in Hx as [Hx _], Hy as [Hy _].
  apply notNaN_sub in Hx as [_ Hx], Hy as [_ Hy].
  apply Point_eqb_self. split; assumption.
Qed.

Lemma sameSlots_self (t : Triangle float) :
  (forall v, In v (vertices t) -> Point_eqb v v = true) ->
  sameSlots t t = true.
Proof.
  intros H. apply sameSlots_true. repeat split; apply H; simpl; tauto.
Qed.

Lemma isBad_flagged (point : Point float) (ts : list (Triangle float))
    (t : Triangle float) :
  In t ts -> isBad (flagged point ts) t = inCircumcircle point t.
Proof.
  intros Hin. destruct (inCircumcircle point t) eqn:E.
  - apply isBad_true. exists t. split.
    + apply filter_In. tauto.
    + apply sameSlots_self. now apply (inCircumcircle_notNaN point).
  - destruct (isBad (flagged point ts) t) eqn:B; [|reflexivity].
    apply isBad_true in B. destruct B as (bad & Hbad & Hs).
    apply filter_In in Hbad. destruct Hbad as [_ Hdet].
    assert (K : inCircumcircle point t = inCircumcircle point bad).
    { apply inCircumcircle_eqb_compat; [|exact Hs].
      now apply (inCircumcircle_point_notNaN point bad). }
    congruence.
Qed.

(** The erase removes the flagged triangles and no other. *)
Lemma removeBad_flagged (point : Point float) (ts : list (Triangle float)) :
  removeBad (flagged point ts) ts
  = filter (fun t => negb (inCircumcircle point t)) ts.
Proof.
  unfold removeBad. apply filter_ext_in. intros t Ht.
  now rewrite isBad_flagged.
Qed.
End Insertion64.

(** ** Triangles with three different vertices *)

Section Distinct64.
Local Open Scope float_scope.

Lemma fan_distinct (point : Point float) (ts : list (Triangle float))
    (t : Triangle float) :
  In t (fan point (uniqueEdges (flat_map edgesOf (flagged point ts)))) ->
  distinct3 t /\ c t = point
  /\ exists bad, In bad ts /\ inCircumcircle point bad = true
                 /\ In (mkEdge (a t) (b t)) (edgesOf bad).
Proof.
  intros Ht. unfold fan in Ht. apply in_map_iff in Ht.
  destruct Ht as (e & <- & He). apply uniqueEdges_incl in He.
  apply in_flat_map in He. destruct He as (bad & Hbad & He).
  apply filter_In in Hbad. destruct Hbad as [Hbad Hdet].
  split; [|split; [reflexivity|]].
  - assert (Hv : forall v, In v (vertices bad) -> Point_eqb v point = false).
    { intros v Hv. destruct (Point_eqb v point) eqn:E; [|reflexivity].
      rewrite (inCircumcircle_at_vertex point v bad Hv E) in Hdet.
      discriminate. }
    assert (Hd : Point_eqb (a bad) (b bad) = false
                 /\ Point_eqb (b bad) (c bad) = false
                 /\ Point_eqb (c bad) (a bad) = false).
    { destruct (Point_eqb (a bad) (b bad)) eqn:E1;
        [rewrite (inCircumcircle_degenerate point bad) in Hdet;
         [discriminate|tauto]|].
      destruct (Point_eqb (b bad) (c bad)) eqn:E2;
        [rewrite (inCircumcircle_degenerate point bad) in Hdet;
         [discriminate|tauto]|].
      destruct (Point_eqb (c bad) (a bad)) eqn:E3;
        [rewrite (inCircumcircle_degenerate point bad) in Hdet;
         [discriminate|tauto]|].
      tauto. }
    destruct Hd as (D1 & D2 & D3). unfold distinct3. cbn [a b c].
    destruct He as [<-|[<-|[<-|[]]]]; cbn [p1 p2];
      (split; [assumption|]); rewrite (Point_eqb_sym point);
      split; apply Hv; simpl; tauto.
  - exists bad. destruct e as [u v]. cbn [a b p1 p2]. tauto.
Qed.

Lemma insertPoint_distinct (super : Triangle float) (point : Point float)
    (ts : list (Triangle float)) :
  (forall t, In t ts -> t = super \/ distinct3 t) ->
  forall t, In t (insertPoint point ts) -> t = super \/ distinct3 t.
Proof.
  intros Hts t Ht. rewrite insertPoint_eq in Ht. apply in_app_or in Ht.
  destruct Ht as [Ht|Ht].
  - apply In_removeBad in Ht. now apply Hts.
  - right. now apply (fan_distinct point ts).
Qed.

Lemma insertAll_distinct (super : Triangle float) (l : list (Point float))
    (ts : list (Triangle float)) :
  (forall t, In t ts -> t = super \/ distinct3 t) ->
  forall t, In t (insertAll l ts) -> t = super \/ distinct3 t.
Proof.
  revert ts; induction l as [|p l IH]; intros ts Hts; simpl; [exact Hts|].
  apply IH. now apply insertPoint_distinct.
Qed.

(** For finite bounds the super triangle touches itself: it is pruned. *)
Lemma super_touches_itself (pts : list (Point float)) (s1 : frame float) :
  (forall p, In p pts -> finitePoint p) ->
  bounded_frame pts = Returned s1 ->
  touchesSuper (superTriangle_of s1) (superTriangle_of s1) = true.
Proof.
  intros Hfin Hb.
  destruct (bounded_frame_closed (fun u => is_finite u = true) pts s1
              Hfin Hb) as (F1 & F2 & F3 & F4).
  pose proof (superTriangle_corner_self s1 F1 F2 F3 F4) as Hc.
  cbv zeta in Hc. unfold touchesSuper.
  destruct Hc as [H|[H|H]]; rewrite H; now rewrite ?orb_true_r.
Qed.

Lemma returned_triangle_inv (pts : list (Point float))
    (out : list (Triangle float)) (t : Triangle float) :
  (forall p, In p pts -> finitePoint p) ->
  delaunayTriangulation pts = Returned out ->
  In t out ->
  distinct3 t /\ forall v, In v (vertices t) -> In v pts.
Proof.
  intros Hfin Hout Ht.
  destruct (delaunayTriangulation_inv pts out Hout) as (s1 & Hb & _ & ->).
  set (super := superTriangle_of s1) in *.
  apply In_prune in Ht. destruct Ht as [Ht Hts].
  assert (Hne : t <> super).
  { intros ->. subst super.
    rewrite (super_touches_itself pts s1 Hfin Hb) in Hts. discriminate. }
  split.
  - destruct (insertAll_distinct super pts [super]) with (t := t)
      as [E|D]; try assumption; [|contradiction].
    intros u [<-|[]]. now left.
  - assert (Hs : sound_triangle pts super t).
    { apply (insertAll_sound pts super pts [super]); try assumption.
      - intros p Hp. split; [now apply Hfin|exact Hp].
      - intros u [<-|[]]. now left. }
    destruct Hs as [E|Hs]; [contradiction|].
    intros v Hv. destruct (Hs v Hv) as [Hself [Hin|Hk]]; [exact Hin|].
    rewrite touchesSuper_false in Hts.
    rewrite (Hts v v Hv Hk) in Hself. discriminate.
Qed.

End Distinct64.

(** ** The bounding box on [double] *)

Section BoundsAttained.

Context {F : Type} {SF : Scalar F}.

(** As [fold_boundsBody_closed], with one property for the abscissas and
    one for the ordinates. *)
Lemma fold_boundsBody_closed2 (PX PY : F -> Prop) (l : list (Point F))
    (s : frame F) :
  (forall p, In p l -> PX (x p) /\ PY (y p)) ->
  PX (minX s) /\ PY (minY s) /\ PX (maxX s) /\ PY (maxY s) ->
  let s' := fold_left (fun s p => boundsBody p s) l s in
  PX (minX s') /\ PY (minY s') /\ PX (maxX s') /\ PY (maxY s').
Proof.
  revert s; induction l as [|p l IH]; intros s Hl Hs; simpl; [exact Hs|].
  apply IH; [intros q Hq; apply Hl; now right|].
  destruct (Hl p (or_introl eq_refl)) as [Hx Hy].
  destruct Hs as (H1 & H2 & H3 & H4). simpl.
  repeat split.
  - destruct (std_min_cases (minX s) (x p)) as [->| ->]; assumption.
  - destruct (std_min_cases (minY s) (y p)) as [->| ->]; assumption.
  - destruct (std_max_cases (maxX s) (x p)) as [->| ->]; assumption.
  - destruct (std_max_cases (maxY s) (y p)) as [->| ->]; assumption.
Qed.

Lemma bounded_frame_closed2 (PX PY : F -> Prop) (pts : list (Point F))
    (s1 : frame F) :
  (forall p, In p pts -> PX (x p) /\ PY (y p)) ->
  bounded_frame pts = Returned s1 ->
  PX (minX s1) /\ PY (minY s1) /\ PX (maxX s1) /\ PY (maxY s1).
Proof.
  intros Hp Hb. destruct pts as [|p0 pts]; [discriminate|].
  rewrite bounded_frame_fold in Hb. injection Hb as <-.
  apply (fold_boundsBody_closed2 PX PY (p0 :: pts)); [exact Hp|].
  destruct (Hp p0 (or_introl eq_refl)). simpl. tauto.
Qed.

Lemma insertAll_unflagged (l : list (Point F)) (ts : list (Triangle F)) :
  (forall p t, In p l -> In t ts -> inCircumcircle p t = false) ->
  insertAll l ts = ts.
Proof.
  induction l as [|p l IH]; intros H; simpl; [reflexivity|].
  assert (E : insertPoint p ts = ts).
  { rewrite insertPoint_eq, flagged_nil
      by (intros t Ht; apply H; [now left|exact Ht]).
    simpl. rewrite removeBad_nil. apply app_nil_r. }
  rewrite E. apply IH. intros q t Hq Ht. apply H; [now right|exact Ht].
Qed.

End BoundsAttained.

Section Box64.
Local Open Scope float_scope.

Lemma std_min_le_l (u v : float) : (u <? std_min u v) = false.
Proof.
  unfold std_min. b64. destruct (v <? u) eqn:E.
  - now apply ltb_asym.
  - apply ltb_irrefl.
Qed.

Lemma std_min_le_r (u v : float) : (v <? std_min u v) = false.
Proof.
  unfold std_min. b64. destruct (v <? u) eqn:E.
  - apply ltb_irrefl.
  - exact E.
Qed.

Lemma std_max_ge_l (u v : float) : (std_max u v <? u) = false.
Proof.
  unfold std_max. b64. destruct (u <? v) eqn:E.
  - now apply ltb_asym.
  - apply ltb_irrefl.
Qed.

Lemma std_max_ge_r (u v : float) : (std_max u v <? v) = false.
Proof.
  unfold std_max. b64. destruct (u <? v) eqn:E.
  - apply ltb_irrefl.
  - exact E.
Qed.

(** [w <= v] and [v <= u] give [w <= u], away from NaN. *)
Lemma not_ltb_trans (u v w : float) :
  notNaN u -> notNaN v -> notNaN w ->
  (v <? w) = false -> (u <? v) = false -> (u <? w) = false.
Proof. intros Hu Hv Hw H1 H2. key_lia. Qed.

Lemma fold_boundsBody_box64 (l : list (Point float)) (s : frame float) :
  (forall p, In p l -> pointNotNaN p) ->
  notNaN (minX s) -> notNaN (minY s) -> notNaN (maxX s) -> notNaN (maxY s) ->
  let s' := fold_left (fun s p => boundsBody p s) l s in
  ((minX s <? minX s') = false /\ (maxX s' <? maxX s) = false
   /\ (minY s <? minY s') = false /\ (maxY s' <? maxY s) = false)
  /\ forall p, In p l ->
       (x p <? minX s') = false /\ (maxX s' <? x p) = false
       /\ (y p <? minY s') = false /\ (maxY s' <? y p) = false.
Proof.
  revert s; induction l as [|q l IH]; intros s Hl N1 N2 N3 N4; simpl.
  - split; [now rewrite !ltb_irrefl|intros p []].
  - destruct (Hl q (or_introl eq_refl)) as [Nx Ny].
    assert (M1 : notNaN (minX (boundsBody q s)))
      by (simpl; destruct (std_min_cases (minX s) (x q)) as [->| ->];
          assumption).
    assert (M2 : notNaN (minY (boundsBody q s)))
      by (simpl; destruct (std_min_cases (minY s) (y q)) as [->| ->];
          assumption).
    assert (M3 : notNaN (maxX (boundsBody q s)))
      by (simpl; destruct (std_max_cases (maxX s) (x q)) as [->| ->];
          assumption).
    assert (M4 : notNaN (maxY (boundsBody q s)))
      by (simpl; destruct (std_max_cases (maxY s) (y q)) as [->| ->];
          assumption).
    destruct (IH (boundsBody q s)) as [(H1 & H2 & H3 & H4) Hin];
      try assumption; [intros p Hp; apply Hl; now right|].
    set (s' := fold_left _ l (boundsBody q s)) in *.
    destruct (fold_boundsBody_closed notNaN l (boundsBody q s))
      as (K1 & K2 & K3 & K4);
      [intros p Hp; apply Hl; now right|tauto|].
    fold s' in K1, K2, K3, K4.
    pose proof (std_min_le_l (minX s) (x q)) as A1.
    pose proof (std_min_le_r (minX s) (x q)) as A2.
    pose proof (std_min_le_l (minY s) (y q)) as B1.
    pose proof (std_min_le_r (minY s) (y q)) as B2.
    pose proof (std_max_ge_l (maxX s) (x q)) as C1.
    pose proof (std_max_ge_r (maxX s) (x q)) as C2.
    pose proof (std_max_ge_l (maxY s) (y q)) as D1.
    pose proof (std_max_ge_r (maxY s) (y q)) as D2.
    simpl in H1, H2, H3, H4, M1, M2, M3, M4.
    split.
    + repeat split.
      * exact (not_ltb_trans _ _ _ N1 M1 K1 H1 A1).
      * exact (not_ltb_trans _ _ _ K3 M3 N3 C1 H2).
      * exact (not_ltb_trans _ _ _ N2 M2 K2 H3 B1).
      * exact (not_ltb_trans _ _ _ K4 M4 N4 D1 H4).
    + intros p [<-|Hp]; [|now apply Hin].
      repeat split.
      * exact (not_ltb_trans _ _ _ Nx M1 K1 H1 A2).
      * exact (not_ltb_trans _ _ _ K3 M3 Nx C2 H2).
      * exact (not_ltb_trans _ _ _ Ny M2 K2 H3 B2).
      * exact (not_ltb_trans _ _ _ K4 M4 Ny D2 H4).
Qed.

End Box64.

(** ** The map and the vector of [exportToVTK] *)

Section MapFacts.

Context {F : Type} {SF : Scalar F}.

Lemma map_find_Some (m : pointMapT) (k : Point F) (v : Z) :
  map_find m k = Some v ->
  exists k', In (k', v) m /\ Point_equiv k k' = true.
Proof.
  induction m as [|[k' v'] m IH]; simpl; [discriminate|].
  destruct (Point_equiv k k') eqn:E.
  - intros H; injection H as <-. exists k'. auto.
  - intros H. destruct (IH H) as (k'' & Hin & He). exists k''. auto.
Qed.

Lemma map_find_None (m : pointMapT) (k : Point F) :
  map_find m k = None
  <-> forall k' v, In (k', v) m -> Point_equiv k k' = false.
Proof.
  induction m as [|[k' v'] m IH]; simpl.
  - split; [intros _ ? ? []|reflexivity].
  - destruct (Point_equiv k k') eqn:E.
    + split; [discriminate|]. intros H.
      rewrite (H k' v') in E by now left. discriminate.
    + rewrite IH. split.
      * intros H k'' v [K|K]; [injection K as <- <-; exact E|].
        now apply (H k'' v).
      * intros H k'' v K. apply (H k'' v). now right.
Qed.

Lemma map_insert_perm (m : pointMapT) (k : Point F) (v : Z) :
  Permutation (map_insert m k v) ((k, v) :: m).
Proof.
  induction m as [|[k' v'] m IH]; simpl; [reflexivity|].
  destruct (Point_ltb k k'); [reflexivity|].
  rewrite IH. apply perm_swap.
Qed.

Lemma combine_seq_snoc {A : Type} (l : list A) (u : A) (s : nat) :
  combine (seq s (length l + 1)) (l ++ [u])
  = combine (seq s (length l)) l ++ [(s + length l, u)].
Proof.
  revert s; induction l as [|w l IH]; intros s; simpl.
  - now rewrite Nat.add_0_r.
  - rewrite IH. simpl. now rewrite Nat.add_succ_r.
Qed.

Lemma indexed_snoc {A : Type} (l : list A) (u : A) :
  indexed (l ++ [u]) = indexed l ++ [(length l, u)].
Proof.
  unfold indexed. rewrite length_app. simpl length.
  now rewrite combine_seq_snoc.
Qed.

Lemma entries_snoc (d : list (Point F)) (k : Point F) :
  entries (d ++ [k]) = entries d ++ [(k, Z.of_nat (length d))].
Proof. unfold entries. now rewrite indexed_snoc, map_app. Qed.

Lemma In_entries (d : list (Point F)) (k : Point F) (v : Z) :
  In (k, v) (entries d)
  <-> exists i, nth_error d i = Some k /\ v = Z.of_nat i.
Proof.
  unfold entries. rewrite in_map_iff. split.
  - intros ([i q] & E & Hin). simpl in E. injection E as -> <-.
    apply In_indexed in Hin. eauto.
  - intros (i & Hi & ->). exists (i, k). split; [reflexivity|].
    now apply In_indexed.
Qed.

Lemma length_indexed {A : Type} (l : list A) : length (indexed l) = length l.
Proof. unfold indexed. rewrite length_combine, length_seq. lia. Qed.

Lemma length_entries (d : list (Point F)) : length (entries d) = length d.
Proof. unfold entries. now rewrite length_map, length_indexed. Qed.

Lemma map_fst_indexed {A : Type} (l : list A) :
  map fst (indexed l) = seq 0 (length l).
Proof.
  unfold indexed. generalize 0.
  induction l as [|w l IH]; intros s; simpl; [reflexivity|].
  now rewrite IH.
Qed.

Lemma map_snd_entries (d : list (Point F)) :
  map snd (entries d) = map Z.of_nat (seq 0 (length d)).
Proof.
  unfold entries. rewrite map_map. simpl.
  now rewrite <- (map_fst_indexed d), map_map.
Qed.

Lemma indexOf_Some (d : list (Point F)) (v : Point F) (i : nat) :
  indexOf d v = Some i ->
  exists q, nth_error d i = Some q /\ Point_eqb v q = true.
Proof.
  revert i; induction d as [|q d IH]; intros i; simpl; [discriminate|].
  destruct (Point_eqb v q) eqn:E.
  - intros H; injection H as <-. exists q. auto.
  - destruct (indexOf d v) as [j|]; simpl; [|discriminate].
    intros H; injection H as <-. apply (IH j eq_refl).
Qed.

Lemma indexOf_None (d : list (Point F)) (v : Point F) :
  indexOf d v = None <-> existsb (Point_eqb v) d = false.
Proof.
  induction d as [|q d IH]; simpl; [tauto|].
  destruct (Point_eqb v q); simpl; [split; discriminate|].
  rewrite <- IH. destruct (indexOf d v); simpl; split; congruence.
Qed.

End MapFacts.

Section Export64.

Local Open Scope float_scope.

Lemma goodTable_nil : goodTable [].
Proof.
  split; [intros q []|]. intros i j q q' H. destruct i; discriminate.
Qed.

Lemma find_table (d : list (Point float)) (m : pointMapT) (k : Point float) :
  goodTable d -> Permutation m (entries d) -> pointNotNaN k ->
  map_find m k = option_map Z.of_nat (indexOf d k).
Proof.
  intros [Hnan Huniq] Hperm Hk.
  assert (Hkey : forall k' v, In (k', v) m ->
            exists j, nth_error d j = Some k' /\ v = Z.of_nat j
                      /\ Point_equiv k k' = Point_eqb k k').
  { intros k' v Hin. apply (Permutation_in _ Hperm), In_entries in Hin.
    destruct Hin as (j & Hj & ->). exists j. repeat split; try assumption.
    apply Point_equiv_eqb; [exact Hk|].
    apply Hnan. eapply nth_error_In; eassumption. }
  destruct (indexOf d k) as [i|] eqn:E; simpl.
  - apply indexOf_Some in E. destruct E as (q & Hq & Hkq).
    destruct (map_find m k) as [v|] eqn:Fm.
    + apply map_find_Some in Fm. destruct Fm as (k' & Hin & He).
      destruct (Hkey k' v Hin) as (j & Hj & -> & Heq).
      rewrite Heq in He. f_equal. f_equal. symmetry.
      apply (Huniq i j q k' Hq Hj).
      apply (Point_eqb_trans q k k'); [|exact He].
      now rewrite Point_eqb_sym.
    + exfalso. rewrite map_find_None in Fm.
      assert (Hin : In (q, Z.of_nat i) m).
      { apply (Permutation_in _ (Permutation_sym Hperm)), In_entries. eauto. }
      destruct (Hkey q _ Hin) as (_ & _ & _ & Heq).
      rewrite (Fm q _ Hin) in Heq. congruence.
  - apply indexOf_None in E. rewrite existsb_false_iff in E.
    apply map_find_None. intros k' v Hin.
    destruct (Hkey k' v Hin) as (j & Hj & _ & ->).
    apply E. eapply nth_error_In; eassumption.
Qed.

Lemma goodTable_addFirst (d : list (Point float)) (v : Point float) :
  goodTable d -> pointNotNaN v -> goodTable (addFirst d v).
Proof.
  intros [Hnan Huniq] Hv. unfold addFirst.
  destruct (existsb (Point_eqb v) d) eqn:E; [now split|].
  rewrite existsb_false_iff in E. split.
  - intros q Hq. apply in_app_or in Hq. destruct Hq as [Hq|[<-|[]]]; auto.
  - intros i j q q' Hi Hj Heq.
    destruct (Nat.lt_ge_cases i (length d)) as [Li|Li],
             (Nat.lt_ge_cases j (length d)) as [Lj|Lj].
    + rewrite nth_error_app1 in Hi, Hj by assumption.
      now apply (Huniq i j q q').
    + rewrite nth_error_app1 in Hi by assumption.
      rewrite nth_error_app2 in Hj by assumption.
      destruct (j - length d)%nat as [|n] eqn:En; simpl in Hj;
        [|destruct n; discriminate].
      injection Hj as <-. rewrite Point_eqb_sym in Heq.
      rewrite (E q) in Heq; [discriminate|].
      eapply nth_error_In; eassumption.
    + rewrite nth_error_app2 in Hi by assumption.
      rewrite nth_error_app1 in Hj by assumption.
      destruct (i - length d)%nat as [|n] eqn:En; simpl in Hi;
        [|destruct n; discriminate].
      injection Hi as <-.
      rewrite (E q') in Heq; [discriminate|].
      eapply nth_error_In; eassumption.
    + assert (i < length (d ++ [v]))
        by (apply nth_error_Some; congruence).
      assert (j < length (d ++ [v]))%nat
        by (apply nth_error_Some; congruence).
      rewrite length_app in *. simpl in *. lia.
Qed.

Lemma goodTable_fold_addFirst (vs d : list (Point float)) :
  goodTable d -> (forall v, In v vs -> pointNotNaN v) ->
  goodTable (fold_left addFirst vs d).
Proof.
  revert d; induction vs as [|k vs IH]; intros d Hd Hvs; simpl;
    [exact Hd|].
  apply IH.
  - apply goodTable_addFirst; [exact Hd|apply Hvs; now left].
  - intros v Hv. apply Hvs. now right.
Qed.

Lemma length_addFirst (d : list (Point float)) (v : Point float) :
  (length d <= length (addFirst d v) <= length d + 1)%nat.
Proof.
  unfold addFirst. destruct (existsb _ d); [lia|].
  rewrite length_app. simpl. lia.
Qed.

Lemma addPoint_step (d : list (Point float)) (m : pointMapT)
    (k : Point float) :
  goodTable d -> Permutation m (entries d) -> pointNotNaN k ->
  (Z.of_nat (length (addFirst d k)) <= INT_MAX)%Z ->
  exists m',
    addPoint k (m, Z.of_nat (length d))
    = Done (m', Z.of_nat (length (addFirst d k)))
    /\ Permutation m' (entries (addFirst d k)).
Proof.
  intros Hd Hperm Hk. unfold addPoint, addFirst, map_assign.
  rewrite (find_table d m k Hd Hperm Hk).
  destruct (indexOf d k) as [i|] eqn:E; simpl.
  - assert (Ex : existsb (Point_eqb k) d = true).
    { destruct (existsb (Point_eqb k) d) eqn:Ex; [reflexivity|].
      apply indexOf_None in Ex. congruence. }
    rewrite Ex. intros _. exists m. split; [reflexivity|exact Hperm].
  - pose proof E as Ex. apply indexOf_None in Ex. rewrite Ex.
    rewrite length_app. simpl length. intros Hlt.
    replace (Z.of_nat (length d) <? INT_MAX)%Z with true
      by (symmetry; apply Z.ltb_lt; lia).
    exists (map_insert m k (Z.of_nat (length d))). split.
    + do 2 f_equal. lia.
    + rewrite entries_snoc, map_insert_perm.
      rewrite <- Permutation_cons_append. now apply perm_skip.
Qed.

Lemma length_fold_addFirst (vs d : list (Point float)) :
  (length d <= length (fold_left addFirst vs d)
   <= length d + length vs)%nat.
Proof.
  revert d; induction vs as [|k vs IH]; intros d; simpl; [lia|].
  pose proof (IH (addFirst d k)). pose proof (length_addFirst d k). lia.
Qed.

Lemma collect_vertices (ts : list (Triangle float))
    (r : attempt (pointMapT * Z)) :
  fold_left (fun r tri => andThen r (collectBody tri)) ts r
  = fold_left (fun r k => andThen r (addPoint k)) (flat_map vertices ts) r.
Proof.
  revert r; induction ts as [|t ts IH]; intros r; simpl; [reflexivity|].
  rewrite IH. f_equal. unfold collectBody.
  destruct r as [st|u]; simpl; [|reflexivity].
  destruct (addPoint (a t) st) as [st1|u]; simpl; [|reflexivity].
  destruct (addPoint (b t) st1) as [st2|u]; reflexivity.
Qed.

Lemma collect_inv (vs d : list (Point float)) (m : pointMapT) :
  goodTable d -> Permutation m (entries d) ->
  (forall v, In v vs -> pointNotNaN v) ->
  (Z.of_nat (length (fold_left addFirst vs d)) <= INT_MAX)%Z ->
  exists m',
    fold_left (fun r k => andThen r (addPoint k)) vs
      (Done (m, Z.of_nat (length d)))
    = Done (m', Z.of_nat (length (fold_left addFirst vs d)))
    /\ Permutation m' (entries (fold_left addFirst vs d))
    /\ goodTable (fold_left addFirst vs d).
Proof.
  revert d m; induction vs as [|k vs IH]; intros d m Hd Hperm Hvs Hlen;
    cbn [fold_left andThen] in *.
  - exists m. auto.
  - destruct (addPoint_step d m k Hd Hperm) as (m1 & E1 & P1).
    + apply Hvs; now left.
    + pose proof (length_fold_addFirst vs (addFirst d k)). lia.
    + rewrite E1. apply (IH (addFirst d k) m1).
      * apply goodTable_addFirst; [exact Hd|apply Hvs; now left].
      * exact P1.
      * intros v Hv. apply Hvs. now right.
      * exact Hlen.
Qed.

Lemma length_replace_nth (l : list (Point float)) (i : nat)
    (p : Point float) :
  length (replace_nth l i p) = length l.
Proof.
  revert i; induction l as [|q l IH]; intros [|i]; simpl; auto.
Qed.

Lemma nth_error_replace_same (l : list (Point float)) (i : nat)
    (p : Point float) :
  (i < length l)%nat -> nth_error (replace_nth l i p) i = Some p.
Proof.
  revert i; induction l as [|q l IH]; intros [|i]; simpl; intros H;
    try lia; [reflexivity|]. apply IH. lia.
Qed.

Lemma nth_error_replace_other (l : list (Point float)) (i j : nat)
    (p : Point float) :
  i <> j -> nth_error (replace_nth l i p) j = nth_error l j.
Proof.
  revert i j; induction l as [|q l IH]; intros [|i] [|j] H; simpl; auto;
    try congruence.
Qed.

(** Writes at pairwise different positions inside the vector all land, in
    whatever order they are made. *)
Lemma fill_fold (es : pointMapT) (u : list (Point float)) :
  NoDup (map snd es) ->
  (forall e, In e es -> (0 <= snd e < Z.of_nat (length u))%Z) ->
  exists u',
    fold_left
      (fun r pair => andThen r (fun u => vector_set u (snd pair) (fst pair)))
      es (Done u) = Done u'
    /\ length u' = length u
    /\ (forall k i, In (k, i) es -> nth_error u' (Z.to_nat i) = Some k)
    /\ (forall j, (forall e, In e es -> Z.to_nat (snd e) <> j) ->
                  nth_error u' j = nth_error u j).
Proof.
  revert u; induction es as [|[k i] es IH]; intros u Hnd Hin;
    cbn [fold_left andThen].
  - exists u. split; [reflexivity|]. split; [reflexivity|].
    split; [intros ? ? []|reflexivity].
  - cbn [map snd fst] in *. inversion Hnd as [|? ? Hni Hnd']; subst.
    pose proof (Hin (k, i) (or_introl eq_refl)) as Hi. cbn [snd] in Hi.
    unfold vector_set at 2.
    replace ((0 <=? i) && (i <? Z.of_nat (length u)))%Z with true
      by (symmetry; apply andb_true_iff; split;
          [apply Z.leb_le|apply Z.ltb_lt]; lia).
    destruct (IH (replace_nth u (Z.to_nat i) k) Hnd') as (u' & E & L & G & O).
    { intros e He. rewrite length_replace_nth. apply Hin. now right. }
    exists u'. rewrite length_replace_nth in L.
    split; [exact E|]. split; [exact L|]. split.
    + intros k' i' [K|K]; [injection K as <- <-|now apply G].
      rewrite O; [apply nth_error_replace_same; lia|].
      intros e He Heq. apply Hni. apply in_map_iff. exists e. split; [|exact He].
      pose proof (Hin e (or_intror He)). lia.
    + intros j Hj. rewrite O.
      * apply nth_error_replace_other. apply (Hj (k, i)). now left.
      * intros e He. apply Hj. now right.
Qed.

Lemma fillUniquePoints_table (d : list (Point float)) (m : pointMapT) :
  Permutation m (entries d) -> fillUniquePoints m = Done d.
Proof.
  intros Hperm. unfold fillUniquePoints.
  assert (Hlen : length m = length d)
    by now rewrite (Permutation_length Hperm), length_entries.
  destruct (fill_fold m (repeat (mkPoint lit_0 lit_0) (length m)))
    as (u' & E & L & G & _).
  - apply (Permutation_NoDup
             (l := map snd (entries d)));
      [apply Permutation_map, Permutation_sym, Hperm|].
    rewrite map_snd_entries. apply Finite.Injective_map_NoDup;
      [intros ? ?; apply Nat2Z.inj|apply seq_NoDup].
  - intros [k v] He. apply (Permutation_in _ Hperm), In_entries in He.
    destruct He as (i & Hi & ->). cbn [snd]. rewrite repeat_length, Hlen.
    assert (i < length d)%nat by (apply nth_error_Some; congruence). lia.
  - rewrite E. f_equal. rewrite repeat_length in L.
    apply nth_error_ext. intros j.
    destruct (nth_error d j) as [q|] eqn:Hq.
    + rewrite <- (Nat2Z.id j). apply G.
      apply (Permutation_in _ (Permutation_sym Hperm)), In_entries. eauto.
    + apply nth_error_None. apply nth_error_None in Hq. lia.
Qed.

Lemma fold_addFirst_covers (vs d : list (Point float)) (v : Point float) :
  In v vs \/ existsb (Point_eqb v) d = true ->
  Point_eqb v v = true ->
  existsb (Point_eqb v) (fold_left addFirst vs d) = true.
Proof.
  intros H Hv. revert d H; induction vs as [|w vs IH]; intros d H; simpl.
  - destruct H as [[]|H]; exact H.
  - apply IH. destruct H as [[->|H]|H]; [right|now left|right];
      unfold addFirst.
    + destruct (existsb (Point_eqb v) d) eqn:E; [exact E|].
      rewrite existsb_app, E. simpl. now rewrite Hv.
    + destruct (existsb (Point_eqb w) d); [exact H|].
      rewrite existsb_app, H. reflexivity.
Qed.

Lemma fold_addFirst_In (vs d : list (Point float)) (q : Point float) :
  In q (fold_left addFirst vs d) -> In q d \/ In q vs.
Proof.
  revert d; induction vs as [|w vs IH]; intros d H; simpl in *; [now left|].
  apply IH in H. destruct H as [H|H]; [|now right; right].
  unfold addFirst in H. destruct (existsb (Point_eqb w) d); [now left|].
  apply in_app_or in H. destruct H as [H|[<-|[]]]; auto.
Qed.

Lemma map_index_found (m : pointMapT) (k : Point float) (v : Z) :
  map_find m k = Some v -> map_index m k = (v, m).
Proof. unfold map_index. now intros ->. Qed.

Lemma cellLine_table (d : list (Point float)) (m : pointMapT)
    (t : Triangle float) :
  goodTable d -> Permutation m (entries d) ->
  (forall v, In v (vertices t) ->
             pointNotNaN v /\ existsb (Point_eqb v) d = true) ->
  cellLine t m = (cellTokens d t, m).
Proof.
  intros Hd Hperm Hv.
  assert (K : forall v, In v (vertices t) ->
                map_index m v = (indexZ d v, m)).
  { intros v Hin. destruct (Hv v Hin) as [Hn He].
    apply map_index_found. rewrite (find_table d m v Hd Hperm Hn).
    unfold indexZ. destruct (indexOf d v) eqn:E; [reflexivity|].
    apply indexOf_None in E. congruence. }
  unfold cellLine, cellTokens.
  rewrite (K (a t)) by (simpl; auto).
  rewrite (K (b t)) by (simpl; auto).
  rewrite (K (c t)) by (simpl; auto). reflexivity.
Qed.

Lemma writeCells_table (d : list (Point float)) (m : pointMapT)
    (ts : list (Triangle float)) :
  goodTable d -> Permutation m (entries d) ->
  (forall t v, In t ts -> In v (vertices t) ->
               pointNotNaN v /\ existsb (Point_eqb v) d = true) ->
  writeCells ts m = (flat_map (cellTokens d) ts, m).
Proof.
  intros Hd Hperm Hv. unfold writeCells.
  change (flat_map (cellTokens d) ts) with ([] ++ flat_map (cellTokens d) ts).
  generalize (@nil (token float)) as acc.
  induction ts as [|t ts IH]; intros acc; cbn [fold_left flat_map].
  - now rewrite app_nil_r.
  - cbn [snd fst]. rewrite (cellLine_table d m t Hd Hperm).
    + rewrite IH; [now rewrite app_assoc|].
      intros t' v Ht. apply Hv. now right.
    + intros v. apply Hv. now left.
Qed.

Lemma goodTable_NoDup (d : list (Point float)) : goodTable d -> NoDup d.
Proof.
  intros [Hn Hu]. apply NoDup_nth_error. intros i j Hi E.
  apply nth_error_Some in Hi.
  destruct (nth_error d i) as [q|] eqn:Hq; [|congruence].
  apply (Hu i j q q Hq); [now rewrite <- E|].
  apply Point_eqb_self, Hn. eapply nth_error_In; eassumption.
Qed.

(** What the two loops before the output leave behind. *)
Lemma export_tables (ts : list (Triangle float)) :
  (forall t v, In t ts -> In v (vertices t) -> pointNotNaN v) ->
  (Z.of_nat (length (firstPoints (flat_map vertices ts))) <= INT_MAX)%Z ->
  let d := firstPoints (flat_map vertices ts) in
  exists m,
    collectPoints ts = Done (m, Z.of_nat (length d))
    /\ Permutation m (entries d) /\ goodTable d
    /\ fillUniquePoints m = Done d
    /\ writeCells ts m = (flat_map (cellTokens d) ts, m).
Proof.
  intros Hn Hlen d.
  assert (Hvs : forall v, In v (flat_map vertices ts) -> pointNotNaN v).
  { intros v Hv. apply in_flat_map in Hv. destruct Hv as (t & Ht & Hv).
    now apply (Hn t v). }
  destruct (collect_inv (flat_map vertices ts) [] [] goodTable_nil
              (Permutation_refl _) Hvs Hlen) as (m & E & P & G).
  exists m. unfold collectPoints. rewrite collect_vertices.
  split; [exact E|]. split; [exact P|]. split; [exact G|].
  split; [now apply fillUniquePoints_table|].
  apply writeCells_table; [exact G|exact P|].
  intros t v Ht Hv. split; [now apply (Hn t v)|].
  apply fold_addFirst_covers.
  - left. apply in_flat_map. eauto.
  - apply Point_eqb_self. now apply (Hn t v).
Qed.

End Export64.

Ltac not_nan :=
  repeat split;
  let H := fresh in intro H; vm_compute in H; discriminate H.

Section EdgeAndBox64.
Local Open Scope float_scope.

Lemma Edge_eqb_sym (e o : Edge float) : Edge_eqb e o = Edge_eqb o e.
Proof.
  unfold Edge_eqb.
  rewrite (Point_eqb_sym (p1 o) (p1 e)), (Point_eqb_sym (p2 o) (p2 e)),
          (Point_eqb_sym (p1 o) (p2 e)), (Point_eqb_sym (p2 o) (p1 e)).
  now rewrite (andb_comm (Point_eqb (p2 e) (p1 o))).
Qed.

Lemma Edge_eqb_trans (e o u : Edge float) :
  Edge_eqb e o = true -> Edge_eqb o u = true -> Edge_eqb e u = true.
Proof.
  rewrite !Edge_eqb_true.
  intros [[H1 H2]|[H1 H2]] [[H3 H4]|[H3 H4]];
    [left|right|right|left]; split; eapply Point_eqb_trans; eassumption.
Qed.

Lemma leb_ltb_eqb (u v : float) : (u <=? v) = (u <? v) || (u =? v).
Proof.
  rewrite FloatAxioms.leb_spec, FloatAxioms.ltb_spec, FloatAxioms.eqb_spec.
  unfold SFleb, SFltb, SFeqb.
  destruct (SFcompare (Prim2SF u) (Prim2SF v)) as [[| |]|]; reflexivity.
Qed.

Lemma leb_of_not_ltb (u v : float) :
  notNaN u -> notNaN v -> (v <? u) = false -> (u <=? v) = true.
Proof.
  intros Hu Hv H. rewrite leb_ltb_eqb.
  destruct (u <? v) eqn:E1, (u =? v) eqn:E2; try reflexivity.
  exfalso. key_lia.
Qed.

Lemma bounded_frame_box64 (pts : list (Point float)) (s1 : frame float) :
  (forall p, In p pts -> pointNotNaN p) ->
  bounded_frame pts = Returned s1 ->
  forall p, In p pts ->
    (minX s1 <=? x p) = true /\ (x p <=? maxX s1) = true
    /\ (minY s1 <=? y p) = true /\ (y p <=? maxY s1) = true.
Proof.
  intros Hn Hb.
  destruct (bounded_frame_closed notNaN pts s1) as (N1 & N2 & N3 & N4);
    [intros p Hp; apply Hn, Hp|exact Hb|].
  destruct pts as [|p0 pts]; [discriminate|].
  rewrite bounded_frame_fold in Hb. injection Hb as <-.
  destruct (Hn p0 (or_introl eq_refl)) as [Nx Ny].
  destruct (fold_boundsBody_box64 (p0 :: pts)
              (mkFrame (p0 :: pts) [] (x p0) (y p0) (x p0) (y p0)))
    as [_ Hin]; try assumption.
  intros p Hp. destruct (Hin p Hp) as (H1 & H2 & H3 & H4).
  destruct (Hn p Hp) as [Px Py].
  repeat split; apply leb_of_not_ltb; assumption.
Qed.

End EdgeAndBox64.

Section ExportFacts.
Local Open Scope float_scope.

Lemma length_flat_map_vertices (ts : list (Triangle float)) :
  length (flat_map vertices ts) = (3 * length ts)%nat.
Proof. induction ts as [|t ts IH]; simpl; [reflexivity|]. rewrite IH. lia. Qed.

Lemma firstPoints_vertex (ts : list (Triangle float)) (q : Point float) :
  In q (firstPoints (flat_map vertices ts)) ->
  exists t, In t ts /\ In q (vertices t).
Proof.
  intros H. apply fold_addFirst_In in H. destruct H as [[]|H].
  apply in_flat_map in H. exact H.
Qed.

Lemma exportToVTK_table (ts : list (Triangle float)) (filename : string) :
  (forall t v, In t ts -> In v (vertices t) -> pointNotNaN v) ->
  (Z.of_nat (length (firstPoints (flat_map vertices ts))) <= INT_MAX)%Z ->
  exportToVTK true ts filename
  = Done (mkStreams
            (Some (vtkTokens (firstPoints (flat_map vertices ts)) ts))
            [Text "Exported to "; Text filename; Endl] []).
Proof.
  intros Hn Hlen.
  destruct (export_tables ts Hn Hlen) as (m & E & P & _ & Fi & W).
  unfold exportToVTK. cbn [negb]. rewrite E. cbn [andThen fst].
  rewrite Fi. cbn [andThen]. rewrite W. cbn [fst].
  rewrite (Permutation_length P), length_entries. reflexivity.
Qed.

Lemma table_lookup (d : list (Point float)) (m : pointMapT)
    (v : Point float) :
  goodTable d -> Permutation m (entries d) -> pointNotNaN v ->
  existsb (Point_eqb v) d = true ->
  exists i q, map_index m v = (Z.of_nat i, m)
              /\ nth_error d i = Some q /\ Point_eqb v q = true.
Proof.
  intros Hd P Hv Hex.
  destruct (indexOf d v) as [i|] eqn:E;
    [|apply indexOf_None in E; congruence].
  destruct (indexOf_Some d v i E) as (q & Hq & Heq).
  exists i, q. split; [|auto].
  apply map_index_found. now rewrite (find_table d m v Hd P Hv), E.
Qed.

End ExportFacts.

(** ** Shifts of the mantissa *)

Section Shifts.
Local Open Scope Z_scope.

Lemma shr_1_m (mrs : shr_record) :
  0 <= shr_m mrs -> shr_m (shr_1 mrs) = shr_m mrs / 2.
Proof.
  destruct mrs as [m r s]; simpl. intros H.
  destruct m as [|[p|p|]|p]; simpl; try lia; try reflexivity.
  - rewrite Pos2Z.inj_xI. apply (Z.div_unique _ 2 _ 1); lia.
  - rewrite Pos2Z.inj_xO. apply (Z.div_unique _ 2 _ 0); lia.
Qed.

Lemma shr_1_inexact (mrs : shr_record) :
  0 <= shr_m mrs ->
  inexact (shr_1 mrs) = Z.odd (shr_m mrs) || inexact mrs.
Proof.
  destruct mrs as [m r s]; unfold inexact; simpl. intros H.
  destruct m as [|[p|p|]|p]; simpl; try lia; reflexivity.
Qed.

Lemma iter_pos_nat {A : Type} (f : A -> A) (p : positive) (u : A) :
  SpecFloat.iter_pos f p u = Nat.iter (Pos.to_nat p) f u.
Proof.
  revert u; induction p as [p IH|p IH|]; intros u;
    cbn [SpecFloat.iter_pos].
  - rewrite !IH, Pos2Nat.inj_xI.
    replace (S (2 * Pos.to_nat p))%nat
      with (Pos.to_nat p + S (Pos.to_nat p))%nat by lia.
    rewrite Nat.iter_add, Nat.iter_succ_r. reflexivity.
  - rewrite !IH, Pos2Nat.inj_xO.
    replace (2 * Pos.to_nat p)%nat
      with (Pos.to_nat p + Pos.to_nat p)%nat by lia.
    now rewrite Nat.iter_add.
  - reflexivity.
Qed.

(** One bit shifted out: the upper end of the interval of the value stays
    under a power of two. *)
Lemma shr_1_upper (mrs : shr_record) (k : Z) :
  0 <= k -> 0 <= shr_m mrs ->
  shr_m mrs + Z.b2z (inexact mrs) <= 2 ^ (k + 1) ->
  0 <= shr_m (shr_1 mrs)
  /\ shr_m (shr_1 mrs) + Z.b2z (inexact (shr_1 mrs)) <= 2 ^ k.
Proof.
  intros Hk Hm H. rewrite shr_1_m, shr_1_inexact by assumption.
  rewrite Z.pow_add_r, Z.pow_1_r in H by lia.
  pose proof (Z.div2_odd (shr_m mrs)) as D. rewrite Z.div2_div in D.
  split; [apply Z.div_pos; lia|].
  destruct (inexact mrs), (Z.odd (shr_m mrs)); cbn [Z.b2z orb] in *; lia.
Qed.

Lemma iter_shr_1_upper (n : nat) (mrs : shr_record) (k : Z) :
  0 <= k -> 0 <= shr_m mrs ->
  shr_m mrs + Z.b2z (inexact mrs) <= 2 ^ (k + Z.of_nat n) ->
  0 <= shr_m (Nat.iter n shr_1 mrs)
  /\ shr_m (Nat.iter n shr_1 mrs)
     + Z.b2z (inexact (Nat.iter n shr_1 mrs)) <= 2 ^ k.
Proof.
  revert k; induction n as [|n IH]; intros k Hk Hm H.
  - simpl. rewrite Z.add_0_r in H. auto.
  - simpl. destruct (IH (k + 1)) as [H1 H2]; try lia.
    { replace (k + 1 + Z.of_nat n) with (k + Z.of_nat (S n)) by lia.
      exact H. }
    now apply shr_1_upper.
Qed.

(** Nothing is lost when the bits shifted out are zeros. *)
Lemma shr_1_exact (mrs : shr_record) :
  0 <= shr_m mrs -> inexact mrs = false -> Z.even (shr_m mrs) = true ->
  inexact (shr_1 mrs) = false /\ shr_m mrs = 2 * shr_m (shr_1 mrs).
Proof.
  intros Hm Hi He. rewrite shr_1_inexact, shr_1_m by assumption.
  pose proof (Z.div2_odd (shr_m mrs)) as D. rewrite Z.div2_div in D.
  rewrite <- Z.negb_even, He in *. rewrite Hi. cbn [negb Z.b2z orb] in *.
  split; [reflexivity|lia].
Qed.

Lemma iter_shr_1_exact (n : nat) (mrs : shr_record) (q : Z) :
  0 <= q -> inexact mrs = false -> shr_m mrs = q * 2 ^ Z.of_nat n ->
  inexact (Nat.iter n shr_1 mrs) = false
  /\ shr_m (Nat.iter n shr_1 mrs) = q.
Proof.
  revert q; induction n as [|n IH]; intros q Hq Hi Hm.
  - simpl in *. split; [exact Hi|lia].
  - simpl.
    assert (Hm' : shr_m mrs = 2 * q * 2 ^ Z.of_nat n)
      by (rewrite Hm, Nat2Z.inj_succ, Z.pow_succ_r by lia; ring).
    destruct (IH (2 * q) ltac:(lia) Hi Hm') as [H1 H2].
    destruct (shr_1_exact (Nat.iter n shr_1 mrs)) as [H3 H4].
    + lia.
    + exact H1.
    + rewrite H2, Z.even_mul. reflexivity.
    + split; [exact H3|lia].
Qed.

End Shifts.

Section Digits.
Local Open Scope Z_scope.

Lemma digits2_pos_size (m : positive) : digits2_pos m = Pos.size m.
Proof. induction m as [m IH|m IH|]; simpl; congruence. Qed.

Lemma digits2_pos_lower (m : positive) :
  2 ^ (Zpos (digits2_pos m) - 1) <= Zpos m.
Proof.
  rewrite digits2_pos_size.
  pose proof (Pos.size_le m) as H.
  apply Pos2Z.pos_le_pos in H. rewrite Pos2Z.inj_pow in H.
  replace (Zpos (Pos.size m)) with (Zpos (Pos.size m) - 1 + 1) in H by lia.
  rewrite Z.pow_add_r, Z.pow_1_r in H by lia. lia.
Qed.

Lemma digits2_pos_upper (m : positive) :
  Zpos m < 2 ^ Zpos (digits2_pos m).
Proof.
  rewrite digits2_pos_size.
  pose proof (Pos.size_gt m) as H.
  apply Pos2Z.pos_lt_pos in H. now rewrite Pos2Z.inj_pow in H.
Qed.

Lemma Zdigits2_le (M j : Z) :
  0 <= M -> 0 <= j -> M <= 2 ^ j -> Zdigits2 M <= j + 1.
Proof.
  intros HM Hj H. destruct M as [|m|m]; simpl; try lia.
  pose proof (digits2_pos_lower m) as L.
  destruct (Z_le_gt_dec (Zpos (digits2_pos m)) (j + 1)) as [|G]; [assumption|].
  exfalso.
  assert (2 ^ (j + 1) <= 2 ^ (Zpos (digits2_pos m) - 1))
    by (apply Z.pow_le_mono_r; lia).
  rewrite Z.pow_add_r, Z.pow_1_r in H0 by lia.
  assert (0 < 2 ^ j) by (apply Z.pow_pos_nonneg; lia). lia.
Qed.

Lemma fexp_le (d K : Z) :
  d <= K + 1 -> SpecFloat.emin prec emax <= K -> SpecFloat.fexp prec emax d <= K.
Proof. unfold SpecFloat.fexp, SpecFloat.emin, prec, emax. lia. Qed.

End Digits.

(** ** Rounding keeps a bound by a power of two *)

Section RoundUpper.
Local Open Scope Z_scope.

Lemma inexact_of_loc (m : Z) (l : location) :
  shr_m (shr_record_of_loc m l) = m
  /\ m + Z.b2z (inexact (shr_record_of_loc m l)) = upper m l.
Proof.
  destruct l as [|[| |]]; unfold inexact; simpl; split; lia.
Qed.

Lemma shr_upper (mrs : shr_record) (e n K : Z) :
  0 <= shr_m mrs -> e <= K -> e + n <= K ->
  shr_m mrs + Z.b2z (inexact mrs) <= 2 ^ (K - e) ->
  let r := shr mrs e n in
  e <= snd r <= K /\ 0 <= shr_m (fst r)
  /\ shr_m (fst r) + Z.b2z (inexact (fst r)) <= 2 ^ (K - snd r).
Proof.
  intros Hm He Hn H r. subst r. unfold shr.
  destruct n as [|p|p]; cbn [fst snd].
  - split; [lia|split; assumption].
  - rewrite iter_pos_nat.
    assert (H' : shr_m mrs + Z.b2z (inexact mrs)
                 <= 2 ^ (K - (e + Zpos p) + Z.of_nat (Pos.to_nat p))).
    { rewrite positive_nat_Z.
      replace (K - (e + Zpos p) + Zpos p) with (K - e) by lia. exact H. }
    destruct (iter_shr_1_upper (Pos.to_nat p) mrs (K - (e + Zpos p))
                ltac:(lia) Hm H') as [H1 H2].
    split; [lia|]. split; assumption.
  - split; [lia|split; assumption].
Qed.

Lemma shr_fexp_upper (M e K : Z) (l : location) :
  0 <= M -> e <= K -> SpecFloat.emin prec emax <= K ->
  upper M l <= 2 ^ (K - e) ->
  let r := shr_fexp prec emax M e l in
  e <= snd r <= K /\ 0 <= shr_m (fst r)
  /\ shr_m (fst r) + Z.b2z (inexact (fst r)) <= 2 ^ (K - snd r).
Proof.
  intros HM He Hmin H r. subst r. unfold shr_fexp.
  destruct (inexact_of_loc M l) as [E1 E2].
  apply shr_upper; try assumption.
  - now rewrite E1.
  - assert (M <= 2 ^ (K - e)) by (destruct l; simpl in H; lia).
    pose proof (Zdigits2_le M (K - e) HM ltac:(lia) H0).
    pose proof (fexp_le (Zdigits2 M + e) K ltac:(lia) Hmin). lia.
  - rewrite E1, E2. exact H.
Qed.

Lemma round_nearest_even_upper (mrs : shr_record) :
  0 <= shr_m mrs ->
  0 <= round_nearest_even (shr_m mrs) (loc_of_shr_record mrs)
     <= shr_m mrs + Z.b2z (inexact mrs).
Proof.
  destruct mrs as [m [|] [|]]; unfold inexact; simpl; intros H;
    try destruct (Z.even m); lia.
Qed.

(** Rounding does not take a value over a power of two that bounds it. *)
Lemma binary_round_aux_Bnd (s : bool) (M e K : Z) (l : location) :
  0 <= M -> e <= K -> SpecFloat.emin prec emax <= K -> K <= emax - prec ->
  upper M l <= 2 ^ (K - e) ->
  Bnd K (binary_round_aux prec emax s M e l).
Proof.
  intros HM He Hmin Hmax H. unfold binary_round_aux.
  pose proof (shr_fexp_upper M e K l HM He Hmin H) as H1.
  destruct (shr_fexp prec emax M e l) as [mrs1 e1].
  cbn [fst snd] in H1. destruct H1 as (He1 & Hm1 & Hu1).
  pose proof (round_nearest_even_upper mrs1 Hm1) as Hr.
  set (m2 := round_nearest_even (shr_m mrs1) (loc_of_shr_record mrs1)) in *.
  pose proof (shr_fexp_upper m2 e1 K loc_Exact ltac:(lia) ltac:(lia) Hmin)
    as H2.
  cbn [upper] in H2. specialize (H2 ltac:(lia)).
  destruct (shr_fexp prec emax m2 e1 loc_Exact) as [mrs3 e3].
  cbn [fst snd] in H2. destruct H2 as (He3 & Hm3 & Hu3).
  destruct (shr_m mrs3) as [|m3|m3] eqn:E3; simpl; try lia; try exact I.
  match goal with
  | |- context [Z.leb e3 ?u] => destruct (Z.leb_spec e3 u) as [L|L]
  end; [|unfold emax, prec in *; lia].
  simpl. split; [lia|].
  destruct (inexact mrs3); cbn [Z.b2z] in Hu3; lia.
Qed.

End RoundUpper.

Section OpsUpper.
Local Open Scope Z_scope.

Lemma Bnd_mono (K K' : Z) (f : spec_float) :
  K <= K' -> Bnd K f -> Bnd K' f.
Proof.
  intros HK. destruct f as [s|s| |s m e]; simpl; try tauto.
  intros [He Hm]. split; [lia|].
  apply Z.le_trans with (2 ^ (K - e)); [exact Hm|].
  apply Z.pow_le_mono_r; lia.
Qed.

Lemma Bnd_opp (K : Z) (f : spec_float) : Bnd K f -> Bnd K (SFopp f).
Proof. destruct f; simpl; tauto. Qed.

Lemma pos_iter_xO (m d : positive) :
  Zpos (Pos.iter xO m d) = Zpos m * 2 ^ Zpos d.
Proof.
  induction d as [|d IH] using Pos.peano_ind.
  - simpl. lia.
  - rewrite Pos.iter_succ, Pos2Z.inj_xO, IH, Pos2Z.inj_succ.
    rewrite Z.pow_succ_r by lia. ring.
Qed.

Lemma shl_align_spec (m : positive) (e e' : Z) :
  snd (shl_align m e e') = Z.min e e'
  /\ Zpos (fst (shl_align m e e')) = Zpos m * 2 ^ (e - Z.min e e').
Proof.
  unfold shl_align. destruct (e' - e) as [|d|d] eqn:E; cbn [fst snd].
  - replace (Z.min e e') with e by lia. rewrite Z.sub_diag. simpl. lia.
  - replace (Z.min e e') with e by lia. rewrite Z.sub_diag. simpl. lia.
  - replace (Z.min e e') with e' by lia. split; [reflexivity|].
    rewrite pos_iter_xO. f_equal. f_equal. lia.
Qed.

Lemma binary_normalize_Bnd (S e K : Z) (sz : bool) :
  e <= K -> SpecFloat.emin prec emax <= K -> K <= emax - prec ->
  Z.abs S <= 2 ^ (K - e) ->
  Bnd K (binary_normalize prec emax S e sz).
Proof.
  intros He Hmin Hmax H.
  assert (R : forall s m, Zpos m <= 2 ^ (K - e) ->
                Bnd K (binary_round prec emax s m e)).
  { intros s m Hm. unfold binary_round.
    destruct (shl_align_spec m e
                (SpecFloat.fexp prec emax (Zpos (digits2_pos m) + e)))
      as [E1 E2].
    destruct (shl_align m e _) as [mz ez]. cbn [fst snd] in E1, E2.
    rewrite <- E1 in E2.
    apply binary_round_aux_Bnd; try assumption; try lia.
    cbn [upper]. rewrite E2.
    replace (K - ez) with ((K - e) + (e - ez)) by lia.
    rewrite Z.pow_add_r by lia.
    apply Z.mul_le_mono_nonneg_r; [apply Z.pow_nonneg; lia|exact Hm]. }
  destruct S as [|m|m]; simpl; [exact I| |]; apply R; simpl in H; lia.
Qed.

Lemma aligned_Bnd (K : Z) (m : positive) (e ez : Z) :
  e <= K -> Zpos m <= 2 ^ (K - e) -> ez <= e ->
  Zpos (fst (shl_align m e ez)) <= 2 ^ (K - ez).
Proof.
  intros He Hm Hz. destruct (shl_align_spec m e ez) as [_ ->].
  replace (Z.min e ez) with ez by lia.
  replace (K - ez) with ((K - e) + (e - ez)) by lia.
  rewrite Z.pow_add_r by lia.
  apply Z.mul_le_mono_nonneg_r; [apply Z.pow_nonneg; lia|exact Hm].
Qed.

Lemma cond_Zopp_abs (s : bool) (m : Z) : Z.abs (cond_Zopp s m) = Z.abs m.
Proof. destruct s; simpl; lia. Qed.

Lemma SFadd_Bnd (K : Z) (u v : spec_float) :
  SpecFloat.emin prec emax <= K + 1 -> K + 1 <= emax - prec ->
  Bnd K u -> Bnd K v -> Bnd (K + 1) (SFadd prec emax u v).
Proof.
  intros Hmin Hmax Hu Hv.
  destruct u as [su|su| |su mu eu], v as [sv|sv| |sv mv ev];
    simpl in Hu, Hv; try contradiction.
  - simpl. destruct su, sv; exact I.
  - apply (Bnd_mono K (K + 1) (S754_finite sv mv ev)); [lia|exact Hv].
  - apply (Bnd_mono K (K + 1) (S754_finite su mu eu)); [lia|exact Hu].
  - destruct Hu as [Eu Mu], Hv as [Ev Mv]. cbn [SFadd].
    change (IntDef.Z.min eu ev) with (Z.min eu ev).
    apply binary_normalize_Bnd; try assumption; try lia.
    pose proof (aligned_Bnd K mu eu (Z.min eu ev) Eu Mu ltac:(lia)) as A.
    pose proof (aligned_Bnd K mv ev (Z.min eu ev) Ev Mv ltac:(lia)) as B.
    replace (K + 1 - Z.min eu ev) with ((K - Z.min eu ev) + 1) by lia.
    rewrite Z.pow_add_r, Z.pow_1_r by lia.
    destruct su, sv; cbn [cond_Zopp]; lia.
Qed.

Lemma SFsub_Bnd (K : Z) (u v : spec_float) :
  SpecFloat.emin prec emax <= K + 1 -> K + 1 <= emax - prec ->
  Bnd K u -> Bnd K v -> Bnd (K + 1) (SFsub prec emax u v).
Proof.
  intros Hmin Hmax Hu Hv.
  destruct u as [su|su| |su mu eu], v as [sv|sv| |sv mv ev];
    simpl in Hu, Hv; try contradiction.
  - simpl. destruct su, sv; exact I.
  - apply (Bnd_mono K (K + 1) (S754_finite (negb sv) mv ev));
      [lia|exact Hv].
  - apply (Bnd_mono K (K + 1) (S754_finite su mu eu)); [lia|exact Hu].
  - destruct Hu as [Eu Mu], Hv as [Ev Mv]. cbn [SFsub].
    change (IntDef.Z.min eu ev) with (Z.min eu ev).
    apply binary_normalize_Bnd; try assumption; try lia.
    pose proof (aligned_Bnd K mu eu (Z.min eu ev) Eu Mu ltac:(lia)) as A.
    pose proof (aligned_Bnd K mv ev (Z.min eu ev) Ev Mv ltac:(lia)) as B.
    replace (K + 1 - Z.min eu ev) with ((K - Z.min eu ev) + 1) by lia.
    rewrite Z.pow_add_r, Z.pow_1_r by lia.
    destruct su, sv; cbn [cond_Zopp]; lia.
Qed.

Lemma SFmul_Bnd (K1 K2 : Z) (u v : spec_float) :
  SpecFloat.emin prec emax <= K1 + K2 -> K1 + K2 <= emax - prec ->
  Bnd K1 u -> Bnd K2 v -> Bnd (K1 + K2) (SFmul prec emax u v).
Proof.
  intros Hmin Hmax Hu Hv.
  destruct u as [su|su| |su mu eu], v as [sv|sv| |sv mv ev];
    simpl in Hu, Hv; try contradiction; try exact I.
  destruct Hu as [Eu Mu], Hv as [Ev Mv]. cbn [SFmul].
  apply binary_round_aux_Bnd; try assumption; try lia.
  cbn [upper]. rewrite Pos2Z.inj_mul.
  replace (K1 + K2 - (eu + ev)) with ((K1 - eu) + (K2 - ev)) by lia.
  rewrite Z.pow_add_r by lia.
  apply Z.mul_le_mono_nonneg; lia.
Qed.

Lemma SFdiv_two_Bnd (K : Z) (u : spec_float) :
  SpecFloat.emin prec emax <= K -> K <= emax - prec ->
  Bnd K u -> Bnd K (SFdiv prec emax u SFtwo).
Proof.
  intros Hmin Hmax Hu.
  destruct u as [su|su| |su mu eu]; simpl in Hu; try contradiction;
    [exact I|].
  destruct Hu as [Eu Mu]. unfold SFtwo. cbn [SFdiv].
  unfold SFdiv_core_binary.
  set (my := 4503599627370496%positive) in *.
  change (Zdigits2 (Zpos my)) with 53.
  cbn [Zdigits2].
  set (d1 := Zpos (digits2_pos mu)).
  set (e' := Z.min (SpecFloat.fexp prec emax (d1 + eu - (53 + -51)))
                   (eu - -51)).
  assert (Hd : d1 <= K - eu + 1)
    by (apply (Zdigits2_le (Zpos mu) (K - eu)); lia).
  assert (He' : e' <= K).
  { pose proof (fexp_le (d1 + eu - (53 + -51)) K ltac:(lia) Hmin).
    subst e'. lia. }
  assert (Hs : 0 <= eu - -51 - e') by (subst e'; lia).
  set (s := eu - -51 - e') in *.
  set (m' := match s with
             | 0 => Zpos mu
             | Zpos _ => Z.shiftl (Zpos mu) s
             | Zneg _ => 0
             end).
  assert (Hm' : m' = Zpos mu * 2 ^ s).
  { subst m'. destruct s as [|p|p] eqn:Es; try lia.
    now rewrite Z.shiftl_mul_pow2 by lia. }
  destruct (Z.div_eucl m' (Zpos my)) as [q r] eqn:E.
  assert (Hq : q = m' / Zpos my) by (unfold Z.div; now rewrite E).
  apply binary_round_aux_Bnd; try assumption.
  - rewrite Hq. apply Z.div_pos; [rewrite Hm'|lia].
    apply Z.mul_nonneg_nonneg; [lia|apply Z.pow_nonneg; lia].
  - apply Z.le_trans with (q + 1);
      [destruct (new_location (Zpos my) r); simpl; lia|].
    assert (Hq0 : 0 <= q).
    { rewrite Hq. apply Z.div_pos; [rewrite Hm'|lia].
      apply Z.mul_nonneg_nonneg; [lia|apply Z.pow_nonneg; lia]. }
    assert (Hqm : Zpos my * q <= m')
      by (rewrite Hq; apply Z.mul_div_le; lia).
    assert (Hb : m' <= 2 ^ (K - e') * 2 ^ 51).
    { rewrite Hm', <- Z.pow_add_r by lia.
      replace (K - e' + 51) with ((K - eu) + s) by (subst s; lia).
      rewrite Z.pow_add_r by lia.
      apply Z.mul_le_mono_nonneg_r; [apply Z.pow_nonneg; lia|exact Mu]. }
    assert (Hp : 1 <= 2 ^ (K - e'))
      by (apply (Z.pow_le_mono_r 2 0); lia).
    change (2 ^ 51) with 2251799813685248 in Hb.
    subst my. lia.
Qed.

End OpsUpper.

Section FloatUpper.
Local Open Scope float_scope.

Lemma Prim2SF_two : Prim2SF 2 = SFtwo.
Proof. reflexivity. Qed.

Lemma bnd_mono (K K' : Z) (f : float) : (K <= K')%Z -> bnd K f -> bnd K' f.
Proof. apply Bnd_mono. Qed.

Lemma bnd_notNaN (K : Z) (f : float) : bnd K f -> notNaN f.
Proof. unfold bnd, notNaN. intros H E. rewrite E in H. exact H. Qed.

Lemma bnd_add (K : Z) (u v : float) :
  (-1075 <= K <= 970)%Z -> bnd K u -> bnd K v -> bnd (K + 1) (u + v).
Proof.
  intros HK Hu Hv. unfold bnd. rewrite FloatAxioms.add_spec.
  apply SFadd_Bnd; try assumption;
    unfold SpecFloat.emin, prec, emax; lia.
Qed.

Lemma bnd_sub (K : Z) (u v : float) :
  (-1075 <= K <= 970)%Z -> bnd K u -> bnd K v -> bnd (K + 1) (u - v).
Proof.
  intros HK Hu Hv. unfold bnd. rewrite FloatAxioms.sub_spec.
  apply SFsub_Bnd; try assumption;
    unfold SpecFloat.emin, prec, emax; lia.
Qed.

Lemma bnd_mul (K1 K2 : Z) (u v : float) :
  (-1074 <= K1 + K2 <= 971)%Z -> bnd K1 u -> bnd K2 v ->
  bnd (K1 + K2) (u * v).
Proof.
  intros HK Hu Hv. unfold bnd. rewrite FloatAxioms.mul_spec.
  apply SFmul_Bnd; try assumption;
    unfold SpecFloat.emin, prec, emax; lia.
Qed.

Lemma bnd_half (K : Z) (u : float) :
  (-1074 <= K <= 971)%Z -> bnd K u -> bnd K (u / 2).
Proof.
  intros HK Hu. unfold bnd. rewrite FloatAxioms.div_spec, Prim2SF_two.
  apply SFdiv_two_Bnd; try assumption;
    unfold SpecFloat.emin, prec, emax; lia.
Qed.

(** What the validity of a [double] says of its mantissa. *)
Lemma valid_canonical (f : float) (s : bool) (m : positive) (e : Z) :
  Prim2SF f = S754_finite s m e ->
  (e = SpecFloat.fexp prec emax (Zpos (digits2_pos m) + e))%Z.
Proof.
  intros E. pose proof (FloatAxioms.Prim2SF_valid f) as V.
  rewrite E in V. unfold valid_binary, bounded, canonical_mantissa in V.
  apply andb_true_iff in V. destruct V as [V _].
  apply Z.eqb_eq in V. now symmetry.
Qed.

Lemma valid_mantissa (f : float) (s : bool) (m : positive) (e : Z) :
  Prim2SF f = S754_finite s m e -> (Zpos m < 2 ^ 53)%Z.
Proof.
  intros E. pose proof (valid_canonical f s m e E) as C.
  unfold SpecFloat.fexp, prec in C.
  pose proof (digits2_pos_upper m) as U.
  apply Z.lt_le_trans with (2 ^ Zpos (digits2_pos m))%Z; [exact U|].
  apply Z.pow_le_mono_r; lia.
Qed.

(** [|f| <= 2^K], read off a comparison of the program's arithmetic. *)
Lemma leb_bnd (K : Z) (B f : float) :
  Prim2SF B = S754_finite false 4503599627370496 (K - 52) ->
  (abs f <=? B) = true -> bnd K f.
Proof.
  intros HB H. rewrite FloatAxioms.leb_spec, FloatAxioms.abs_spec, HB in H.
  unfold bnd. destruct (Prim2SF f) as [s|s| |s m e] eqn:E;
    simpl in H; try discriminate; [exact I|].
  pose proof (valid_mantissa f s m e E) as V.
  unfold SFleb, SFcompare in H. cbn [Bnd].
  destruct (Z.compare_spec e (K - 52)) as [->|L|G]; try discriminate.
  - split; [lia|]. replace (K - (K - 52))%Z with 52%Z by lia.
    change (2 ^ 52)%Z with (Zpos 4503599627370496).
    rewrite Pos.compare_cont_spec in H. cbn [Pos.switch_Eq] in H.
    set (P := 4503599627370496%positive) in *.
    destruct (Pos.compare_spec m P) as [->|L|G]; try discriminate; lia.
  - split; [lia|]. apply Z.lt_le_incl, Z.lt_le_trans with (2 ^ 53)%Z;
      [exact V|]. apply Z.pow_le_mono_r; lia.
Qed.

(** A value of magnitude at most [2^-32] is not above [1e-9]. *)
Lemma ltb_eps_bnd (d : float) : bnd (-32) d -> (1e-9 <? d) = false.
Proof.
  unfold bnd. intros H. rewrite FloatAxioms.ltb_spec.
  destruct (Prim2SF d) as [s|s| |s m e] eqn:E; simpl in H;
    try contradiction; [reflexivity|].
  destruct H as [He Hm].
  pose proof (valid_canonical d s m e E) as C.
  pose proof (Zdigits2_le (Zpos m) (-32 - e) ltac:(lia) ltac:(lia) Hm) as D.
  cbn [Zdigits2] in D. unfold SpecFloat.fexp, SpecFloat.emin, prec, emax in C.
  assert (L : (e < -82)%Z) by lia.
  change (Prim2SF 1e-9) with (S754_finite false 4835703278458517 (-82)).
  unfold SFltb, SFcompare. destruct s; [reflexivity|].
  destruct (Z.compare_spec (-82) e); try reflexivity; lia.
Qed.

End FloatUpper.

(** ** Inputs of small magnitude *)

Section SmallInput64.
Local Open Scope float_scope.

Lemma pointBnd_mono (K K' : Z) (p : Point float) :
  (K <= K')%Z -> pointBnd K p -> pointBnd K' p.
Proof. intros H [Hx Hy]. split; now apply (bnd_mono K). Qed.

(** Six coordinates of magnitude at most [2^-10]: the determinant has
    magnitude at most [2^-32], which is below [1e-9]. *)
Lemma inCircumcircle_small (p : Point float) (t : Triangle float) :
  pointBnd (-10) p -> pointBnd (-10) (a t) -> pointBnd (-10) (b t) ->
  pointBnd (-10) (c t) -> inCircumcircle p t = false.
Proof.
  intros [Px Py] [Ax Ay] [Bx By] [Cx Cy].
  unfold inCircumcircle. b64. apply ltb_eps_bnd.
  assert (D : forall u v, bnd (-10) u -> bnd (-10) v -> bnd (-9) (u - v))
    by (intros u v Hu Hv; apply (bnd_sub (-10)); [lia|assumption..]).
  pose proof (D _ _ Ax Px) as Hax. pose proof (D _ _ Ay Py) as Hay.
  pose proof (D _ _ Bx Px) as Hbx. pose proof (D _ _ By Py) as Hby.
  pose proof (D _ _ Cx Px) as Hcx. pose proof (D _ _ Cy Py) as Hcy.
  set (ax := x (a t) - x p) in *. set (ay := y (a t) - y p) in *.
  set (bx := x (b t) - x p) in *. set (by_ := y (b t) - y p) in *.
  set (cx := x (c t) - x p) in *. set (cy := y (c t) - y p) in *.
  clearbody ax ay bx by_ cx cy.
  assert (M : forall u v, bnd (-9) u -> bnd (-9) v -> bnd (-18) (u * v))
    by (intros u v Hu Hv; apply (bnd_mul (-9) (-9)); [lia|assumption..]).
  assert (S : forall u v, bnd (-18) u -> bnd (-18) v -> bnd (-17) (u + v))
    by (intros u v Hu Hv; apply (bnd_add (-18)); [lia|assumption..]).
  assert (T : forall u v, bnd (-18) u -> bnd (-18) v -> bnd (-17) (u - v))
    by (intros u v Hu Hv; apply (bnd_sub (-18)); [lia|assumption..]).
  assert (Q : forall u v, bnd (-17) u -> bnd (-17) v -> bnd (-34) (u * v))
    by (intros u v Hu Hv; apply (bnd_mul (-17) (-17)); [lia|assumption..]).
  apply (bnd_add (-33)); [lia| |].
  - apply (bnd_sub (-34)); [lia| |]; apply Q; auto.
  - apply (bnd_mono (-34)); [lia|]. apply Q; auto.
Qed.

Lemma bnd_20 : bnd 5 20.
Proof. unfold bnd. vm_compute. split; discriminate. Qed.

Lemma std_max_bnd (K : Z) (u v : float) :
  bnd K u -> bnd K v -> bnd K (std_max u v).
Proof. intros. destruct (std_max_cases u v) as [->| ->]; assumption. Qed.

(** The corners of the super triangle of a box of magnitude [2^-17]. *)
Lemma superTriangle_small (s : frame float) :
  bnd (-17) (minX s) -> bnd (-17) (minY s) ->
  bnd (-17) (maxX s) -> bnd (-17) (maxY s) ->
  let T := superTriangle_of s in
  pointBnd (-10) (a T) /\ pointBnd (-10) (b T) /\ pointBnd (-10) (c T).
Proof.
  intros H1 H2 H3 H4.
  assert (HD : bnd (-16) (deltaMax_of s)).
  { unfold deltaMax_of. b64.
    apply std_max_bnd; apply (bnd_sub (-17)); try assumption; lia. }
  assert (HmX : bnd (-16) (midX_of s)).
  { unfold midX_of. b64. apply bnd_half; [lia|].
    apply (bnd_add (-17)); try assumption; lia. }
  assert (HmY : bnd (-16) (midY_of s)).
  { unfold midY_of. b64. apply bnd_half; [lia|].
    apply (bnd_add (-17)); try assumption; lia. }
  unfold superTriangle_of.
  set (D := deltaMax_of s) in *. set (mX := midX_of s) in *.
  set (mY := midY_of s) in *. clearbody D mX mY.
  b64. cbv zeta. unfold pointBnd. cbn [a b c x y].
  assert (H20 : bnd (-11) (20 * D))
    by (apply (bnd_mul 5 (-16)); [lia|apply bnd_20|exact HD]).
  assert (G1 : bnd (-11) mX) by (apply (bnd_mono (-16)); [lia|exact HmX]).
  assert (G2 : bnd (-11) mY) by (apply (bnd_mono (-16)); [lia|exact HmY]).
  assert (G3 : bnd (-11) D) by (apply (bnd_mono (-16)); [lia|exact HD]).
  repeat split;
    first [ apply (bnd_sub (-11)); [lia|assumption..]
          | apply (bnd_add (-11)); [lia|assumption..]
          | apply (bnd_mono (-11)); [lia|assumption] ].
Qed.

Lemma small_returns_nothing (pts : list (Point float)) :
  pts <> [] -> (forall p, In p pts -> pointBnd (-17) p) ->
  delaunayTriangulation pts = Returned [].
Proof.
  intros Hne Hs.
  destruct (bounded_frame_nonempty pts Hne) as (s & Hb).
  destruct (bounded_frame_closed (bnd (-17)) pts s Hs Hb)
    as (H1 & H2 & H3 & H4).
  destruct (superTriangle_small s H1 H2 H3 H4) as (Ta & Tb & Tc).
  rewrite (delaunayTriangulation_eq pts s Hb). f_equal.
  rewrite insertAll_unflagged.
  - unfold prune. cbn [filter]. unfold touchesSuper.
    replace (Point_eqb (a (superTriangle_of s)) (a (superTriangle_of s)))
      with true; [reflexivity|].
    symmetry. apply Point_eqb_self. destruct Ta as [Tx Ty].
    split; eapply bnd_notNaN; eassumption.
  - intros p t Hp [<-|[]]. apply inCircumcircle_small; try assumption.
    apply (pointBnd_mono (-17)); [lia|now apply Hs].
Qed.

End SmallInput64.

(** ** Rounding keeps small integers *)

Section Exactness.
Local Open Scope Z_scope.

Lemma valZ_scaled (m e n k : Z) :
  0 <= k -> 0 <= k + e -> m * 2 ^ (k + e) = n * 2 ^ k -> valZ m e n.
Proof.
  intros Hk Hke H. unfold valZ.
  assert (P : forall j, 0 <= j -> 2 ^ j <> 0)
    by (intros j Hj; apply Z.pow_nonzero; lia).
  destruct (Z_le_gt_dec 0 e) as [He|He]; [left|right]; split; try lia.
  - assert (E : 2 ^ (k + e) = 2 ^ e * 2 ^ k)
      by (rewrite <- Z.pow_add_r by lia; f_equal; lia).
    rewrite E, Z.mul_assoc in H.
    apply Z.mul_reg_r in H; [lia|now apply P].
  - assert (E : 2 ^ k = 2 ^ (- e) * 2 ^ (k + e))
      by (rewrite <- Z.pow_add_r by lia; f_equal; lia).
    rewrite E, Z.mul_assoc in H.
    apply Z.mul_reg_r in H; [lia|now apply P].
Qed.

Lemma valZ_scale (m e n : Z) :
  valZ m e n ->
  exists k, 0 <= k /\ 0 <= k + e /\ m * 2 ^ (k + e) = n * 2 ^ k.
Proof.
  intros [[He ->]|[He ->]].
  - exists 0. rewrite Z.add_0_l. change (2 ^ 0) with 1. lia.
  - exists (- e). replace (- e + e) with 0 by lia.
    change (2 ^ 0) with 1. lia.
Qed.

Lemma valZ_opp (m e n : Z) : valZ m e n -> valZ (- m) e (- n).
Proof. intros [[He ->]|[He ->]]; [left|right]; split; lia. Qed.

Lemma valZ_sign (m e n : Z) : valZ m e n -> 0 < m -> 0 < n.
Proof.
  intros [[He ->]|[He ->]] Hm.
  - apply Z.mul_pos_pos; [lia|apply Z.pow_pos_nonneg; lia].
  - assert (0 < 2 ^ (- e)) by (apply Z.pow_pos_nonneg; lia). nia.
Qed.

(** Shifting the mantissa to a lower exponent keeps the value. *)
Lemma valZ_shift (m e e' n : Z) :
  e' <= e -> valZ m e n -> valZ (m * 2 ^ (e - e')) e' n.
Proof.
  intros He H. destruct (valZ_scale m e n H) as (k & Hk & Hke & E).
  apply (valZ_scaled _ _ _ (k + (e - e'))); try lia.
  replace (k + (e - e') + e') with (k + e) by lia.
  rewrite (Z.pow_add_r 2 k (e - e')) by lia.
  replace (m * 2 ^ (e - e') * 2 ^ (k + e))
    with (m * 2 ^ (k + e) * 2 ^ (e - e')) by ring.
  rewrite E. now rewrite Z.mul_assoc.
Qed.

Lemma valZ_add (m1 m2 e n1 n2 : Z) :
  valZ m1 e n1 -> valZ m2 e n2 -> valZ (m1 + m2) e (n1 + n2).
Proof.
  intros [[He ->]|[He ->]] [[He' ->]|[He' ->]]; try lia;
    [left|right]; split; lia.
Qed.

Lemma valZ_mul (m1 m2 e1 e2 n1 n2 : Z) :
  valZ m1 e1 n1 -> valZ m2 e2 n2 -> valZ (m1 * m2) (e1 + e2) (n1 * n2).
Proof.
  intros H1 H2.
  destruct (valZ_scale _ _ _ H1) as (k1 & Hk1 & Hke1 & E1).
  destruct (valZ_scale _ _ _ H2) as (k2 & Hk2 & Hke2 & E2).
  apply (valZ_scaled _ _ _ (k1 + k2)); try lia.
  assert (P1 : 2 ^ (k1 + k2 + (e1 + e2)) = 2 ^ (k1 + e1) * 2 ^ (k2 + e2))
    by (rewrite <- Z.pow_add_r by lia; f_equal; lia).
  assert (P2 : 2 ^ (k1 + k2) = 2 ^ k1 * 2 ^ k2)
    by (apply Z.pow_add_r; lia).
  rewrite P1, P2.
  set (u1 := 2 ^ (k1 + e1)) in *. set (u2 := 2 ^ (k2 + e2)) in *.
  set (v1 := 2 ^ k1) in *. set (v2 := 2 ^ k2) in *.
  replace (m1 * m2 * (u1 * u2)) with ((m1 * u1) * (m2 * u2)) by ring.
  rewrite E1, E2. ring.
Qed.

(** The number of digits of a shifted mantissa. *)
Lemma Zdigits2_unique (M j : Z) :
  0 < M -> 2 ^ (j - 1) <= M < 2 ^ j -> Zdigits2 M = j.
Proof.
  intros HM [L U]. destruct M as [|m|m]; try lia. cbn [Zdigits2].
  pose proof (digits2_pos_lower m) as L'.
  pose proof (digits2_pos_upper m) as U'.
  set (d := Zpos (digits2_pos m)) in *.
  assert (0 < d) by (subst d; lia).
  destruct (Z.lt_trichotomy d j) as [H1|[H1|H1]]; [exfalso| assumption |exfalso].
  - assert (2 ^ d <= 2 ^ (j - 1)) by (apply Z.pow_le_mono_r; lia). lia.
  - destruct (Z_le_gt_dec 0 j) as [Hj|Hj].
    + assert (2 ^ j <= 2 ^ (d - 1)) by (apply Z.pow_le_mono_r; lia). lia.
    + rewrite (Z.pow_neg_r 2 j) in U by lia. lia.
Qed.

Lemma Zdigits2_shift (q n : Z) :
  0 < q -> 0 <= n -> Zdigits2 (q * 2 ^ n) = Zdigits2 q + n.
Proof.
  intros Hq Hn. destruct q as [|m|m]; try lia.
  pose proof (digits2_pos_lower m) as L.
  pose proof (digits2_pos_upper m) as U. cbn [Zdigits2].
  set (d := Zpos (digits2_pos m)) in *.
  assert (0 < d) by (subst d; lia).
  assert (0 < 2 ^ n) by (apply Z.pow_pos_nonneg; lia).
  apply Zdigits2_unique.
  - apply Z.mul_pos_pos; lia.
  - replace (d + n - 1) with ((d - 1) + n) by lia.
    rewrite !Z.pow_add_r by lia. split.
    + apply Z.mul_le_mono_nonneg_r; lia.
    + apply Z.mul_lt_mono_pos_r; lia.
Qed.

End Exactness.

Section RoundExact.
Local Open Scope Z_scope.

Lemma valZ_lt (M e N : Z) :
  0 < M -> valZ M e N -> N < 2 ^ 53 -> e < 53 /\ M < 2 ^ (53 - e).
Proof.
  intros HM [[He ->]|[He ->]] HN.
  - assert (0 < 2 ^ e) by (apply Z.pow_pos_nonneg; lia).
    destruct (Z_lt_ge_dec e 53) as [L|G].
    + split; [exact L|].
      replace 53 with ((53 - e) + e) in HN by lia.
      rewrite Z.pow_add_r in HN by lia.
      apply Z.mul_lt_mono_pos_r in HN; lia.
    + exfalso. assert (2 ^ 53 <= 2 ^ e) by (apply Z.pow_le_mono_r; lia).
      nia.
  - split; [lia|].
    assert (0 < 2 ^ (- e)) by (apply Z.pow_pos_nonneg; lia).
    replace (53 - e) with (53 + - e) by lia.
    rewrite Z.pow_add_r by lia.
    apply Z.mul_lt_mono_pos_r; lia.
Qed.

Lemma Zdigits2_lt (M j : Z) : 0 < M -> M < 2 ^ j -> Zdigits2 M <= j.
Proof.
  intros HM H. destruct M as [|m|m]; try lia. cbn [Zdigits2].
  pose proof (digits2_pos_lower m) as L.
  destruct (Z_le_gt_dec (Zpos (digits2_pos m)) j) as [|G]; [assumption|].
  exfalso. destruct (Z_le_gt_dec 0 j) as [Hj|Hj].
  - assert (2 ^ j <= 2 ^ (Zpos (digits2_pos m) - 1))
      by (apply Z.pow_le_mono_r; lia). lia.
  - rewrite Z.pow_neg_r in H by lia. lia.
Qed.

Lemma exact_loc (mrs : shr_record) :
  inexact mrs = false -> loc_of_shr_record mrs = loc_Exact.
Proof. destruct mrs as [m [|] [|]]; unfold inexact; simpl; congruence. Qed.

Lemma shr_fexp_exact_id (M e : Z) :
  SpecFloat.fexp prec emax (Zdigits2 M + e) <= e ->
  shr_fexp prec emax M e loc_Exact
  = ({| shr_m := M; shr_r := false; shr_s := false |}, e).
Proof.
  intros H. unfold shr_fexp, shr. cbn [shr_record_of_loc].
  destruct (SpecFloat.fexp prec emax (Zdigits2 M + e) - e) eqn:E;
    try reflexivity. lia.
Qed.

(** A value that is an integer below [2^53] is not rounded. *)
Lemma binary_round_aux_exact (s : bool) (M e N : Z) :
  0 < M -> valZ M e N -> N < 2 ^ 53 ->
  exists m' e',
    binary_round_aux prec emax s M e loc_Exact = S754_finite s m' e'
    /\ valZ (Zpos m') e' N.
Proof.
  intros HM HV HN.
  destruct (valZ_lt M e N HM HV HN) as [He HMlt].
  pose proof (Zdigits2_lt M (53 - e) HM HMlt) as Hd.
  set (d := Zdigits2 M) in *.
  set (f1 := SpecFloat.fexp prec emax (d + e)).
  assert (Hf1 : f1 <= 0 /\ (f1 = d + e - 53 \/ f1 = -1074))
    by (subst f1; unfold SpecFloat.fexp, SpecFloat.emin, prec, emax; lia).
  unfold binary_round_aux.
  destruct (Z_le_gt_dec f1 e) as [Hle|Hgt].
  - (* no shift *)
    rewrite (shr_fexp_exact_id M e) by (fold d; fold f1; exact Hle).
    cbn [shr_m loc_of_shr_record round_nearest_even].
    rewrite (shr_fexp_exact_id M e) by (fold d; fold f1; exact Hle).
    cbn [shr_m]. destruct M as [|m|m]; try lia.
    replace (e <=? emax - prec) with true
      by (symmetry; apply Z.leb_le; unfold emax, prec; lia).
    exists m, e. split; [reflexivity|exact HV].
  - (* [f1 - e] bits are shifted out, all of them zeros *)
    assert (He0 : e < 0) by lia.
    destruct HV as [[Hc _]|[_ HMN]]; [lia|].
    set (q := N * 2 ^ (- f1)).
    assert (HNpos : 0 < N).
    { assert (0 < 2 ^ (- e)) by (apply Z.pow_pos_nonneg; lia). nia. }
    assert (Hq : 0 < q)
      by (subst q; apply Z.mul_pos_pos;
          [lia|apply Z.pow_pos_nonneg; lia]).
    assert (HMq : M = q * 2 ^ (f1 - e)).
    { subst q. rewrite HMN, <- Z.mul_assoc, <- Z.pow_add_r by lia.
      do 2 f_equal. lia. }
    assert (S1 : shr_fexp prec emax M e loc_Exact
                 = ({| shr_m := q; shr_r := false; shr_s := false |}, f1)).
    { unfold shr_fexp, shr. fold d. fold f1. cbn [shr_record_of_loc].
      destruct (f1 - e) as [|p|p] eqn:Ep; try lia.
      rewrite iter_pos_nat.
      destruct (iter_shr_1_exact (Pos.to_nat p)
                  {| shr_m := M; shr_r := false; shr_s := false |} q)
        as [I1 I2]; try lia; try reflexivity.
      { cbn [shr_m]. rewrite positive_nat_Z. exact HMq. }
      destruct (Nat.iter (Pos.to_nat p) shr_1 _) as [m1 r1 s1].
      unfold inexact in I1. cbn [shr_m shr_r shr_s] in *.
      apply orb_false_iff in I1. destruct I1 as [-> ->]. subst m1.
      f_equal. lia. }
    rewrite S1. cbn [shr_m loc_of_shr_record round_nearest_even].
    assert (Hdq : Zdigits2 q + f1 = d + e).
    { subst d. rewrite HMq, Zdigits2_shift by lia. lia. }
    rewrite (shr_fexp_exact_id q f1) by (rewrite Hdq; fold f1; lia).
    assert (Hqv : valZ q f1 N).
    { destruct (Z_lt_ge_dec f1 0) as [L|G]; [right|left]; split;
        try lia; try reflexivity.
      assert (E0 : f1 = 0) by lia. unfold q. rewrite E0.
      change (2 ^ (- 0)) with 1. change (2 ^ 0) with 1. lia. }
    cbn [shr_m]. clearbody q. destruct q as [|m|m]; try lia.
    replace (f1 <=? emax - prec) with true
      by (symmetry; apply Z.leb_le; unfold emax, prec; lia).
    exists m, f1. split; [reflexivity|exact Hqv].
Qed.

End RoundExact.

Section OpsExact.
Local Open Scope Z_scope.

Lemma valZ_zero (e n : Z) : valZ 0 e n -> n = 0.
Proof.
  intros [[He ->]|[He H]]; [lia|].
  assert (0 < 2 ^ (- e)) by (apply Z.pow_pos_nonneg; lia). nia.
Qed.

Lemma cond_Zopp_mul (s : bool) (m c : Z) :
  cond_Zopp s m * c = cond_Zopp s (m * c).
Proof. destruct s; simpl; lia. Qed.

Lemma valZ_cond (s : bool) (m e n : Z) :
  valZ (cond_Zopp s m) e n -> valZ m e (cond_Zopp s n).
Proof.
  destruct s; simpl; [|trivial]. intros H. apply valZ_opp in H.
  now rewrite Z.opp_involutive in H.
Qed.

Lemma valZ_uncond (s : bool) (m e n : Z) :
  valZ m e (cond_Zopp s n) -> valZ (cond_Zopp s m) e n.
Proof.
  destruct s; simpl; [|trivial]. intros H. apply valZ_opp in H.
  now rewrite Z.opp_involutive in H.
Qed.

Lemma binary_round_int (s : bool) (m : positive) (e N : Z) :
  valZ (Zpos m) e N -> N < 2 ^ 53 ->
  SFint (binary_round prec emax s m e) (cond_Zopp s N).
Proof.
  intros HV HN. unfold binary_round.
  destruct (shl_align_spec m e
              (SpecFloat.fexp prec emax (Zpos (digits2_pos m) + e)))
    as [E1 E2].
  destruct (shl_align m e _) as [mz ez]. cbn [fst snd] in E1, E2.
  rewrite <- E1 in E2.
  assert (HV' : valZ (Zpos mz) ez N)
    by (rewrite E2; apply valZ_shift; [lia|exact HV]).
  destruct (binary_round_aux_exact s (Zpos mz) ez N ltac:(lia) HV' HN)
    as (m' & e' & -> & V).
  cbn [SFint]. apply valZ_uncond.
  destruct s; simpl; [now rewrite Z.opp_involutive|exact V].
Qed.

Lemma binary_normalize_int (S e N : Z) (sz : bool) :
  valZ S e N -> Z.abs N < 2 ^ 53 ->
  SFint (binary_normalize prec emax S e sz) N.
Proof.
  intros HV HN. destruct S as [|m|m]; cbn [binary_normalize].
  - apply valZ_zero in HV. exact HV.
  - apply (binary_round_int false m e N HV). lia.
  - apply valZ_opp in HV. cbn [Z.opp] in HV.
    pose proof (binary_round_int true m e (- N) HV ltac:(lia)) as H.
    cbn [cond_Zopp] in H. now rewrite Z.opp_involutive in H.
Qed.

Lemma aligned_valZ (s : bool) (m : positive) (e ez n : Z) :
  ez <= e -> valZ (cond_Zopp s (Zpos m)) e n ->
  valZ (cond_Zopp s (Zpos (fst (shl_align m e ez)))) ez n.
Proof.
  intros Hz HV. destruct (shl_align_spec m e ez) as [_ ->].
  replace (Z.min e ez) with ez by lia.
  rewrite <- cond_Zopp_mul. now apply valZ_shift.
Qed.

Lemma SFadd_int (u v : spec_float) (a b : Z) :
  SFint u a -> SFint v b -> Z.abs (a + b) < 2 ^ 53 ->
  SFint (SFadd prec emax u v) (a + b).
Proof.
  intros Hu Hv H.
  destruct u as [su|su| |su mu eu], v as [sv|sv| |sv mv ev];
    cbn [SFint] in Hu, Hv; try contradiction.
  - subst. cbn [SFadd]. destruct su, sv; reflexivity.
  - subst. cbn [SFadd SFint]. exact Hv.
  - subst. cbn [SFadd SFint]. now rewrite Z.add_0_r.
  - cbn [SFadd]. change (IntDef.Z.min eu ev) with (Z.min eu ev).
    apply binary_normalize_int; [|exact H].
    apply valZ_add; apply aligned_valZ; try assumption; lia.
Qed.

Lemma SFsub_int (u v : spec_float) (a b : Z) :
  SFint u a -> SFint v b -> Z.abs (a - b) < 2 ^ 53 ->
  SFint (SFsub prec emax u v) (a - b).
Proof.
  intros Hu Hv H.
  destruct u as [su|su| |su mu eu], v as [sv|sv| |sv mv ev];
    cbn [SFint] in Hu, Hv; try contradiction.
  - subst. cbn [SFsub]. destruct su, sv; reflexivity.
  - subst. cbn [SFsub SFint]. apply valZ_opp in Hv.
    replace (0 - b) with (- b) by lia.
    destruct sv; cbn [negb cond_Zopp] in *; exact Hv.
  - subst. cbn [SFsub SFint]. now rewrite Z.sub_0_r.
  - cbn [SFsub]. change (IntDef.Z.min eu ev) with (Z.min eu ev).
    apply binary_normalize_int; [|exact H].
    replace (a - b) with (a + - b) by lia.
    change (IntDef.Z.sub ?x ?y) with (Z.sub x y).
    rewrite <- Z.add_opp_r.
    apply valZ_add; [apply aligned_valZ; try assumption; lia|].
    apply valZ_opp. apply aligned_valZ; try assumption; lia.
Qed.

Lemma SFmul_int (u v : spec_float) (a b : Z) :
  SFint u a -> SFint v b -> Z.abs (a * b) < 2 ^ 53 ->
  SFint (SFmul prec emax u v) (a * b).
Proof.
  intros Hu Hv H.
  destruct u as [su|su| |su mu eu], v as [sv|sv| |sv mv ev];
    cbn [SFint] in Hu, Hv; try contradiction;
    try (subst; cbn [SFmul SFint]; lia).
  cbn [SFmul]. apply valZ_cond in Hu, Hv.
  pose proof (valZ_mul _ _ _ _ _ _ Hu Hv) as HV.
  assert (Ha : 0 < cond_Zopp su a) by (apply (valZ_sign _ _ _ Hu); lia).
  assert (Hb : 0 < cond_Zopp sv b) by (apply (valZ_sign _ _ _ Hv); lia).
  rewrite <- Pos2Z.inj_mul in HV.
  destruct (binary_round_aux_exact (xorb su sv) (Zpos (mu * mv)) (eu + ev)
              (cond_Zopp su a * cond_Zopp sv b) ltac:(lia) HV)
    as (m' & e' & E & V).
  { destruct su, sv; cbn [cond_Zopp] in *; lia. }
  change (IntDef.Z.add eu ev) with (eu + ev).
  change (PosDef.Pos.mul mu mv) with (mu * mv)%positive.
  rewrite E. cbn [SFint]. apply valZ_uncond.
  replace (cond_Zopp (xorb su sv) (a * b))
    with (cond_Zopp su a * cond_Zopp sv b); [exact V|].
  destruct su, sv; cbn [xorb cond_Zopp]; lia.
Qed.

End OpsExact.

Section FloatExact.
Local Open Scope float_scope.

Lemma pow2_lt_53 (K : Z) : (K <= 52)%Z -> (2 ^ K < 2 ^ 53)%Z.
Proof.
  intros H. destruct (Z_le_gt_dec 0 K).
  - apply Z.pow_lt_mono_r; lia.
  - rewrite Z.pow_neg_r by lia. reflexivity.
Qed.

Lemma isInt_mono (K K' : Z) (f : float) (n : Z) :
  (0 <= K <= K')%Z -> isInt K f n -> isInt K' f n.
Proof.
  intros HK [H1 H2]. split; [exact H1|].
  apply Z.le_trans with (2 ^ K)%Z; [exact H2|].
  apply Z.pow_le_mono_r; lia.
Qed.

Lemma isInt_add (K : Z) (u v : float) (a b : Z) :
  (0 <= K <= 51)%Z -> isInt K u a -> isInt K v b ->
  isInt (K + 1) (u + v) (a + b).
Proof.
  intros HK [Hu Ha] [Hv Hb].
  assert (B : (Z.abs (a + b) <= 2 ^ (K + 1))%Z)
    by (rewrite Z.pow_add_r, Z.pow_1_r by lia; lia).
  pose proof (pow2_lt_53 (K + 1) ltac:(lia)).
  split; [|exact B]. rewrite FloatAxioms.add_spec.
  apply SFadd_int; try assumption. lia.
Qed.

Lemma isInt_sub (K : Z) (u v : float) (a b : Z) :
  (0 <= K <= 51)%Z -> isInt K u a -> isInt K v b ->
  isInt (K + 1) (u - v) (a - b).
Proof.
  intros HK [Hu Ha] [Hv Hb].
  assert (B : (Z.abs (a - b) <= 2 ^ (K + 1))%Z)
    by (rewrite Z.pow_add_r, Z.pow_1_r by lia; lia).
  pose proof (pow2_lt_53 (K + 1) ltac:(lia)).
  split; [|exact B]. rewrite FloatAxioms.sub_spec.
  apply SFsub_int; try assumption. lia.
Qed.

Lemma isInt_mul (K1 K2 : Z) (u v : float) (a b : Z) :
  (0 <= K1)%Z -> (0 <= K2)%Z -> (K1 + K2 <= 52)%Z ->
  isInt K1 u a -> isInt K2 v b -> isInt (K1 + K2) (u * v) (a * b).
Proof.
  intros H1 H2 HK [Hu Ha] [Hv Hb].
  assert (B : (Z.abs (a * b) <= 2 ^ (K1 + K2))%Z).
  { rewrite Z.abs_mul, Z.pow_add_r by lia.
    apply Z.mul_le_mono_nonneg; lia. }
  pose proof (pow2_lt_53 (K1 + K2) HK).
  split; [|exact B]. rewrite FloatAxioms.mul_spec.
  apply SFmul_int; try assumption. lia.
Qed.

(** An integer is above [1e-9] exactly when it is positive. *)
Lemma ltb_eps_int (K : Z) (d : float) (n : Z) :
  isInt K d n -> (1e-9 <? d) = (0 <? n)%Z.
Proof.
  intros [H _]. rewrite FloatAxioms.ltb_spec.
  change (Prim2SF 1e-9) with (S754_finite false 4835703278458517 (-82)).
  destruct (Prim2SF d) as [s|s| |s m e] eqn:E; cbn [SFint] in H;
    try contradiction.
  - subst n. reflexivity.
  - pose proof (valid_canonical d s m e E) as C.
    unfold SFltb, SFcompare. destruct s; cbn [cond_Zopp] in H.
    + apply valZ_opp in H. apply valZ_sign in H; [|lia].
      symmetry. apply Z.ltb_ge. lia.
    + pose proof (valZ_sign _ _ _ H ltac:(lia)) as Hn.
      replace (0 <? n)%Z with true by (symmetry; apply Z.ltb_lt; lia).
      assert (L : (-82 < e)%Z).
      { destruct H as [[He _]|[He Hm]]; [lia|].
        pose proof (digits2_pos_upper m) as U.
        assert (P : (2 ^ (- e) <= Zpos m)%Z).
        { rewrite Hm. assert (0 < 2 ^ (- e))%Z
            by (apply Z.pow_pos_nonneg; lia). nia. }
        assert (D : (- e < Zpos (digits2_pos m))%Z).
        { apply (Z.pow_lt_mono_r_iff 2); lia. }
        unfold SpecFloat.fexp, SpecFloat.emin, prec, emax in C. lia. }
      destruct (Z.compare_spec (-82) e); try reflexivity; lia.
Qed.

End FloatExact.

(** ** The determinant on the integer grid *)

Section Grid64.
Local Open Scope float_scope.

(** On the grid no operation of the determinant rounds. *)
Lemma circumDet_grid (p : Point float) (t : Triangle float)
    (pz : Point Z) (tz : Triangle Z) :
  gridPoint p pz -> gridTriangle t tz ->
  isInt 52 (circumDet p t) (detOf pz tz).
Proof.
  intros [Px Py] ([Ax Ay] & [Bx By] & [Cx Cy]).
  unfold circumDet, detOf, detZ. b64. cbv zeta.
  assert (D : forall u v m n, isInt 11 u m -> isInt 11 v n ->
                isInt 12 (u - v) (m - n))
    by (intros; apply (isInt_sub 11); [lia|assumption..]).
  pose proof (D _ _ _ _ Ax Px) as Hax. pose proof (D _ _ _ _ Ay Py) as Hay.
  pose proof (D _ _ _ _ Bx Px) as Hbx. pose proof (D _ _ _ _ By Py) as Hby.
  pose proof (D _ _ _ _ Cx Px) as Hcx. pose proof (D _ _ _ _ Cy Py) as Hcy.
  set (ax := x (a t) - x p) in *. set (ay := y (a t) - y p) in *.
  set (bx := x (b t) - x p) in *. set (by_ := y (b t) - y p) in *.
  set (cx := x (c t) - x p) in *. set (cy := y (c t) - y p) in *.
  clearbody ax ay bx by_ cx cy.
  set (zax := (x (a tz) - x pz)%Z) in *.
  set (zay := (y (a tz) - y pz)%Z) in *.
  set (zbx := (x (b tz) - x pz)%Z) in *.
  set (zby := (y (b tz) - y pz)%Z) in *.
  set (zcx := (x (c tz) - x pz)%Z) in *.
  set (zcy := (y (c tz) - y pz)%Z) in *.
  clearbody zax zay zbx zby zcx zcy.
  assert (M : forall u v m n, isInt 12 u m -> isInt 12 v n ->
                isInt 24 (u * v) (m * n))
    by (intros; apply (isInt_mul 12 12); try lia; assumption).
  assert (S : forall u v m n, isInt 24 u m -> isInt 24 v n ->
                isInt 25 (u + v) (m + n))
    by (intros; apply (isInt_add 24); [lia|assumption..]).
  assert (T : forall u v m n, isInt 24 u m -> isInt 24 v n ->
                isInt 25 (u - v) (m - n))
    by (intros; apply (isInt_sub 24); [lia|assumption..]).
  assert (Q : forall u v m n, isInt 25 u m -> isInt 25 v n ->
                isInt 50 (u * v) (m * n))
    by (intros; apply (isInt_mul 25 25); try lia; assumption).
  apply (isInt_add 51); [lia| |].
  - apply (isInt_sub 50); [lia| |]; apply Q; auto.
  - apply (isInt_mono 50); [lia|]. apply Q; auto.
Qed.

Lemma inCircumcircle_grid (p : Point float) (t : Triangle float)
    (pz : Point Z) (tz : Triangle Z) :
  gridPoint p pz -> gridTriangle t tz ->
  inCircumcircle p t = (0 <? detOf pz tz)%Z.
Proof.
  intros Hp Ht. rewrite inCircumcircle_det. b64.
  apply (ltb_eps_int 52). now apply circumDet_grid.
Qed.

End Grid64.

(** ** Integers as [double]s

    Every integer below [2^53] in magnitude is a [double], and the
    conversion gives that [double]. *)

Section IntegerDoubles.
Local Open Scope Z_scope.

Lemma SFint_opp (f : spec_float) (n : Z) :
  SFint f n -> SFint (SFopp f) (- n).
Proof.
  destruct f as [s| s| |s m e]; simpl; try tauto; try lia.
  intros H. apply valZ_opp in H.
  destruct s; simpl in *; exact H.
Qed.

Lemma of_uint63_int (n : Z) :
  0 <= n < 2 ^ 53 -> SFint (Prim2SF (of_uint63 (Uint63.of_Z n))) n.
Proof.
  intros H. rewrite FloatAxioms.of_uint63_spec, Uint63.of_Z_spec.
  assert (W : Uint63Axioms.wB = 2 ^ 63) by reflexivity.
  rewrite Z.mod_small by (rewrite W; lia).
  apply binary_normalize_int; [left; lia | lia].
Qed.

Lemma doubleOfZ_int (K n : Z) :
  0 <= K <= 52 -> Z.abs n <= 2 ^ K -> isInt K (doubleOfZ n) n.
Proof.
  intros HK Hn. split; [|exact Hn].
  assert (P : 2 ^ K < 2 ^ 53) by (apply Z.pow_lt_mono_r; lia).
  unfold doubleOfZ. destruct (Z.ltb_spec n 0).
  - rewrite FloatAxioms.opp_spec.
    replace n with (- - n) at 2 by lia.
    apply SFint_opp, of_uint63_int. lia.
  - apply of_uint63_int. lia.
Qed.

Lemma gridPoint_of_Z (z : Point Z) : smallPoint z -> gridPoint (pointOfZ z) z.
Proof.
  intros [Hx Hy]. split; apply doubleOfZ_int; simpl; lia.
Qed.

Lemma gridTriangle_of_Z (z : Triangle Z) :
  smallTriangle z -> gridTriangle (triangleOfZ z) z.
Proof.
  intros (Ha & Hb & Hc).
  split; [|split]; apply gridPoint_of_Z; assumption.
Qed.

End IntegerDoubles.

Section GridExact.
Local Open Scope Q_scope.

Lemma Qltb_true (u v : Q) : Qltb u v = true <-> u < v.
Proof.
  unfold Qltb. rewrite negb_true_iff. split.
  - intros H. apply Qnot_le_lt. intros Hle.
    apply Qle_bool_iff in Hle. congruence.
  - intros H. destruct (Qle_bool v u) eqn:E; [|reflexivity].
    apply Qle_bool_iff in E. apply Qle_not_lt in E. contradiction.
Qed.

Lemma inCircumcircle_exact (p : Point Q) (t : Triangle Q) :
  inCircumcircle p t = true <-> (1 # 1000000000) < circumDet p t.
Proof.
  rewrite inCircumcircle_det. cbn [flt lit_eps exactQ]. apply Qltb_true.
Qed.

Lemma circumDet_pointQ (p : Point Z) (t : Triangle Z) :
  circumDet (pointQ p) (triangleQ t) == inject_Z (detOf p t).
Proof.
  unfold circumDet, detOf, detZ, triangleQ. cbn [a b c].
  unfold pointQ. cbn [x y fadd fsub fmul exactQ]. cbv zeta.
  unfold Z.sub.
  repeat (rewrite inject_Z_plus || rewrite inject_Z_mult
          || rewrite inject_Z_opp).
  ring.
Qed.

Lemma eps_lt_inject (d : Z) : (1 # 1000000000) < inject_Z d <-> (0 < d)%Z.
Proof. unfold Qlt, inject_Z; simpl. lia. Qed.

(** The exact predicate on integer points. *)
Lemma inCircumcircle_pointQ (p : Point Z) (t : Triangle Z) :
  inCircumcircle (pointQ p) (triangleQ t) = (0 <? detOf p t)%Z.
Proof.
  destruct (0 <? detOf p t)%Z eqn:E.
  - apply inCircumcircle_exact. rewrite circumDet_pointQ.
    apply eps_lt_inject. now apply Z.ltb_lt.
  - destruct (inCircumcircle (pointQ p) (triangleQ t)) eqn:I;
      [|reflexivity].
    apply inCircumcircle_exact in I. rewrite circumDet_pointQ in I.
    apply eps_lt_inject in I. apply Z.ltb_ge in E. lia.
Qed.

(** The determinant is the doubled signed area of the triangle times the
    power of the point with respect to the circle through the vertices. *)
Lemma circumDet_circle (p o : Point Q) (r2 : Q) (t : Triangle Q) :
  dist2 (a t) o == r2 -> dist2 (b t) o == r2 -> dist2 (c t) o == r2 ->
  circumDet p t == orient2d (a t) (b t) (c t) * (r2 - dist2 p o).
Proof.
  destruct t as [[a1 a2] [b1 b2] [c1 c2]], p as [p1 p2], o as [o1 o2].
  unfold dist2, circumDet, orient2d.
  cbn [a b c x y fadd fsub fmul exactQ].
  intros Ha Hb Hc.
  set (da := (a1 - o1) * (a1 - o1) + (a2 - o2) * (a2 - o2)) in *.
  set (db := (b1 - o1) * (b1 - o1) + (b2 - o2) * (b2 - o2)) in *.
  set (dc := (c1 - o1) * (c1 - o1) + (c2 - o2) * (c2 - o2)) in *.
  assert (E :
    ((a1 - p1) * (a1 - p1) + (a2 - p2) * (a2 - p2)) *
    ((b1 - p1) * (c2 - p2) - (c1 - p1) * (b2 - p2)) -
    ((b1 - p1) * (b1 - p1) + (b2 - p2) * (b2 - p2)) *
    ((a1 - p1) * (c2 - p2) - (c1 - p1) * (a2 - p2)) +
    ((c1 - p1) * (c1 - p1) + (c2 - p2) * (c2 - p2)) *
    ((a1 - p1) * (b2 - p2) - (b1 - p1) * (a2 - p2))
    == ((b1 - a1) * (c2 - a2) - (c1 - a1) * (b2 - a2))
       * (r2 - ((p1 - o1) * (p1 - o1) + (p2 - o2) * (p2 - o2)))
       + (da - r2) * ((b1 - p1) * (c2 - p2) - (c1 - p1) * (b2 - p2))
       - (db - r2) * ((a1 - p1) * (c2 - p2) - (c1 - p1) * (a2 - p2))
       + (dc - r2) * ((a1 - p1) * (b2 - p2) - (b1 - p1) * (a2 - p2)))
    by (subst da db dc; ring).
  rewrite E, Ha, Hb, Hc. ring.
Qed.

End GridExact.

(** * The claims *)

Section Claims.

Local Open Scope float_scope.

(** C1: for an input whose coordinates are all finite, every vertex of
    every returned triangle is [==] to a point of the input, and is [==]
    to no corner of the super triangle. *)
Theorem C1_output_vertices_are_input_points
    (pts : list (Point float)) (out : list (Triangle float)) :
  (forall p, In p pts -> finitePoint p) ->
  delaunayTriangulation pts = Returned out ->
  exists super,
    superTriangle pts = Returned super
    /\ forall t v, In t out -> In v (vertices t) ->
         (exists p, In p pts /\ Point_eqb v p = true)
         /\ forall k, In k (vertices super) -> Point_eqb v k = false.
Proof.
  intros Hfin Hout.
  destruct (delaunayTriangulation_inv pts out Hout) as (s1 & Hb & Hs & ->).
  exists (superTriangle_of s1). split; [exact Hs|].
  set (super := superTriangle_of s1) in *.
  destruct (bounded_frame_closed (fun u => is_finite u = true) pts s1
              Hfin Hb) as (F1 & F2 & F3 & F4).
  pose proof (superTriangle_corner_self s1 F1 F2 F3 F4) as Hcorner.
  cbv zeta in Hcorner. fold super in Hcorner.
  assert (Hsound : forall t, In t (insertAll pts [super]) ->
                             sound_triangle pts super t).
  { apply insertAll_sound.
    - intros p Hp. split; [now apply Hfin|exact Hp].
    - intros t [<-|[]]. now left. }
  intros t v Ht Hv. apply In_prune in Ht. destruct Ht as [Ht Hts].
  rewrite touchesSuper_false in Hts.
  split; [|intros k Hk; now apply Hts].
  destruct (Hsound t Ht) as [->|Hvs].
  - exfalso.
    assert (Hno : forall k, In k (vertices super) -> Point_eqb k k = false)
      by (intros k Hk; now apply Hts).
    unfold vertices in Hno.
    rewrite (Hno (a super)), (Hno (b super)), (Hno (c super)) in Hcorner
      by (simpl; tauto).
    destruct Hcorner as [H|[H|H]]; discriminate.
  - destruct (Hvs v Hv) as [Hself [Hin|Hk]].
    + exists v. split; assumption.
    + rewrite (Hts v v Hv Hk) in Hself. discriminate.
Qed.

Lemma C1_output_vertices_are_input_points_witness :
  exists super,
    superTriangle scenarioA = Returned super
    /\ forall t v, In t [triangleA] -> In v (vertices t) ->
         (exists p, In p scenarioA /\ Point_eqb v p = true)
         /\ forall k, In k (vertices super) -> Point_eqb v k = false.
Proof.
  apply (C1_output_vertices_are_input_points scenarioA [triangleA]).
  - intros p [<-|[<-|[<-|[]]]]; split; vm_compute; reflexivity.
  - vm_compute. reflexivity.
Defined.

(** A NaN coordinate in the input: the super triangle is all NaN, is
    never flagged and is not pruned, since NaN is not [==] to itself. *)
Example nan_input_returns_super_triangle :
  delaunayTriangulation [mkPoint nan 0]
  = Returned [mkTriangle (mkPoint nan nan) (mkPoint nan nan)
                         (mkPoint nan nan)].
Proof. vm_compute. reflexivity. Qed.

Example superA_is_super_triangle :
  superTriangle scenarioA = Returned superA.
Proof. vm_compute. reflexivity. Qed.

(** C2: [inCircumcircle p t] is true exactly when [det > 1e-9], for the
    determinant written as in the specification. *)
Theorem C2_inCircumcircle_iff_det (p : Point float) (t : Triangle float) :
  inCircumcircle p t = true <-> (1e-9 <? det_spec p t) = true.
Proof.
  rewrite inCircumcircle_det. b64.
  replace (det_spec p t) with (circumDet p t); [reflexivity|].
  unfold circumDet, det_spec, norm2, cross2, translate. cbn [x y]. b64.
  rewrite (float_mul_comm (y (b t) - y p) (x (c t) - x p)).
  rewrite (float_mul_comm (y (a t) - y p) (x (c t) - x p)).
  rewrite (float_mul_comm (y (a t) - y p) (x (b t) - x p)).
  reflexivity.
Qed.

(** C3: the comment of line 78 announces a super triangle that
    encompasses all points, as the claim does.  For the single point
    [(2^1023, 2^1023)], whose coordinates are finite, the sum
    [minX + maxX] of line 75 overflows: the centre of the box is
    [(inf, inf)], [deltaMax] is [0], and the three corners are the one
    point [(inf, inf)].  The input point is strictly to the left of and
    strictly below every corner, so it is outside the super triangle, and
    the test written with the code's arithmetic says so too. *)
Theorem C3_overflow_leaves_point_outside :
  let P := mkPoint 0x1p+1023 0x1p+1023 in
  let T := mkTriangle (mkPoint infinity infinity)
                      (mkPoint infinity infinity)
                      (mkPoint infinity infinity) in
  (is_finite (x P) = true /\ is_finite (y P) = true)
  /\ superTriangle [P] = Returned T
  /\ ((x P <? x (a T)) = true /\ (x P <? x (b T)) = true
      /\ (x P <? x (c T)) = true)
  /\ ((y P <? y (a T)) = true /\ (y P <? y (b T)) = true
      /\ (y P <? y (c T)) = true)
  /\ inTriangle P T = false.
Proof. vm_compute. repeat split. Qed.

(** C4: an edge of the working list of an insertion is kept as a boundary
    edge exactly when one entry of the whole list, itself, and no other
    is equal to it; [Edge::operator==] holds exactly when the end points
    are [==] in one of the two directions; and a position is kept exactly
    when no other position of the list, before or after, holds an equal
    edge. *)
Theorem C4_boundary_edges_appear_once
    (point : Point float) (ts : list (Triangle float)) (e : Edge float) :
  let polygon := snd (findBad point ts) in
  In e polygon ->
  (In e (uniqueEdges polygon) <-> countEq e polygon = 1%nat)
  /\ (forall o,
        Edge_eqb e o = true
        <-> (Point_eqb (p1 e) (p1 o) = true
             /\ Point_eqb (p2 e) (p2 o) = true)
            \/ (Point_eqb (p1 e) (p2 o) = true
                /\ Point_eqb (p2 e) (p1 o) = true))
  /\ (forall o, Edge_eqb e (mkEdge (p2 o) (p1 o)) = Edge_eqb e o)
  /\ (forall i, nth_error polygon i = Some e ->
        (isUnique polygon i e = true
         <-> forall j o, j <> i -> nth_error polygon j = Some o ->
                         Edge_eqb e o = false)).
Proof.
  intros polygon Hin. split; [|split; [|split]].
  - apply uniqueEdges_countEq; [|exact Hin].
    subst polygon. rewrite findBad_eq in Hin. simpl in Hin.
    apply in_flat_map in Hin. destruct Hin as (bad & Hbad & He).
    apply filter_In in Hbad. destruct Hbad as [_ Hdet].
    apply edgesOf_vertices in He. destruct He as [He1 He2].
    pose proof (inCircumcircle_notNaN point bad Hdet) as Hself.
    apply Edge_eqb_self; now apply Hself.
  - intros o. apply Edge_eqb_true.
  - intros o. apply Edge_eqb_reverse_r.
  - intros i _. apply isUnique_true.
Qed.

Lemma C4_boundary_edges_appear_once_witness :
  let e := mkEdge (a superA) (b superA) in
  let polygon := snd (findBad (mkPoint 0 0) [superA]) in
  In e (uniqueEdges polygon) <-> countEq e polygon = 1%nat.
Proof.
  intros e polygon.
  apply (C4_boundary_edges_appear_once (mkPoint 0 0) [superA] e).
  vm_compute. left. reflexivity.
Defined.

(** C5 fails on the code: the call on the empty vector does not fail
    with an error of its own, it begins by reading [points[0]], out of
    the bounds of the vector. *)
Theorem C5_empty_input_reads_out_of_bounds :
  delaunayTriangulation (@nil (Point float))
  = Undefined (OutOfBoundsRead 0 0).
Proof. reflexivity. Qed.

(** C6: a triangle of the list is erased during an insertion exactly
    when its [a], [b] and [c] are [==], slot by slot, to those of a
    flagged triangle; the comparison is not invariant under permutation:
    against the flagged [(A, B, C)] alone, the triangle [(B, A, C)] stays
    whenever [B == A] is false. *)
Theorem C6_removal_is_slot_by_slot {F : Type} {SF : Scalar F}
    (point : Point F) (ts : list (Triangle F)) (t : Triangle F) :
  In t ts ->
  (~ In t (removeBad (fst (findBad point ts)) ts)
   <-> exists bad,
         In bad ts /\ inCircumcircle point bad = true
         /\ Point_eqb (a t) (a bad) = true
         /\ Point_eqb (b t) (b bad) = true
         /\ Point_eqb (c t) (c bad) = true)
  /\ forall A B C : Point F,
       Point_eqb B A = false ->
       removeBad [mkTriangle A B C] [mkTriangle B A C]
       = [mkTriangle B A C].
Proof.
  intros Hin. split.
  - rewrite In_removeBad. split.
    + intros Hn. destruct (isBad (fst (findBad point ts)) t) eqn:E;
        [|tauto].
      apply isBad_true in E. destruct E as (bad & Hbad & Hs).
      apply In_flagged in Hbad. apply sameSlots_true in Hs.
      exists bad. tauto.
    + intros (bad & Hbad & Hdet & Ha & Hb & Hc) [_ Hn].
      assert (E : isBad (fst (findBad point ts)) t = true).
      { apply isBad_true. exists bad. split.
        - apply In_flagged. tauto.
        - apply sameSlots_true. tauto. }
      congruence.
  - intros A B C HBA. unfold removeBad, isBad, sameSlots. simpl.
    rewrite HBA. reflexivity.
Qed.

Lemma C6_removal_is_slot_by_slot_witness :
  ~ In superA (removeBad (fst (findBad (mkPoint 0 0) [superA])) [superA])
  <-> exists bad,
        In bad [superA] /\ inCircumcircle (mkPoint 0 0) bad = true
        /\ Point_eqb (a superA) (a bad) = true
        /\ Point_eqb (b superA) (b bad) = true
        /\ Point_eqb (c superA) (c bad) = true.
Proof.
  apply (C6_removal_is_slot_by_slot (mkPoint 0 0) [superA] superA).
  simpl. left. reflexivity.
Defined.

(** C7: when [inCircumcircle] is false for the point on every triangle
    of the list, the insertion builds no triangle and leaves the list as
    it is. *)
Theorem C7_no_bad_triangle_no_change {F : Type} {SF : Scalar F}
    (point : Point F) (ts : list (Triangle F)) :
  (forall t, In t ts -> inCircumcircle point t = false) ->
  fan point (uniqueEdges (snd (findBad point ts))) = []
  /\ insertPoint point ts = ts.
Proof.
  intros H. rewrite insertPoint_eq, findBad_eq.
  rewrite (flagged_nil point ts H). simpl.
  rewrite removeBad_nil. split; [reflexivity|apply app_nil_r].
Qed.

Lemma C7_no_bad_triangle_no_change_witness :
  fan (mkPoint 5 5) (uniqueEdges (snd (findBad (mkPoint 5 5) [triangleA])))
  = []
  /\ insertPoint (mkPoint 5 5) [triangleA] = [triangleA].
Proof.
  apply (C7_no_bad_triangle_no_change (mkPoint 5 5) [triangleA]).
  intros t [<-|[]]. vm_compute. reflexivity.
Defined.

(** C8: on [(0,0), (1,0), (0,1)] the call returns one triangle, with
    these three points as its vertices. *)
Theorem C8_scenario_A :
  delaunayTriangulation scenarioA = Returned [triangleA]
  /\ vertices triangleA = scenarioA.
Proof. split; vm_compute; reflexivity. Qed.

(** C9: when the call returns, the vector [points] holds what it held
    when the call began; the triangles returned are those of
    [delaunayTriangulation]. *)
Theorem C9_input_is_not_mutated {F : Type} {SF : Scalar F}
    (pts pts' : list (Point F)) (ts : list (Triangle F)) :
  delaunayTriangulation_run pts = Returned (ts, pts') ->
  pts' = pts /\ delaunayTriangulation pts = Returned ts.
Proof.
  intros H. unfold delaunayTriangulation. rewrite H. split; [|reflexivity].
  destruct (bounded_frame pts) as [s1|u] eqn:Hb.
  - rewrite (delaunayTriangulation_run_eq pts s1 Hb) in H.
    injection H as _ <-. reflexivity.
  - unfold delaunayTriangulation_run in H. rewrite Hb in H. discriminate.
Qed.

Lemma C9_input_is_not_mutated_witness :
  scenarioA = scenarioA
  /\ delaunayTriangulation scenarioA = Returned [triangleA].
Proof.
  apply (C9_input_is_not_mutated scenarioA scenarioA [triangleA]).
  vm_compute. reflexivity.
Defined.

(** C10 as stated fails on [double]: the points [(0,0)], [(0,300001)],
    [(1,0)], [(1,300001)] are on one circle; the determinant computed for
    [(A, B, C)] is [0] and the one computed for [(A, C, B)] is [-1]. *)
Lemma C10_counterexample_swap_bc :
  let p := mkPoint 0 0 in
  let A := mkPoint 0 300001 in
  let B := mkPoint 1 0 in
  let C := mkPoint 1 300001 in
  circumDet p (mkTriangle A B C) = 0
  /\ circumDet p (mkTriangle A C B) = -1
  /\ (circumDet p (mkTriangle A C B) =? - circumDet p (mkTriangle A B C))
     = false.
Proof. vm_compute. repeat split. Qed.

(** C10, amended: swapping the first two vertices negates the computed
    determinant (unless it is NaN), so [inCircumcircle] is not true for
    both [(a, b, c)] and [(b, a, c)]; a swap of any two vertices negates
    the determinant when the arithmetic is exact; and [inCircumcircle] can
    be false for both, as for the point [(0,0)] and [triangleA]. *)
Theorem C10_swap_negates_determinant :
  (forall p A B C : Point float,
      ((circumDet p (mkTriangle B A C)
        =? - circumDet p (mkTriangle A B C)) = true
       \/ (is_nan (circumDet p (mkTriangle A B C)) = true
           /\ is_nan (circumDet p (mkTriangle B A C)) = true))
      /\ inCircumcircle p (mkTriangle A B C)
         && inCircumcircle p (mkTriangle B A C) = false)
  /\ (forall p A B C : Point Q,
        (circumDet p (mkTriangle B A C)
         == - circumDet p (mkTriangle A B C))%Q
        /\ (circumDet p (mkTriangle A C B)
            == - circumDet p (mkTriangle A B C))%Q
        /\ (circumDet p (mkTriangle C B A)
            == - circumDet p (mkTriangle A B C))%Q)
  /\ (inCircumcircle (mkPoint 0 0) triangleA = false
      /\ inCircumcircle (mkPoint 0 0)
           (mkTriangle (b triangleA) (a triangleA) (c triangleA)) = false).
Proof.
  split; [|split].
  - intros p A B C. split;
      [apply circumDet_swap_ab|apply inCircumcircle_swap_ab].
  - apply circumDet_swap_exact.
  - split; vm_compute; reflexivity.
Qed.

End Claims.

(** * Further properties *)

Section Further.
Local Open Scope float_scope.

(** ** The comparisons of [Point] and [Edge] *)

(** X1: [Point::operator==] is symmetric and transitive on all doubles,
    and a point is [==] to itself exactly when none of its coordinates is
    NaN. *)
Theorem Point_eq_partial_equivalence (p q r : Point float) :
  (Point_eqb p p = true <-> pointNotNaN p)
  /\ Point_eqb p q = Point_eqb q p
  /\ (Point_eqb p q = true -> Point_eqb q r = true ->
      Point_eqb p r = true).
Proof.
  split; [apply Point_eqb_self|].
  split; [apply Point_eqb_sym|apply Point_eqb_trans].
Qed.

Lemma Point_eq_partial_equivalence_witness :
  Point_eqb (mkPoint 0 1) (mkPoint 0 2) = Point_eqb (mkPoint 0 2) (mkPoint 0 1)
  /\ Point_eqb (mkPoint 0 1) (mkPoint 0 1) = true.
Proof.
  destruct (Point_eq_partial_equivalence
              (mkPoint 0 1) (mkPoint (-0) 1) (mkPoint 0 1)) as (_ & _ & T).
  split; [vm_compute; reflexivity|].
  apply T; vm_compute; reflexivity.
Defined.

(** X2: on points without NaN, [Point::operator<] is a strict weak
    ordering, which is what [std::map] asks of its comparison: it is
    irreflexive, asymmetric and transitive, of two points one is before
    the other or they are [==], two points are unordered exactly when
    they are [==], and being unordered is transitive. *)
Theorem Point_lt_strict_weak_order (p q r : Point float) :
  pointNotNaN p -> pointNotNaN q -> pointNotNaN r ->
  Point_ltb p p = false
  /\ (Point_ltb p q = true -> Point_ltb q p = false)
  /\ (Point_ltb p q = true -> Point_ltb q r = true ->
      Point_ltb p r = true)
  /\ (Point_ltb p q = true \/ Point_eqb p q = true \/ Point_ltb q p = true)
  /\ Point_equiv p q = Point_eqb p q
  /\ (Point_equiv p q = true -> Point_equiv q r = true ->
      Point_equiv p r = true).
Proof.
  intros Hp Hq Hr.
  split; [apply Point_ltb_irrefl|].
  split; [apply Point_ltb_asym|].
  split; [now apply Point_ltb_trans|].
  split; [now apply Point_ltb_total|].
  split; [now apply Point_equiv_eqb|].
  rewrite !Point_equiv_eqb by assumption. apply Point_eqb_trans.
Qed.

Lemma Point_lt_strict_weak_order_witness :
  Point_ltb (mkPoint 0 1) (mkPoint 1 0) = true.
Proof.
  destruct (Point_lt_strict_weak_order
              (mkPoint 0 1) (mkPoint 0 2) (mkPoint 1 0))
    as (_ & _ & T & _); [not_nan|not_nan|not_nan|].
  apply T; vm_compute; reflexivity.
Defined.

(** With a NaN the ordering is no strict weak ordering: the point below
    is unordered with two points of which one is before the other. *)
Example Point_lt_with_nan :
  Point_equiv (mkPoint 0 0) (mkPoint nan 0) = true
  /\ Point_equiv (mkPoint nan 0) (mkPoint 1 0) = true
  /\ Point_equiv (mkPoint 0 0) (mkPoint 1 0) = false.
Proof. vm_compute. auto. Qed.

(** X3: [Edge::operator==] is symmetric and transitive on all doubles, an
    edge whose end points hold no NaN is [==] to itself, and reversing an
    edge changes no comparison. *)
Theorem Edge_eq_partial_equivalence (e o u : Edge float) :
  Edge_eqb e o = Edge_eqb o e
  /\ (Edge_eqb e o = true -> Edge_eqb o u = true -> Edge_eqb e u = true)
  /\ (pointNotNaN (p1 e) -> pointNotNaN (p2 e) -> Edge_eqb e e = true)
  /\ Edge_eqb (mkEdge (p2 e) (p1 e)) o = Edge_eqb e o.
Proof.
  split; [apply Edge_eqb_sym|]. split; [apply Edge_eqb_trans|].
  split; [|apply Edge_eqb_reverse_l].
  intros H1 H2. apply Edge_eqb_self; now apply Point_eqb_self.
Qed.

Lemma Edge_eq_partial_equivalence_witness :
  Edge_eqb (mkEdge (mkPoint 0 0) (mkPoint 1 0))
           (mkEdge (mkPoint 0 0) (mkPoint 1 0)) = true.
Proof.
  destruct (Edge_eq_partial_equivalence
              (mkEdge (mkPoint 0 0) (mkPoint 1 0))
              (mkEdge (mkPoint 1 0) (mkPoint 0 0))
              (mkEdge (mkPoint 0 0) (mkPoint 1 0))) as (_ & T & _).
  apply T; vm_compute; reflexivity.
Defined.

(** ** The circumcircle predicate *)

(** X4: [inCircumcircle] gives the same answer for a point and a triangle
    as for a point [==] to it and a triangle whose vertices are [==] slot
    by slot: it does not see the sign of a zero. *)
Theorem inCircumcircle_respects_eq (p p' : Point float)
    (t t' : Triangle float) :
  Point_eqb p p' = true -> sameSlots t t' = true ->
  inCircumcircle p t = inCircumcircle p' t'.
Proof. apply inCircumcircle_eqb_compat. Qed.

Lemma inCircumcircle_respects_eq_witness :
  inCircumcircle (mkPoint 0 0.25)
    (mkTriangle (mkPoint 0 0) (mkPoint 1 0) (mkPoint 0 1))
  = inCircumcircle (mkPoint (-0) 0.25)
      (mkTriangle (mkPoint 0 (-0)) (mkPoint 1 0) (mkPoint (-0) 1)).
Proof.
  apply (inCircumcircle_respects_eq (mkPoint 0 0.25) (mkPoint (-0) 0.25));
    vm_compute; reflexivity.
Defined.

(** X5: a point [==] to a vertex of a triangle is never inside its
    circumcircle, whatever the other vertices are (also with NaN or
    infinite coordinates). *)
Theorem inCircumcircle_false_at_vertex (p v : Point float)
    (t : Triangle float) :
  In v (vertices t) -> Point_eqb v p = true -> inCircumcircle p t = false.
Proof. apply inCircumcircle_at_vertex. Qed.

Lemma inCircumcircle_false_at_vertex_witness :
  inCircumcircle (mkPoint 1 0)
    (mkTriangle (mkPoint 0 0) (mkPoint 1 0) (mkPoint 0 1)) = false.
Proof.
  apply (inCircumcircle_false_at_vertex (mkPoint 1 0) (mkPoint 1 0)).
  - simpl. auto.
  - vm_compute. reflexivity.
Defined.

(** X6: no point is inside the circumcircle of a triangle two of whose
    vertices are [==]. *)
Theorem inCircumcircle_false_on_repeated_vertex (p : Point float)
    (t : Triangle float) :
  Point_eqb (a t) (b t) = true \/ Point_eqb (b t) (c t) = true
  \/ Point_eqb (c t) (a t) = true ->
  inCircumcircle p t = false.
Proof. apply inCircumcircle_degenerate. Qed.

Lemma inCircumcircle_false_on_repeated_vertex_witness :
  inCircumcircle (mkPoint 0.5 0.5)
    (mkTriangle (mkPoint 0 0) (mkPoint 3 1) (mkPoint 0 0)) = false.
Proof.
  apply (inCircumcircle_false_on_repeated_vertex (mkPoint 0.5 0.5)).
  right. right. vm_compute. reflexivity.
Defined.

(** ** The engine *)


(** X8: inserting a point removes no triangle that has a vertex [==] to
    it. *)
Theorem insertPoint_keeps_incident (point v : Point float)
    (ts : list (Triangle float)) (t : Triangle float) :
  In t ts -> In v (vertices t) -> Point_eqb v point = true ->
  In t (insertPoint point ts).
Proof.
  intros Ht Hv He. rewrite insertPoint_eq, removeBad_flagged.
  apply in_or_app. left. apply filter_In. split; [exact Ht|].
  now rewrite (inCircumcircle_at_vertex point v t Hv He).
Qed.

Lemma insertPoint_keeps_incident_witness :
  In (mkTriangle (mkPoint 0 0) (mkPoint 1 0) (mkPoint 0 1))
     (insertPoint (mkPoint 1 0) squareCells).
Proof.
  apply (insertPoint_keeps_incident (mkPoint 1 0) (mkPoint 1 0)).
  - simpl. auto.
  - simpl. auto.
  - vm_compute. reflexivity.
Defined.

(** X9: for an input without NaN, the four bounds after the first loop
    bound every input point, and each of them is a coordinate of an input
    point. *)
Theorem bounding_box_is_tight (pts : list (Point float))
    (s : frame float) :
  (forall p, In p pts -> pointNotNaN p) ->
  bounded_frame pts = Returned s ->
  (forall p, In p pts ->
     (minX s <=? x p) = true /\ (x p <=? maxX s) = true
     /\ (minY s <=? y p) = true /\ (y p <=? maxY s) = true)
  /\ (exists p, In p pts /\ x p = minX s)
  /\ (exists p, In p pts /\ y p = minY s)
  /\ (exists p, In p pts /\ x p = maxX s)
  /\ (exists p, In p pts /\ y p = maxY s).
Proof.
  intros Hn Hb. split; [now apply bounded_frame_box64|].
  apply (bounded_frame_closed2
           (fun u => exists p, In p pts /\ x p = u)
           (fun u => exists p, In p pts /\ y p = u) pts s); [|exact Hb].
  intros p Hp. split; exists p; auto.
Qed.

Lemma bounding_box_is_tight_witness :
  exists s, bounded_frame squarePoints = Returned s
            /\ exists p, In p squarePoints /\ x p = maxX s.
Proof.
  eexists. split; [vm_compute; reflexivity|].
  apply (bounding_box_is_tight squarePoints).
  - intros p [<-|[<-|[<-|[<-|[]]]]]; not_nan.
  - vm_compute. reflexivity.
Defined.

(** X10: for an input whose coordinates are all finite, the three
    vertices of a returned triangle are pairwise not [==], and each of
    them is a point of the input, bit for bit. *)
Theorem returned_triangles_are_proper (pts : list (Point float))
    (out : list (Triangle float)) (t : Triangle float) :
  (forall p, In p pts -> finitePoint p) ->
  delaunayTriangulation pts = Returned out ->
  In t out ->
  distinct3 t /\ forall v, In v (vertices t) -> In v pts.
Proof. apply returned_triangle_inv. Qed.

Lemma returned_triangles_are_proper_witness :
  distinct3 triangleA /\ forall v, In v (vertices triangleA) -> In v scenarioA.
Proof.
  apply (returned_triangles_are_proper scenarioA [triangleA]).
  - intros p [<-|[<-|[<-|[]]]]; split; vm_compute; reflexivity.
  - vm_compute. reflexivity.
  - simpl. auto.
Defined.

(** X11: an input of finite points that are all [==] to one or the other
    of two points yields no triangle. *)
Theorem two_points_return_nothing (pts : list (Point float))
    (p0 p1 : Point float) :
  pts <> [] ->
  (forall p, In p pts -> finitePoint p) ->
  (forall p, In p pts ->
     Point_eqb p p0 = true \/ Point_eqb p p1 = true) ->
  delaunayTriangulation pts = Returned [].
Proof.
  intros Hne Hfin Htwo.
  destruct (delaunayTriangulation_returns pts Hne) as (out & Hout).
  rewrite Hout. f_equal. destruct out as [|t out]; [reflexivity|exfalso].
  destruct (returned_triangle_inv pts (t :: out) t Hfin Hout
              (or_introl eq_refl)) as [(Hab & Hbc & Hca) Hin].
  assert (K : forall u w k : Point float, Point_eqb u k = true -> Point_eqb w k = true ->
                            Point_eqb u w = true).
  { intros u w k H1 H2. apply (Point_eqb_trans u k w H1).
    now rewrite Point_eqb_sym. }
  destruct (Htwo (a t)) as [Ha|Ha]; [apply Hin; simpl; auto| |];
  destruct (Htwo (b t)) as [Hb|Hb]; try (apply Hin; simpl; auto);
  destruct (Htwo (c t)) as [Hc|Hc]; try (apply Hin; simpl; auto);
    first [ rewrite (K _ _ _ Ha Hb) in Hab; discriminate
          | rewrite (K _ _ _ Hb Hc) in Hbc; discriminate
          | rewrite (K _ _ _ Hc Ha) in Hca; discriminate ].
Qed.

Lemma two_points_return_nothing_witness :
  delaunayTriangulation
    [mkPoint 0 0; mkPoint 1 0; mkPoint (-0) 0; mkPoint 1 (-0)]
  = Returned [].
Proof.
  apply (two_points_return_nothing _ (mkPoint 0 0) (mkPoint 1 0)).
  - discriminate.
  - intros p [<-|[<-|[<-|[<-|[]]]]]; split; vm_compute; reflexivity.
  - intros p [<-|[<-|[<-|[<-|[]]]]];
      [left|right|left|right]; vm_compute; reflexivity.
Defined.

(** ** The export *)

(** X12: for triangles without NaN whose different points number at most
    [INT_MAX], [exportToVTK] on a file that opens runs into nothing
    undefined and writes, after the header, the points in the order in
    which the triangles first name them, each once, then for each
    triangle the positions of its three vertices in that table, then the
    cell types; it reports on [std::cout] and writes nothing to
    [std::cerr]. *)
Theorem exportToVTK_writes (ts : list (Triangle float))
    (filename : string) :
  (forall t v, In t ts -> In v (vertices t) -> pointNotNaN v) ->
  (Z.of_nat (length (firstPoints (flat_map vertices ts))) <= INT_MAX)%Z ->
  exportToVTK true ts filename
  = Done (mkStreams
            (Some (vtkTokens (firstPoints (flat_map vertices ts)) ts))
            [Text "Exported to "; Text filename; Endl] []).
Proof. apply exportToVTK_table. Qed.

Lemma exportToVTK_writes_witness :
  exportToVTK true squareCells "square.vtk"
  = Done (mkStreams (Some (vtkTokens squarePoints squareCells))
            [Text "Exported to "; Text "square.vtk"; Endl] []).
Proof.
  apply (exportToVTK_writes squareCells "square.vtk").
  - intros t v [<-|[<-|[]]] [<-|[<-|[<-|[]]]]; not_nan.
  - vm_compute. discriminate.
Defined.

(** X13: under the same conditions the index written for a vertex is the
    position, in the vector of points written before, of a point [==] to
    that vertex, and reading the map for it adds no entry. *)
Theorem export_indices_point_back (ts : list (Triangle float)) :
  (forall t v, In t ts -> In v (vertices t) -> pointNotNaN v) ->
  (Z.of_nat (length (firstPoints (flat_map vertices ts))) <= INT_MAX)%Z ->
  exists pointMap uniquePoints,
    collectPoints ts = Done (pointMap, Z.of_nat (length uniquePoints))
    /\ fillUniquePoints pointMap = Done uniquePoints
    /\ forall t v, In t ts -> In v (vertices t) ->
         exists i q,
           map_index pointMap v = (Z.of_nat i, pointMap)
           /\ nth_error uniquePoints i = Some q
           /\ Point_eqb v q = true.
Proof.
  intros Hn Hlen.
  destruct (export_tables ts Hn Hlen) as (m & E & P & G & Fi & _).
  exists m, (firstPoints (flat_map vertices ts)).
  split; [exact E|]. split; [exact Fi|].
  intros t v Ht Hv. apply table_lookup; try assumption.
  - now apply (Hn t v).
  - apply fold_addFirst_covers.
    + left. apply in_flat_map. eauto.
    + apply Point_eqb_self. now apply (Hn t v).
Qed.

Lemma export_indices_point_back_witness :
  exists pointMap uniquePoints,
    collectPoints squareCells
    = Done (pointMap, Z.of_nat (length uniquePoints))
    /\ fillUniquePoints pointMap = Done uniquePoints
    /\ forall t v, In t squareCells -> In v (vertices t) ->
         exists i q,
           map_index pointMap v = (Z.of_nat i, pointMap)
           /\ nth_error uniquePoints i = Some q
           /\ Point_eqb v q = true.
Proof.
  apply (export_indices_point_back squareCells).
  - intros t v [<-|[<-|[]]] [<-|[<-|[<-|[]]]]; not_nan.
  - vm_compute. discriminate.
Defined.

(** X14: under the same conditions the vector of points written to the
    file holds no two points that are [==], holds only vertices of the
    triangles, as many as the map has entries, and so at most three for
    each triangle. *)
Theorem export_points_are_distinct (ts : list (Triangle float)) :
  (forall t v, In t ts -> In v (vertices t) -> pointNotNaN v) ->
  (Z.of_nat (length (firstPoints (flat_map vertices ts))) <= INT_MAX)%Z ->
  exists pointMap uniquePoints,
    collectPoints ts = Done (pointMap, Z.of_nat (length uniquePoints))
    /\ fillUniquePoints pointMap = Done uniquePoints
    /\ length pointMap = length uniquePoints
    /\ (length uniquePoints <= 3 * length ts)%nat
    /\ (forall i j q q',
          nth_error uniquePoints i = Some q ->
          nth_error uniquePoints j = Some q' ->
          Point_eqb q q' = true -> i = j)
    /\ forall q, In q uniquePoints ->
         exists t, In t ts /\ In q (vertices t).
Proof.
  intros Hn Hlen.
  destruct (export_tables ts Hn Hlen) as (m & E & P & [_ G] & Fi & _).
  exists m, (firstPoints (flat_map vertices ts)).
  split; [exact E|]. split; [exact Fi|].
  split; [now rewrite (Permutation_length P), length_entries|].
  split.
  - pose proof (length_fold_addFirst (flat_map vertices ts) []) as L.
    rewrite length_flat_map_vertices in L. exact (proj2 L).
  - split; [exact G|apply firstPoints_vertex].
Qed.

Lemma export_points_are_distinct_witness :
  exists pointMap uniquePoints,
    collectPoints squareCells
    = Done (pointMap, Z.of_nat (length uniquePoints))
    /\ fillUniquePoints pointMap = Done uniquePoints
    /\ length pointMap = length uniquePoints
    /\ (length uniquePoints <= 3 * length squareCells)%nat
    /\ (forall i j q q',
          nth_error uniquePoints i = Some q ->
          nth_error uniquePoints j = Some q' ->
          Point_eqb q q' = true -> i = j)
    /\ forall q, In q uniquePoints ->
         exists t, In t squareCells /\ In q (vertices t).
Proof.
  apply (export_points_are_distinct squareCells).
  - intros t v [<-|[<-|[]]] [<-|[<-|[<-|[]]]]; not_nan.
  - vm_compute. discriminate.
Defined.

(** X15: the triangles returned for at most [INT_MAX] finite points can
    be exported: [exportToVTK] on a file that opens runs into nothing
    undefined, and the points it writes are points of the input, no point
    twice. *)
Theorem export_of_triangulation (pts : list (Point float))
    (out : list (Triangle float)) (filename : string) :
  (forall p, In p pts -> finitePoint p) ->
  (Z.of_nat (length pts) <= INT_MAX)%Z ->
  delaunayTriangulation pts = Returned out ->
  exists d,
    exportToVTK true out filename
    = Done (mkStreams (Some (vtkTokens d out))
              [Text "Exported to "; Text filename; Endl] [])
    /\ NoDup d /\ forall q, In q d -> In q pts.
Proof.
  intros Hfin Hlen Hout.
  assert (Hv : forall t v, In t out -> In v (vertices t) -> In v pts).
  { intros t v Ht. now apply (returned_triangle_inv pts out t Hfin Hout). }
  assert (Hn : forall t v, In t out -> In v (vertices t) -> pointNotNaN v).
  { intros t v Ht Hin. destruct (Hfin v (Hv t v Ht Hin)).
    split; now apply is_finite_notNaN. }
  set (d := firstPoints (flat_map vertices out)).
  assert (Hd : forall q, In q d -> In q pts).
  { intros q Hq. apply firstPoints_vertex in Hq.
    destruct Hq as (t & Ht & Hq). now apply (Hv t). }
  assert (G : goodTable d).
  { apply goodTable_fold_addFirst; [apply goodTable_nil|].
    intros v Hin. apply in_flat_map in Hin.
    destruct Hin as (t & Ht & Hin). now apply (Hn t). }
  exists d. split; [|split; [now apply goodTable_NoDup|exact Hd]].
  apply exportToVTK_table; [exact Hn|].
  pose proof (NoDup_incl_length (goodTable_NoDup d G) Hd). fold d. lia.
Qed.

Lemma export_of_triangulation_witness :
  exists d,
    exportToVTK true [triangleA] "a.vtk"
    = Done (mkStreams (Some (vtkTokens d [triangleA]))
              [Text "Exported to "; Text "a.vtk"; Endl] [])
    /\ NoDup d /\ forall q, In q d -> In q scenarioA.
Proof.
  apply (export_of_triangulation scenarioA [triangleA] "a.vtk").
  - intros p [<-|[<-|[<-|[]]]]; split; vm_compute; reflexivity.
  - vm_compute. discriminate.
  - vm_compute. reflexivity.
Defined.

End Further.

Ltac on_grid :=
  repeat split; vm_compute;
  first [ reflexivity | discriminate | right; split; reflexivity ].

Section FurtherGrid.
Local Open Scope Q_scope.

Lemma Qmult_pos_iff_l (A B : Q) : 0 < A -> (0 < A * B <-> 0 < B).
Proof.
  intros HA. split; intros H.
  - destruct (Qlt_le_dec 0 B) as [L|L]; [exact L|exfalso].
    assert (0 <= A * (- B)) by (apply Qmult_le_0_compat; lra).
    assert (A * (- B) == - (A * B)) by ring. lra.
  - apply Qmult_lt_0_compat; assumption.
Qed.

Lemma Qmult_pos_iff_neg (A B : Q) : A < 0 -> (0 < A * B <-> B < 0).
Proof.
  intros HA.
  assert (E : A * B == (- A) * (- B)) by ring. rewrite E.
  rewrite Qmult_pos_iff_l by lra. split; intros; lra.
Qed.

(** X16: for a point and a triangle whose coordinates are integers of
    magnitude at most [2^11 = 2048] (every such integer is a [double],
    [gridPoint_of_Z]), no operation of [inCircumcircle] rounds: the
    answer on [double] is the answer in exact arithmetic.
    For [o] and [r2] the centre and the squared radius of the circle
    through the three vertices, the answer is true exactly when the
    doubled signed area of the triangle times [r2 - |p - o|^2] is
    positive: on a counter-clockwise triangle exactly when the point is
    strictly inside the circle, on a clockwise triangle exactly when it
    is strictly outside. *)
Theorem inCircumcircle_on_grid (p : Point float) (t : Triangle float)
    (pz : Point Z) (tz : Triangle Z) :
  gridPoint p pz -> gridTriangle t tz ->
  inCircumcircle p t = inCircumcircle (pointQ pz) (triangleQ tz)
  /\ forall (o : Point Q) (r2 : Q),
       dist2 (pointQ (a tz)) o == r2 ->
       dist2 (pointQ (b tz)) o == r2 ->
       dist2 (pointQ (c tz)) o == r2 ->
       let area2 :=
         orient2d (pointQ (a tz)) (pointQ (b tz)) (pointQ (c tz)) in
       (inCircumcircle p t = true
        <-> 0 < area2 * (r2 - dist2 (pointQ pz) o))
       /\ (0 < area2 ->
           (inCircumcircle p t = true <-> dist2 (pointQ pz) o < r2))
       /\ (area2 < 0 ->
           (inCircumcircle p t = true <-> r2 < dist2 (pointQ pz) o)).
Proof.
  intros Hp Ht.
  assert (E : inCircumcircle p t
              = inCircumcircle (pointQ pz) (triangleQ tz))
    by now rewrite (inCircumcircle_grid p t pz tz),
                   inCircumcircle_pointQ.
  split; [exact E|]. intros o r2 Ha Hb Hc area2.
  pose proof (circumDet_circle (pointQ pz) o r2 (triangleQ tz) Ha Hb Hc)
    as C.
  cbn [triangleQ a b c] in C. fold area2 in C.
  assert (I : inCircumcircle p t = true
              <-> 0 < area2 * (r2 - dist2 (pointQ pz) o)).
  { rewrite (inCircumcircle_grid p t pz tz Hp Ht), Z.ltb_lt.
    rewrite <- C, circumDet_pointQ.
    unfold Qlt, inject_Z; simpl. lia. }
  split; [exact I|]. split; intros HA; rewrite I.
  - rewrite Qmult_pos_iff_l by exact HA. split; intros; lra.
  - rewrite Qmult_pos_iff_neg by exact HA. split; intros; lra.
Qed.

Lemma inCircumcircle_on_grid_witness :
  inCircumcircle (mkPoint 0 0)%float unitTriangle = true.
Proof.
  destruct (inCircumcircle_on_grid (mkPoint 0 0)%float unitTriangle
              (mkPoint 0 0)%Z unitTriangleZ) as [_ H].
  - on_grid.
  - on_grid.
  - assert (R : forall v, In v (vertices unitTriangleZ) ->
                  dist2 (pointQ v) (mkPoint 0 0) == 1)
      by (intros v [<-|[<-|[<-|[]]]]; vm_compute; reflexivity).
    destruct (H (mkPoint 0 0) 1) as (_ & I & _);
      [apply R; simpl; auto..|].
    apply I; vm_compute; reflexivity.
Defined.

End FurtherGrid.

Section FurtherSmall.
Local Open Scope float_scope.

(** X17: a non-empty input all of whose coordinates have magnitude at
    most [2^-17] (about [7.6e-6]) yields no triangle: the threshold
    [1e-9] of [inCircumcircle] is absolute, every determinant computed
    for such an input has magnitude at most [2^-32], so no point flags
    the super triangle, no point is inserted, and the super triangle is
    pruned. *)
Theorem small_input_returns_nothing (pts : list (Point float)) :
  pts <> [] ->
  (forall p, In p pts ->
     (abs (x p) <=? 0x1p-17) = true /\ (abs (y p) <=? 0x1p-17) = true) ->
  delaunayTriangulation pts = Returned [].
Proof.
  intros Hne Hs. apply small_returns_nothing; [exact Hne|].
  intros p Hp. destruct (Hs p Hp) as [Hx Hy].
  split; apply (leb_bnd (-17) 0x1p-17); try assumption; reflexivity.
Qed.

Lemma small_input_returns_nothing_witness :
  delaunayTriangulation [mkPoint 0 0; mkPoint 5e-6 0; mkPoint 0 5e-6]
  = Returned [].
Proof.
  apply small_input_returns_nothing.
  - discriminate.
  - intros p [<-|[<-|[<-|[]]]]; split; vm_compute; reflexivity.
Defined.

(** The same triangle a thousand times larger is returned. *)
Example larger_triangle_is_returned :
  delaunayTriangulation [mkPoint 0 0; mkPoint 5e-3 0; mkPoint 0 5e-3]
  = Returned [mkTriangle (mkPoint 0 0) (mkPoint 5e-3 0) (mkPoint 0 5e-3)].
Proof. vm_compute. reflexivity. Qed.

End FurtherSmall.
